(** * The per-tick simulation engine of the cell game

    A shallow embedding of the game loop of [GameCanvas] ([update],
    [initWorld], [spawnPlayer], [spawnBot]), of [utils.ts] and of
    [constants.ts], followed by the properties of the specification.

    Conventions of the embedding.
    - A JavaScript [number] holding a continuous quantity (mass, radius,
      position, velocity, timestamp) is a real number: rounding, NaN and
      infinities of binary64 are left out.  Array lengths and loop counters
      are [nat] or [Z]; the score is a [Z].  The two conversions between
      mass and radius are also given on binary64 numbers, as the code
      computes them, in the module [Binary64].
    - A JavaScript array is a [list]; in-place updates by index are written
      with the helpers of the section on arrays.
    - [Date.now()] and [Math.random()] read an [Oracle]; the position of the
      next read and the calls made to the audio and outcome collaborators
      are threaded through the state of a small monad [M].
    - The HUD, the FPS counter and the canvas drawing only read the state and
      are left out of [update]; the values the HUD shows are computed in the
      section on the HUD. *)

From Stdlib Require Import Reals Lra Lia String Ascii ZArith Bool Arith List Sorted
  Permutation.
From Stdlib Require PrimFloat.
Import ListNotations.

Set Implicit Arguments.
Local Open Scope R_scope.

(* ================================================================== *)
(** * Numbers *)

Definition Rltb (a b : R) : bool := if Rlt_dec a b then true else false.
Definition Rleb (a b : R) : bool := if Rle_dec a b then true else false.
Definition Reqb (a b : R) : bool := if Req_dec_T a b then true else false.

Infix "<?" := Rltb : R_scope.
Infix "<=?" := Rleb : R_scope.
Infix "=?" := Reqb : R_scope.

(** [a >? b] and [a >=? b] of the source are written [b <? a] and [b <=? a]. *)

Definition Math_floor (r : R) : Z := Int_part r.
Definition Math_ceil (r : R) : Z := (- Int_part (- r))%Z.
Definition Math_max (a b : R) : R := Rmax a b.
Definition Math_min (a b : R) : R := Rmin a b.
Definition Math_abs (a : R) : R := Rabs a.
Definition Math_sqrt (a : R) : R := sqrt a.
Definition Math_PI : R := PI.
Definition Math_cos (a : R) : R := cos a.
Definition Math_sin (a : R) : R := sin a.
Definition Math_pow (a b : R) : R := Rpower a b.

(** [Math.atan2(y, x)] on the reals (no signed zero). *)
Definition Math_atan2 (y x : R) : R :=
  if 0 <? x then atan (y / x)
  else if x <? 0 then
    (if 0 <=? y then atan (y / x) + PI else atan (y / x) - PI)
  else if 0 <? y then PI / 2
  else if y <? 0 then - (PI / 2)
  else 0.

(* ================================================================== *)
(** * constants.ts *)

Definition MAP_WIDTH : R := 4000.
Definition MAP_HEIGHT : R := 4000.

Definition INITIAL_MASS : R := 15.
Definition MIN_MASS_TO_SPLIT : R := 35.
Definition MIN_MASS_TO_EJECT : R := 35.
Definition EJECT_MASS_LOSS : R := 16.
Definition EJECT_MASS_GAIN : R := 12.
Definition MAX_CELLS : nat := 16.
Definition MERGE_COOLDOWN_MS : R := 15000.
Definition VIRUS_MASS : R := 100.
Definition VIRUS_RADIUS : R := 70.
Definition VIRUS_BONUS_MASS : R := 150.

Definition BASE_SPEED : R := 6.
Definition FRICTION : R := 9 / 10.
Definition SPLIT_IMPULSE : R := 25.
Definition EJECT_IMPULSE : R := 15.
Definition MASS_DECAY_RATE : R := 9999 / 10000.
Definition MASS_DECAY_THRESHOLD : R := 100.
Definition SWARM_GRAVITY : R := 2 / 100.

Definition GAME_DURATION_MS : R := 12 * 60 * 1000.
Definition RESPAWN_DELAY_MS : R := 3000.

Definition BOT_COUNT : nat := 15.
Definition BOT_SPEED_FACTOR : R := 6 / 10.

Local Open Scope string_scope.

Definition BOT_NAMES : list string :=
  [ "Terminator"; "Blob"; "Goliath"; "Tiny"; "Eater";
    "Pro_Gamer"; "Noob"; "Mars"; "Pluto"; "Virus_Lover";
    "Bacteria"; "Cell_Mate"; "Winner"; "Loser"; "Alpha";
    "Omega"; "Zeta"; "Prime"; "Hunter"; "Prey"; "Agar"; "Io"; "Sphere" ].

Definition COLORS : list string :=
  [ "#FF5252"; "#E040FB"; "#7C4DFF"; "#536DFE";
    "#448AFF"; "#40C4FF"; "#18FFFF"; "#64FFDA";
    "#69F0AE"; "#B2FF59"; "#EEFF41"; "#FFFF00";
    "#FFD740"; "#FFAB40"; "#FF6E40" ].

Definition FOOD_COLORS : list string :=
  [ "#ffcd56"; "#36a2eb"; "#ff6384"; "#4bc0c0"; "#9966ff" ].

Local Close Scope string_scope.

(* ================================================================== *)
(** * types.ts *)

Record Vector := mkVector { v_x : R; v_y : R }.

(** The tag [type: 'pellet'] is constant and carried by the record type. *)
Record Food := mkFood {
  f_id : string; f_x : R; f_y : R; f_radius : R; f_color : string }.

Record Virus := mkVirus {
  vi_id : string; vi_x : R; vi_y : R; vi_radius : R; vi_color : string;
  vi_spikes : Z }.

Record EjectedMass := mkEjected {
  e_id : string; e_x : R; e_y : R; e_radius : R; e_color : string;
  e_vx : R; e_vy : R; e_mass : R; e_ownerId : string; e_createdAt : R }.

Record PlayerCell := mkCell {
  c_id : string; c_x : R; c_y : R; c_radius : R; c_color : string;
  c_mass : R; c_vx : R; c_vy : R; c_mergeTimer : R; c_createdAt : R }.

Record Bot := mkBot {
  b_id : string; b_name : string; b_color : string;
  b_cells : list PlayerCell; b_target : Vector; b_deadAt : option R }.

Record GameState := mkState {
  playerCells : list PlayerCell;
  bots : list Bot;
  foods : list Food;
  viruses : list Virus;
  ejectedMass : list EjectedMass;
  camera : Vector;
  scale : R;
  score : Z;
  gameOver : bool;
  gameStarted : bool;
  gameEndTime : R }.

(** The refs of the component next to [stateRef]: the death timestamp of the
    player, the keys held down, the last movement direction, and the two
    one-shot intents of [actionRef]. *)
Record InputState := mkInput {
  up : bool; down : bool; left : bool; right : bool }.

Record Actions := mkActions { split : bool; eject : bool }.

Record Canvas := mkCanvas {
  state : GameState;
  playerDeadAt : option R;
  inputState : InputState;
  lastMoveDir : Vector;
  action : Actions }.

(** ** Field updates *)

Definition setMass (c : PlayerCell) (m r : R) : PlayerCell :=
  mkCell (c_id c) (c_x c) (c_y c) r (c_color c) m
         (c_vx c) (c_vy c) (c_mergeTimer c) (c_createdAt c).

Definition setPos (c : PlayerCell) (x y : R) : PlayerCell :=
  mkCell (c_id c) x y (c_radius c) (c_color c) (c_mass c)
         (c_vx c) (c_vy c) (c_mergeTimer c) (c_createdAt c).

Definition setVel (c : PlayerCell) (vx vy : R) : PlayerCell :=
  mkCell (c_id c) (c_x c) (c_y c) (c_radius c) (c_color c) (c_mass c)
         vx vy (c_mergeTimer c) (c_createdAt c).

Definition setCells (b : Bot) (cs : list PlayerCell) : Bot :=
  mkBot (b_id b) (b_name b) (b_color b) cs (b_target b) (b_deadAt b).

Definition setTarget (b : Bot) (t : Vector) : Bot :=
  mkBot (b_id b) (b_name b) (b_color b) (b_cells b) t (b_deadAt b).

Definition setDeadAt (b : Bot) (d : R) : Bot :=
  mkBot (b_id b) (b_name b) (b_color b) (b_cells b) (b_target b) (Some d).

Definition setPlayerCells (s : GameState) (cs : list PlayerCell) : GameState :=
  mkState cs (bots s) (foods s) (viruses s) (ejectedMass s) (camera s)
          (scale s) (score s) (gameOver s) (gameStarted s) (gameEndTime s).

Definition setBots (s : GameState) (bs : list Bot) : GameState :=
  mkState (playerCells s) bs (foods s) (viruses s) (ejectedMass s) (camera s)
          (scale s) (score s) (gameOver s) (gameStarted s) (gameEndTime s).

Definition setFoods (s : GameState) (fs : list Food) : GameState :=
  mkState (playerCells s) (bots s) fs (viruses s) (ejectedMass s) (camera s)
          (scale s) (score s) (gameOver s) (gameStarted s) (gameEndTime s).

Definition setViruses (s : GameState) (vs : list Virus) : GameState :=
  mkState (playerCells s) (bots s) (foods s) vs (ejectedMass s) (camera s)
          (scale s) (score s) (gameOver s) (gameStarted s) (gameEndTime s).

Definition setEjected (s : GameState) (es : list EjectedMass) : GameState :=
  mkState (playerCells s) (bots s) (foods s) (viruses s) es (camera s)
          (scale s) (score s) (gameOver s) (gameStarted s) (gameEndTime s).

Definition setCamera (s : GameState) (cam : Vector) (sc : R) : GameState :=
  mkState (playerCells s) (bots s) (foods s) (viruses s) (ejectedMass s) cam
          sc (score s) (gameOver s) (gameStarted s) (gameEndTime s).

Definition setScore (s : GameState) (n : Z) : GameState :=
  mkState (playerCells s) (bots s) (foods s) (viruses s) (ejectedMass s)
          (camera s) (scale s) n (gameOver s) (gameStarted s) (gameEndTime s).

Definition setGameOver (s : GameState) (b : bool) : GameState :=
  mkState (playerCells s) (bots s) (foods s) (viruses s) (ejectedMass s)
          (camera s) (scale s) (score s) b (gameStarted s) (gameEndTime s).

Definition setState (cv : Canvas) (s : GameState) : Canvas :=
  mkCanvas s (playerDeadAt cv) (inputState cv) (lastMoveDir cv) (action cv).

(* ================================================================== *)
(** * Arrays *)

Section Arrays.
Context {A : Type}.

(** [a.splice(j, 1)] *)
Fixpoint splice1 (j : nat) (a : list A) {struct a} : list A :=
  match a, j with
  | [], _ => []
  | _ :: t, O => t
  | h :: t, S j' => h :: splice1 j' t
  end.

(** [a[i] = v] for [i] below the length (the only use in the source). *)
Fixpoint setAt (i : nat) (v : A) (a : list A) {struct a} : list A :=
  match a, i with
  | [], _ => []
  | _ :: t, O => v :: t
  | h :: t, S i' => h :: setAt i' v t
  end.

(** [a[i] = a[a.length - 1]; a.pop()] *)
Definition swapPop (i : nat) (a : list A) : list A :=
  match nth_error a (length a - 1) with
  | Some lastElt => removelast (setAt i lastElt a)
  | None => a
  end.

(** [a.splice(0, n)] *)
Definition spliceFront (n : nat) (a : list A) : list A := skipn n a.
End Arrays.

(* ================================================================== *)
(** * The environment of a tick *)

(** Calls made to the collaborators: [audio.*] and [onGameOver(score)]. *)
Inductive Event :=
| StopMusic
| GameOverCallback (finalScore : Z)
| PlaySplit
| PlayEject
| PlayEat
| PlayExplode.

(** What [Date.now()] and [Math.random()] answer to their n-th call. *)
Record Oracle := mkOracle { clockAt : nat -> R; randomAt : nat -> R }.

(** How many answers were read so far, and the calls made, oldest first. *)
Record Tape := mkTape {
  clockPos : nat; randomPos : nat; events : list Event }.

Definition M (A : Type) : Type := Oracle -> Tape -> A * Tape.

Definition ret {A} (a : A) : M A := fun _ t => (a, t).

Definition bind {A B} (m : M A) (k : A -> M B) : M B :=
  fun o t => let (a, t') := m o t in k a o t'.

Declare Scope monad_scope.
Delimit Scope monad_scope with monad.
Notation "x <- m ;; k" := (bind m (fun x => k))
  (at level 61, m at next level, right associativity) : monad_scope.
Notation "' p <- m ;; k" := (bind m (fun x => match x with p => k end))
  (at level 61, p pattern, m at next level, right associativity) : monad_scope.
Notation "m ;; k" := (bind m (fun _ => k))
  (at level 61, right associativity) : monad_scope.
Local Open Scope monad_scope.

Definition Date_now : M R :=
  fun o t => (clockAt o (clockPos t),
              mkTape (S (clockPos t)) (randomPos t) (events t)).

Definition Math_random : M R :=
  fun o t => (randomAt o (randomPos t),
              mkTape (clockPos t) (S (randomPos t)) (events t)).

Definition emit (e : Event) : M unit :=
  fun _ t => (tt, mkTape (clockPos t) (randomPos t) (events t ++ [e])).

Definition when (b : bool) (m : M unit) : M unit := if b then m else ret tt.

(** [a.forEach] / [a.map] with an effectful body. *)
Fixpoint mapM {A B} (f : A -> M B) (l : list A) : M (list B) :=
  match l with
  | [] => ret []
  | a :: l' => b <- f a ;; bs <- mapM f l' ;; ret (b :: bs)
  end.

(** [for (let i = 0; i < n; i++) out.push(m())] *)
Fixpoint replicateM {A} (n : nat) (m : M A) : M (list A) :=
  match n with
  | O => ret []
  | S n' => a <- m ;; l <- replicateM n' m ;; ret (a :: l)
  end.

(* ================================================================== *)
(** * utils.ts *)

(** [palette[Math.floor(r * palette.length)]] *)
Definition pick (palette : list string) (r : R) : string :=
  nth (Z.to_nat (Math_floor (r * INR (length palette)))) palette EmptyString.

Definition getRandomColor (palette : list string) : M string :=
  r <- Math_random ;; ret (pick palette r).

Definition getRandomName (names : list string) : M string :=
  r <- Math_random ;; ret (pick names r).

Definition getRandomPos (w h : R) : M Vector :=
  rx <- Math_random ;; ry <- Math_random ;; ret (mkVector (rx * w) (ry * h)).

Definition massToRadius (mass : R) : R := Math_sqrt (mass * 100 / Math_PI).

Definition radiusToMass (r : R) : R := (r * r * Math_PI) / 100.

Definition getDistance (p1 p2 : Vector) : R :=
  let dx := v_x p1 - v_x p2 in
  let dy := v_y p1 - v_y p2 in
  Math_sqrt (dx * dx + dy * dy).

(** Entities are passed where a [Vector] is expected. *)
Definition cellPos (c : PlayerCell) : Vector := mkVector (c_x c) (c_y c).
Definition foodPos (f : Food) : Vector := mkVector (f_x f) (f_y f).
Definition virusPos (v : Virus) : Vector := mkVector (vi_x v) (vi_y v).
Definition blobPos (e : EjectedMass) : Vector := mkVector (e_x e) (e_y e).

Definition hexDigit (v : Z) : ascii :=
  nth (Z.to_nat v) (list_ascii_of_string "0123456789abcdef") "0"%char.

(** The replacer of [generateUUID]: every [x] and [y] of the template draws
    [r = Math.random() * 16 | 0]. *)
Fixpoint replaceXY (template : list ascii) : M (list ascii) :=
  match template with
  | [] => ret []
  | c :: rest =>
    if (Ascii.eqb c "x" || Ascii.eqb c "y")%bool then
      rnd <- Math_random ;;
      let r := Math_floor (rnd * 16) in
      let v := if Ascii.eqb c "x" then r else Z.lor (Z.land r 3) 8 in
      out <- replaceXY rest ;;
      ret (hexDigit v :: out)
    else
      out <- replaceXY rest ;; ret (c :: out)
  end.

Definition generateUUID : M string :=
  cs <- replaceXY (list_ascii_of_string "xxxxxxxx-xxxx-4xxx-yxxx-xxxxxxxxxxxx") ;;
  ret (string_of_list_ascii cs).

(* ================================================================== *)
(** * Spawning and world initialisation *)

Definition spawnBot : M Bot :=
  startPos <- getRandomPos MAP_WIDTH MAP_HEIGHT ;;
  rnd <- Math_random ;;
  let mass := INITIAL_MASS + rnd * 50 in
  botId <- generateUUID ;;
  name <- getRandomName BOT_NAMES ;;
  color <- getRandomColor COLORS ;;
  target <- getRandomPos MAP_WIDTH MAP_HEIGHT ;;
  cellId <- generateUUID ;;
  cellColor <- getRandomColor COLORS ;;
  created <- Date_now ;;
  ret (mkBot botId name color
         [ mkCell cellId (v_x startPos) (v_y startPos) (massToRadius mass)
                  cellColor mass 0 0 0 created ]
         target None).

Definition spawnPlayer (cv : Canvas) : M Canvas :=
  startPos <- getRandomPos MAP_WIDTH MAP_HEIGHT ;;
  cellId <- generateUUID ;;
  color <- getRandomColor COLORS ;;
  created <- Date_now ;;
  let initialCell :=
    mkCell cellId (v_x startPos) (v_y startPos) (massToRadius INITIAL_MASS)
           color INITIAL_MASS 0 0 0 created in
  let s := setCamera (setPlayerCells (state cv) [initialCell])
                     (mkVector (v_x startPos) (v_y startPos)) 1 in
  ret (mkCanvas s None (inputState cv) (lastMoveDir cv) (action cv)).

Definition newFood : M Food :=
  foodId <- generateUUID ;;
  pos <- getRandomPos MAP_WIDTH MAP_HEIGHT ;;
  rnd <- Math_random ;;
  color <- getRandomColor FOOD_COLORS ;;
  ret (mkFood foodId (v_x pos) (v_y pos) (5 + rnd * 3) color).

Definition newVirus : M Virus :=
  virusId <- generateUUID ;;
  pos <- getRandomPos MAP_WIDTH MAP_HEIGHT ;;
  ret (mkVirus virusId (v_x pos) (v_y pos) (massToRadius VIRUS_MASS)
               "#33ff33" 12).

Definition FOOD_TARGET : nat := 800.
Definition VIRUS_TARGET : nat := 40.

Definition initWorld (cv : Canvas) : M Canvas :=
  fs <- replicateM FOOD_TARGET newFood ;;
  vs <- replicateM VIRUS_TARGET newVirus ;;
  bs <- replicateM BOT_COUNT spawnBot ;;
  started <- Date_now ;;
  let s := mkState [] bs fs vs []
                   (mkVector (MAP_WIDTH / 2) (MAP_HEIGHT / 2)) 1 0%Z
                   false true (started + GAME_DURATION_MS) in
  cv' <- spawnPlayer (setState cv s) ;;
  ret (mkCanvas (state cv') (playerDeadAt cv')
                (mkInput false false false false) (mkVector 1 0) (action cv')).

(* ================================================================== *)
(** * update: respawn *)

Definition playerRespawn (now : R) (cv : Canvas) : M Canvas :=
  match playerCells (state cv) with
  | [] =>
    match playerDeadAt cv with
    | None =>
      ret (mkCanvas (state cv) (Some now) (inputState cv) (lastMoveDir cv)
                    (action cv))
    | Some deadAt =>
      let deadTime := now - deadAt in
      let remaining := Math_ceil ((RESPAWN_DELAY_MS - deadTime) / 1000) in
      if (0 <? remaining)%Z then ret cv else spawnPlayer cv
    end
  | _ :: _ => ret cv
  end.

(** [!bot.deadAt]: the field is absent, or holds 0. *)
Definition notDeadAt (d : option R) : bool :=
  match d with
  | None => true
  | Some t => t =? 0
  end.

Definition botRespawn (now : R) (bot : Bot) : M Bot :=
  match b_cells bot with
  | [] =>
    if notDeadAt (b_deadAt bot) then ret (setDeadAt bot now)
    else
      match b_deadAt bot with
      | Some deadAt =>
        if RESPAWN_DELAY_MS <? now - deadAt then spawnBot else ret bot
      | None => ret bot
      end
  | _ :: _ => ret bot
  end.

(* ================================================================== *)
(** * update: player actions *)

(** The direction read from the keys, before normalisation. *)
Definition keysX (i : InputState) : R :=
  let moveX := 0 in
  let moveX := if left i then moveX - 1 else moveX in
  if right i then moveX + 1 else moveX.

Definition keysY (i : InputState) : R :=
  let moveY := 0 in
  let moveY := if up i then moveY - 1 else moveY in
  if down i then moveY + 1 else moveY.

(** The two cells a split makes of [cell]: the shrunk original, and the
    sibling built from it by the object literal. *)
Definition halved (cell : PlayerCell) : PlayerCell :=
  let splitMass := c_mass cell / 2 in
  setMass cell splitMass (massToRadius splitMass).

Definition sibling (dirX dirY : R) (cell : PlayerCell) (newId : string)
           (t1 t2 : R) : PlayerCell :=
  let splitMass := c_mass cell in
  mkCell newId
         (c_x cell + dirX * c_radius cell)
         (c_y cell + dirY * c_radius cell)
         (massToRadius splitMass)
         (c_color cell)
         splitMass
         (c_vx cell + dirX * SPLIT_IMPULSE)
         (c_vy cell + dirY * SPLIT_IMPULSE)
         (t1 + MERGE_COOLDOWN_MS + splitMass * 20)
         t2.

(** The body of [state.playerCells.forEach] of the split intent; the result
    is the array with its cells updated in place, and [newCells]. *)
Fixpoint splitLoop (dirX dirY : R) (cells : list PlayerCell)
         (currentCellCount : nat) : M (list PlayerCell * list PlayerCell) :=
  match cells with
  | [] => ret ([], [])
  | cell :: rest =>
    if (MIN_MASS_TO_SPLIT <=? c_mass cell)
       && (currentCellCount <? MAX_CELLS)%nat then
      let cell' := halved cell in
      newId <- generateUUID ;;
      t1 <- Date_now ;;
      t2 <- Date_now ;;
      let newCell := sibling dirX dirY cell' newId t1 t2 in
      '(rest', newCells) <- splitLoop dirX dirY rest (S currentCellCount) ;;
      ret (cell' :: rest', newCell :: newCells)
    else
      '(rest', newCells) <- splitLoop dirX dirY rest currentCellCount ;;
      ret (cell :: rest', newCells)
  end.

Definition isEmpty {A} (l : list A) : bool :=
  match l with [] => true | _ => false end.

Definition processSplit (dirX dirY : R) (cells : list PlayerCell)
  : M (list PlayerCell) :=
  '(cells', newCells) <- splitLoop dirX dirY cells (length cells) ;;
  when (negb (isEmpty newCells)) (emit PlaySplit) ;;
  ret (cells' ++ newCells).

Definition ejectedFrom (dirX dirY : R) (cell : PlayerCell) (newId : string)
           (t : R) : EjectedMass :=
  mkEjected newId
            (c_x cell + dirX * c_radius cell)
            (c_y cell + dirY * c_radius cell)
            (massToRadius EJECT_MASS_GAIN)
            (c_color cell)
            (c_vx cell + dirX * EJECT_IMPULSE)
            (c_vy cell + dirY * EJECT_IMPULSE)
            EJECT_MASS_GAIN
            (c_id cell)
            t.

Fixpoint ejectLoop (dirX dirY : R) (cells : list PlayerCell)
  : M (list PlayerCell * list EjectedMass) :=
  match cells with
  | [] => ret ([], [])
  | cell :: rest =>
    if MIN_MASS_TO_EJECT <=? c_mass cell then
      let m := c_mass cell - EJECT_MASS_LOSS in
      let cell' := setMass cell m (massToRadius m) in
      newId <- generateUUID ;;
      t <- Date_now ;;
      let ejecta := ejectedFrom dirX dirY cell' newId t in
      '(rest', blobs) <- ejectLoop dirX dirY rest ;;
      ret (cell' :: rest', ejecta :: blobs)
    else
      '(rest', blobs) <- ejectLoop dirX dirY rest ;;
      ret (cell :: rest', blobs)
  end.

Definition processEject (dirX dirY : R) (cells : list PlayerCell)
           (ejected : list EjectedMass)
  : M (list PlayerCell * list EjectedMass) :=
  '(cells', blobs) <- ejectLoop dirX dirY cells ;;
  when (negb (isEmpty blobs)) (emit PlayEject) ;;
  ret (cells', ejected ++ blobs).

(* ================================================================== *)
(** * update: physics and movement *)

(** [let acc = 0; a.forEach(c => acc += f(c))] *)
Definition sumOf {A} (f : A -> R) (a : list A) : R :=
  fold_left (fun acc c => acc + f c) a 0.

Definition decay (cell : PlayerCell) : PlayerCell :=
  if MASS_DECAY_THRESHOLD <? c_mass cell then
    let m := c_mass cell * MASS_DECAY_RATE in
    setMass cell m (massToRadius m)
  else cell.

Definition baseSpeed (cell : PlayerCell) : R :=
  BASE_SPEED * Math_pow (c_mass cell) (- (439 / 1000)) * 4.

Definition applyFriction (cell : PlayerCell) : PlayerCell :=
  setVel cell (c_vx cell * FRICTION) (c_vy cell * FRICTION).

Definition applyVelocity (cell : PlayerCell) : PlayerCell :=
  setPos cell (c_x cell + c_vx cell) (c_y cell + c_vy cell).

(** The two lines under "Map Boundaries". *)
Definition clampToMap (cell : PlayerCell) : PlayerCell :=
  setPos cell
    (Math_max (c_radius cell) (Math_min (MAP_WIDTH - c_radius cell) (c_x cell)))
    (Math_max (c_radius cell) (Math_min (MAP_HEIGHT - c_radius cell) (c_y cell))).

Definition swarmGravity (comX comY : R) (cell : PlayerCell) : PlayerCell :=
  let distToCenter := getDistance (cellPos cell) (mkVector comX comY) in
  if c_radius cell <? distToCenter then
    let gravityForce := SWARM_GRAVITY * (c_mass cell / 100) in
    let angle := Math_atan2 (comY - c_y cell) (comX - c_x cell) in
    setVel cell (c_vx cell + Math_cos angle * gravityForce)
                (c_vy cell + Math_sin angle * gravityForce)
  else cell.

Definition movePlayerCell (moveX moveY len comX comY : R) (several : bool)
           (cell : PlayerCell) : PlayerCell :=
  let cell := decay cell in
  let speed := baseSpeed cell in
  let cell :=
    if 0 <? len then
      setVel cell (c_vx cell + moveX * speed * (1 / 10))
                  (c_vy cell + moveY * speed * (1 / 10))
    else cell in
  let cell := if several then swarmGravity comX comY cell else cell in
  clampToMap (applyVelocity (applyFriction cell)).

Definition playerPhysics (moveX moveY len : R) (cells : list PlayerCell)
  : list PlayerCell :=
  let comX := sumOf (fun c => c_x c * c_mass c) cells in
  let comY := sumOf (fun c => c_y c * c_mass c) cells in
  let tm := sumOf c_mass cells in
  let comX := if 0 <? tm then comX / tm else comX in
  let comY := if 0 <? tm then comY / tm else comY in
  map (movePlayerCell moveX moveY len comX comY (1 <? length cells)%nat) cells.

(** The block under "PLAYER LOGIC". *)
Definition playerLogic (cv : Canvas) : M Canvas :=
  let s := state cv in
  match playerCells s with
  | [] => ret cv
  | _ :: _ =>
    let moveX := keysX (inputState cv) in
    let moveY := keysY (inputState cv) in
    let len := Math_sqrt (moveX * moveX + moveY * moveY) in
    let moveX := if 0 <? len then moveX / len else moveX in
    let moveY := if 0 <? len then moveY / len else moveY in
    let dir := if 0 <? len then mkVector moveX moveY else lastMoveDir cv in
    let dirX := v_x dir in
    let dirY := v_y dir in
    cells <- (if split (action cv)
              then processSplit dirX dirY (playerCells s)
              else ret (playerCells s)) ;;
    '(cells, ejected) <- (if eject (action cv)
                          then processEject dirX dirY cells (ejectedMass s)
                          else ret (cells, ejectedMass s)) ;;
    let cells := playerPhysics moveX moveY len cells in
    ret (mkCanvas (setEjected (setPlayerCells s cells) ejected)
                  (playerDeadAt cv) (inputState cv) dir
                  (mkActions false false))
  end.

(* ================================================================== *)
(** * update: self-collision (push apart or merge) *)

Definition overlapping (c1 c2 : PlayerCell) : bool :=
  getDistance (cellPos c1) (cellPos c2) <? c_radius c1 + c_radius c2.

Definition canMerge (now : R) (c1 c2 : PlayerCell) : bool :=
  (c_mergeTimer c1 <? now) && (c_mergeTimer c2 <? now).

(** "Merge c2 into c1" *)
Definition mergeInto (c1 c2 : PlayerCell) : PlayerCell :=
  let m := c_mass c1 + c_mass c2 in
  setMass c1 m (massToRadius m).

(** "Push apart" *)
Definition pushApart (c1 c2 : PlayerCell) : PlayerCell * PlayerCell :=
  let dist := getDistance (cellPos c1) (cellPos c2) in
  let minDist := c_radius c1 + c_radius c2 in
  let angle := Math_atan2 (c_y c2 - c_y c1) (c_x c2 - c_x c1) in
  let overlap := minDist - dist in
  let force := overlap / 2 in
  (setPos c1 (c_x c1 - Math_cos angle * force) (c_y c1 - Math_sin angle * force),
   setPos c2 (c_x c2 + Math_cos angle * force) (c_y c2 + Math_sin angle * force)).

(** The body of the two nested loops, for the pair [c1 = cells[i]],
    [c2 = cells[j]]: the updated [c1], and the updated [c2] unless it was
    merged into [c1].  [sound] tells the player's loop (which calls
    [audio.playEat] on a merge) from the bots' one. *)
Definition collidePair (sound : bool) (c1 c2 : PlayerCell)
  : M (PlayerCell * option PlayerCell) :=
  if overlapping c1 c2 then
    now <- Date_now ;;
    if canMerge now c1 c2 then
      when sound (emit PlayEat) ;;
      ret (mergeInto c1 c2, None)
    else
      let '(c1', c2') := pushApart c1 c2 in
      ret (c1', Some c2')
  else ret (c1, Some c2).

(** The inner loop [for (j = i + 1; ...)]: [c1] is [cells[i]] and [rest] is
    what follows it.  A merge removes [c2] ([splice(j, 1); j--]) and the
    loop goes on with the grown [c1]. *)
Fixpoint collideInner (sound : bool) (c1 : PlayerCell) (rest : list PlayerCell)
  : M (PlayerCell * list PlayerCell) :=
  match rest with
  | [] => ret (c1, [])
  | c2 :: rest' =>
    '(c1', kept) <- collidePair sound c1 c2 ;;
    '(c1'', rest'') <- collideInner sound c1' rest' ;;
    ret (c1'', match kept with
               | Some c2' => c2' :: rest''
               | None => rest''
               end)
  end.

(** The outer loop [for (i = 0; ...)].  [fuel] bounds the number of cells
    still to visit; [selfCollision] gives it the length of the array, which
    is enough since the inner loop never lengthens it. *)
Fixpoint collideOuter (sound : bool) (fuel : nat) (cells : list PlayerCell)
  : M (list PlayerCell) :=
  match fuel, cells with
  | S fuel', c1 :: rest =>
    '(c1', rest') <- collideInner sound c1 rest ;;
    rest'' <- collideOuter sound fuel' rest' ;;
    ret (c1' :: rest'')
  | _, _ => ret cells
  end.

Definition selfCollision (sound : bool) (cells : list PlayerCell)
  : M (list PlayerCell) :=
  collideOuter sound (length cells) cells.

(* ================================================================== *)
(** * update: bots *)

(** "Sample some food to save CPU": one round of the loop of 50. *)
Definition sampleStep (center : Vector) (fs : list Food)
           (best : option Food * R) : M (option Food * R) :=
  rnd <- Math_random ;;
  match nth_error fs (Z.to_nat (Math_floor (rnd * INR (length fs)))) with
  | None => ret best
  | Some f =>
    let d := getDistance center (foodPos f) in
    if d <? snd best then ret (Some f, d) else ret best
  end.

Fixpoint sampleFood (n : nat) (center : Vector) (fs : list Food)
         (best : option Food * R) : M (option Food * R) :=
  match n with
  | O => ret best
  | S n' => best' <- sampleStep center fs best ;; sampleFood n' center fs best'
  end.

Definition retarget (center : Vector) (fs : list Food) (bot : Bot) : M Bot :=
  rnd <- Math_random ;;
  if (rnd <? 2 / 100) || (getDistance center (b_target bot) <? 100) then
    '(closestFood, _) <- sampleFood 50 center fs (None, 9999) ;;
    match closestFood with
    | Some f => ret (setTarget bot (mkVector (f_x f) (f_y f)))
    | None =>
      p <- getRandomPos MAP_WIDTH MAP_HEIGHT ;; ret (setTarget bot p)
    end
  else ret bot.

(** "Avoid Players" *)
Definition findThreat (center : Vector) (bm : R) (count : nat)
           (players : list PlayerCell) : option PlayerCell :=
  fst (fold_left
         (fun (acc : option PlayerCell * R) p =>
            let d := getDistance center (cellPos p) in
            if (d <? snd acc) && (bm / INR count * (12 / 10) <? c_mass p)
            then (Some p, d) else acc)
         players (None, 500)).

Definition moveBotCell (tx ty : R) (cell : PlayerCell) : PlayerCell :=
  let cell := decay cell in
  let speed := baseSpeed cell * BOT_SPEED_FACTOR in
  let angle := Math_atan2 (ty - c_y cell) (tx - c_x cell) in
  let cell := setVel cell (c_vx cell + Math_cos angle * speed * (1 / 10))
                          (c_vy cell + Math_sin angle * speed * (1 / 10)) in
  clampToMap (applyVelocity (applyFriction cell)).

Definition botLogic (fs : list Food) (players : list PlayerCell) (bot : Bot)
  : M Bot :=
  match b_cells bot with
  | [] => ret bot
  | _ :: _ =>
    let n := length (b_cells bot) in
    let bx := sumOf c_x (b_cells bot) / INR n in
    let by_ := sumOf c_y (b_cells bot) / INR n in
    let bm := sumOf c_mass (b_cells bot) in
    let center := mkVector bx by_ in
    bot <- retarget center fs bot ;;
    let threat := findThreat center bm n players in
    let '(tx, ty) :=
      match threat with
      | Some p =>
        let angle := Math_atan2 (by_ - c_y p) (bx - c_x p) in
        (bx + Math_cos angle * 1000, by_ + Math_sin angle * 1000)
      | None => (v_x (b_target bot), v_y (b_target bot))
      end in
    let cells := map (moveBotCell tx ty) (b_cells bot) in
    cells <- selfCollision false cells ;;
    ret (setCells bot cells)
  end.

(* ================================================================== *)
(** * update: food *)

(** An entry of [allEaters].  [eater_cell] stands for the reference to the cell
    object: [restoreEaters] below puts the cells back where they came from,
    which is what mutating through the shared reference does. *)
Record Eater := mkEater {
  eater_cell : PlayerCell; eater_isBot : bool; eater_botIndex : option nat }.

Fixpoint botEaters (idx : nat) (bs : list Bot) : list Eater :=
  match bs with
  | [] => []
  | b :: bs' =>
    map (fun c => mkEater c true (Some idx)) (b_cells b)
    ++ botEaters (S idx) bs'
  end.

Definition allEaters (players : list PlayerCell) (bs : list Bot)
  : list Eater :=
  map (fun c => mkEater c false None) players ++ botEaters 0 bs.

Fixpoint restoreBots (bs : list Bot) (cells : list PlayerCell) : list Bot :=
  match bs with
  | [] => []
  | b :: bs' =>
    let n := length (b_cells b) in
    setCells b (firstn n cells) :: restoreBots bs' (skipn n cells)
  end.

Definition eats (eater : Eater) (food : Food) : bool :=
  let dx := c_x (eater_cell eater) - f_x food in
  let dy := c_y (eater_cell eater) - f_y food in
  let r := c_radius (eater_cell eater) in
  if (r <? Math_abs dx) || (r <? Math_abs dy) then false
  else dx * dx + dy * dy <? r * r.

Definition fed (eater : Eater) : Eater :=
  let m := c_mass (eater_cell eater) + 1 in
  mkEater (setMass (eater_cell eater) m (massToRadius m))
          (eater_isBot eater) (eater_botIndex eater).

(** [for (const eater of allEaters)]: the first eater that matches grows and
    the loop breaks; the result tells whether that eater is a bot. *)
Fixpoint feed (food : Food) (eaters : list Eater)
  : option (list Eater * bool) :=
  match eaters with
  | [] => None
  | eater :: rest =>
    if eats eater food then Some (fed eater :: rest, eater_isBot eater)
    else match feed food rest with
         | Some (rest', byBot) => Some (eater :: rest', byBot)
         | None => None
         end
  end.

(** [for (let i = state.foods.length - 1; i >= 0; i--)], entered with
    [i = state.foods.length].  An index past the end cannot occur. *)
Fixpoint foodLoop (i : nat) (fs : list Food) (eaters : list Eater)
         (sc : Z) (eatenCount : nat) : list Food * list Eater * Z * nat :=
  match i with
  | O => (fs, eaters, sc, eatenCount)
  | S i' =>
    match nth_error fs i' with
    | None => foodLoop i' fs eaters sc eatenCount
    | Some food =>
      match feed food eaters with
      | Some (eaters', byBot) =>
        if byBot then foodLoop i' (swapPop i' fs) eaters' sc eatenCount
        else foodLoop i' (swapPop i' fs) eaters' (sc + 1)%Z (S eatenCount)
      | None => foodLoop i' fs eaters sc eatenCount
      end
    end
  end.

Definition foodStage (s : GameState) : M GameState :=
  let eaters := allEaters (playerCells s) (bots s) in
  let '(fs, eaters', sc, eatenCount) :=
    foodLoop (length (foods s)) (foods s) eaters (score s) 0 in
  when (0 <? eatenCount)%nat (emit PlayEat) ;;
  fresh <- replicateM (FOOD_TARGET - length fs) newFood ;;
  let cells := map eater_cell eaters' in
  let n := length (playerCells s) in
  ret (setScore
         (setFoods
            (setBots (setPlayerCells s (firstn n cells))
                     (restoreBots (bots s) (skipn n cells)))
            (fs ++ fresh))
         sc).

(* ================================================================== *)
(** * update: player against bots *)

Definition absorb (eater victim : PlayerCell) : PlayerCell :=
  let m := c_mass eater + c_mass victim in
  setMass eater m (massToRadius m).

Definition playerEatsBot (pCell bCell : PlayerCell) : bool :=
  (getDistance (cellPos pCell) (cellPos bCell) <? c_radius pCell)
  && (c_mass bCell * (125 / 100) <? c_mass pCell).

Definition botEatsPlayer (pCell bCell : PlayerCell) : bool :=
  (getDistance (cellPos pCell) (cellPos bCell) <? c_radius bCell)
  && (c_mass pCell * (125 / 100) <? c_mass bCell).

(** [for (let k = state.playerCells.length - 1; k >= 0; k--)], entered with
    [k = state.playerCells.length].  The first component of the result is
    the bot cell, or [None] once a player cell ate it ([break]). *)
Fixpoint vsPlayers (k : nat) (bCell : PlayerCell) (players : list PlayerCell)
         (sc : Z) : M (option PlayerCell * list PlayerCell * Z) :=
  match k with
  | O => ret (Some bCell, players, sc)
  | S k' =>
    match nth_error players k' with
    | None => vsPlayers k' bCell players sc
    | Some pCell =>
      if playerEatsBot pCell bCell then
        emit PlayEat ;;
        ret (None, setAt k' (absorb pCell bCell) players,
             (sc + Math_floor (c_mass bCell))%Z)
      else if botEatsPlayer pCell bCell then
        vsPlayers k' (absorb bCell pCell) (splice1 k' players) sc
      else vsPlayers k' bCell players sc
    end
  end.

(** [for (let j = bot.cells.length - 1; j >= 0; j--)] *)
Fixpoint botCellsLoop (j : nat) (cells players : list PlayerCell) (sc : Z)
  : M (list PlayerCell * list PlayerCell * Z) :=
  match j with
  | O => ret (cells, players, sc)
  | S j' =>
    match nth_error cells j' with
    | None => botCellsLoop j' cells players sc
    | Some bCell =>
      '(survivor, players', sc') <-
        vsPlayers (length players) bCell players sc ;;
      match survivor with
      | None => botCellsLoop j' (splice1 j' cells) players' sc'
      | Some bCell' => botCellsLoop j' (setAt j' bCell' cells) players' sc'
      end
    end
  end.

(** [for (let i = state.bots.length - 1; i >= 0; i--)] *)
Fixpoint botsLoop (i : nat) (bs : list Bot) (players : list PlayerCell)
         (sc : Z) : M (list Bot * list PlayerCell * Z) :=
  match i with
  | O => ret (bs, players, sc)
  | S i' =>
    match nth_error bs i' with
    | None => botsLoop i' bs players sc
    | Some bot =>
      '(cells, players', sc') <-
        botCellsLoop (length (b_cells bot)) (b_cells bot) players sc ;;
      botsLoop i' (setAt i' (setCells bot cells) bs) players' sc'
    end
  end.

Definition crossStage (s : GameState) : M GameState :=
  '(bs, players, sc) <-
    botsLoop (length (bots s)) (bots s) (playerCells s) (score s) ;;
  ret (setScore (setBots (setPlayerCells s players) bs) sc).

(* ================================================================== *)
(** * update: viruses *)

Definition hitsVirus (cell : PlayerCell) (virus : Virus) : bool :=
  (getDistance (cellPos cell) (virusPos virus) <? c_radius cell)
  && (VIRUS_MASS * (11 / 10) <? c_mass cell).

(** One fragment pushed by the explosion of [cell] (already shrunk). *)
Definition fragment (cell : PlayerCell) (massPerPiece : R) : M PlayerCell :=
  rnd <- Math_random ;;
  let angle := rnd * Math_PI * 2 in
  newId <- generateUUID ;;
  t1 <- Date_now ;;
  t2 <- Date_now ;;
  ret (mkCell newId
              (c_x cell + Math_cos angle * c_radius cell)
              (c_y cell + Math_sin angle * c_radius cell)
              (massToRadius massPerPiece)
              (c_color cell)
              massPerPiece
              (Math_cos angle * SPLIT_IMPULSE * (15 / 10))
              (Math_sin angle * SPLIT_IMPULSE * (15 / 10))
              (t1 + MERGE_COOLDOWN_MS + 5000)
              t2).

Definition piecesFor (cellCount : nat) : Z :=
  let splitsRemaining := (Z.of_nat MAX_CELLS - Z.of_nat cellCount)%Z in
  Z.min splitsRemaining 6.

(** The explosion of [players[j]]: bonus mass, then the fragments. *)
Definition explode (j : nat) (cell : PlayerCell) (players : list PlayerCell)
  : M (list PlayerCell) :=
  emit PlayExplode ;;
  let m := c_mass cell + VIRUS_BONUS_MASS in
  let cell := setMass cell m (massToRadius m) in
  let pieces := piecesFor (length players) in
  if (0 <? pieces)%Z then
    let massPerPiece := c_mass cell / IZR (pieces + 1) in
    let cell := setMass cell massPerPiece (massToRadius massPerPiece) in
    frags <- replicateM (Z.to_nat pieces) (fragment cell massPerPiece) ;;
    ret (setAt j cell players ++ frags)
  else ret (setAt j cell players).

(** "Check for Players": [None] when no player cell exploded. *)
Fixpoint virusVsPlayers (j : nat) (virus : Virus) (players : list PlayerCell)
  : M (option (list PlayerCell)) :=
  match j with
  | O => ret None
  | S j' =>
    match nth_error players j' with
    | None => virusVsPlayers j' virus players
    | Some cell =>
      if hitsVirus cell virus then
        players' <- explode j' cell players ;; ret (Some players')
      else virusVsPlayers j' virus players
    end
  end.

(** "Bots hitting Virus": every bot cell that matches takes the bonus. *)
Definition botCellHitsVirus (virus : Virus) (cell : PlayerCell) : PlayerCell :=
  if hitsVirus cell virus then
    let m := (c_mass cell + VIRUS_BONUS_MASS) / 2 in
    setMass cell m (massToRadius m)
  else cell.

Definition botsHitVirus (virus : Virus) (bs : list Bot) : list Bot * bool :=
  (map (fun b => setCells b (map (botCellHitsVirus virus) (b_cells b))) bs,
   existsb (fun b => existsb (fun c => hitsVirus c virus) (b_cells b)) bs).

(** [for (let i = state.viruses.length - 1; i >= 0; i--)] *)
Fixpoint virusLoop (i : nat) (vs : list Virus) (players : list PlayerCell)
         (bs : list Bot) : M (list Virus * list PlayerCell * list Bot) :=
  match i with
  | O => ret (vs, players, bs)
  | S i' =>
    match nth_error vs i' with
    | None => virusLoop i' vs players bs
    | Some virus =>
      hit <- virusVsPlayers (length players) virus players ;;
      match hit with
      | Some players' => virusLoop i' (swapPop i' vs) players' bs
      | None =>
        let '(bs', exploded) := botsHitVirus virus bs in
        if exploded then virusLoop i' (swapPop i' vs) players bs'
        else virusLoop i' vs players bs'
      end
    end
  end.

Definition virusStage (s : GameState) : M GameState :=
  '(vs, players, bs) <-
    virusLoop (length (viruses s)) (viruses s) (playerCells s) (bots s) ;;
  ret (setViruses (setBots (setPlayerCells s players) bs) vs).

(* ================================================================== *)
(** * update: ejected mass *)

Definition setBlobX (b : EjectedMass) (x vx : R) : EjectedMass :=
  mkEjected (e_id b) x (e_y b) (e_radius b) (e_color b) vx (e_vy b)
            (e_mass b) (e_ownerId b) (e_createdAt b).

Definition setBlobY (b : EjectedMass) (y vy : R) : EjectedMass :=
  mkEjected (e_id b) (e_x b) y (e_radius b) (e_color b) (e_vx b) vy
            (e_mass b) (e_ownerId b) (e_createdAt b).

(** "BOUNDARY CHECK: Bounce instead of delete": the four tests, in order. *)
Definition bounceLeft (blob : EjectedMass) : EjectedMass :=
  if e_x blob <=? 0 then setBlobX blob 0 (e_vx blob * -1) else blob.

Definition bounceRight (blob : EjectedMass) : EjectedMass :=
  if MAP_WIDTH <=? e_x blob then setBlobX blob MAP_WIDTH (e_vx blob * -1)
  else blob.

Definition bounceTop (blob : EjectedMass) : EjectedMass :=
  if e_y blob <=? 0 then setBlobY blob 0 (e_vy blob * -1) else blob.

Definition bounceBottom (blob : EjectedMass) : EjectedMass :=
  if MAP_HEIGHT <=? e_y blob then setBlobY blob MAP_HEIGHT (e_vy blob * -1)
  else blob.

Definition bounce (blob : EjectedMass) : EjectedMass :=
  bounceBottom (bounceTop (bounceRight (bounceLeft blob))).

Definition advance (blob : EjectedMass) : EjectedMass :=
  let blob := setBlobX blob (e_x blob + e_vx blob) (e_vx blob) in
  let blob := setBlobY blob (e_y blob + e_vy blob) (e_vy blob) in
  let blob := setBlobX blob (e_x blob) (e_vx blob * (9 / 10)) in
  setBlobY blob (e_y blob) (e_vy blob * (9 / 10)).

Definition moveBlob (blob : EjectedMass) : EjectedMass :=
  advance (bounce blob).

Definition touches (cell : PlayerCell) (blob : EjectedMass) : bool :=
  getDistance (cellPos cell) (blobPos blob) <? c_radius cell.

Definition bigEnough (cell : PlayerCell) (blob : EjectedMass) : bool :=
  e_mass blob * (125 / 100) <? c_mass cell.

Definition swallow (cell : PlayerCell) (blob : EjectedMass) : PlayerCell :=
  let m := c_mass cell + e_mass blob in
  setMass cell m (massToRadius m).

(** "Check Player": [None] when no player cell consumed the blob. *)
Fixpoint blobVsPlayers (blob : EjectedMass) (cells : list PlayerCell)
  : M (option (list PlayerCell)) :=
  match cells with
  | [] => ret None
  | cell :: rest =>
    let next :=
      r <- blobVsPlayers blob rest ;;
      ret (option_map (cons cell) r) in
    if touches cell blob then
      own <- (if String.eqb (e_ownerId blob) (c_id cell)
              then t <- Date_now ;; ret (t - e_createdAt blob <? 500)
              else ret false) ;;
      if own then next
      else if bigEnough cell blob then ret (Some (swallow cell blob :: rest))
      else next
    else next
  end.

(** The inner loop of "Check Bots", over the cells of one bot. *)
Fixpoint blobVsCells (blob : EjectedMass) (cells : list PlayerCell)
  : option (list PlayerCell) :=
  match cells with
  | [] => None
  | cell :: rest =>
    if touches cell blob && bigEnough cell blob
    then Some (swallow cell blob :: rest)
    else option_map (cons cell) (blobVsCells blob rest)
  end.

Fixpoint blobVsBots (blob : EjectedMass) (bs : list Bot) : option (list Bot) :=
  match bs with
  | [] => None
  | bot :: bs' =>
    match blobVsCells blob (b_cells bot) with
    | Some cells => Some (setCells bot cells :: bs')
    | None => option_map (cons bot) (blobVsBots blob bs')
    end
  end.

(** [for (let i = state.ejectedMass.length - 1; i >= 0; i--)]; the last
    component is [massConsumed]. *)
Fixpoint ejectedLoop (i : nat) (blobs : list EjectedMass)
         (players : list PlayerCell) (bs : list Bot) (massConsumed : bool)
  : M (list EjectedMass * list PlayerCell * list Bot * bool) :=
  match i with
  | O => ret (blobs, players, bs, massConsumed)
  | S i' =>
    match nth_error blobs i' with
    | None => ejectedLoop i' blobs players bs massConsumed
    | Some blob =>
      let blob := moveBlob blob in
      let blobs := setAt i' blob blobs in
      hit <- blobVsPlayers blob players ;;
      match hit with
      | Some players' => ejectedLoop i' (swapPop i' blobs) players' bs true
      | None =>
        match blobVsBots blob bs with
        | Some bs' => ejectedLoop i' (swapPop i' blobs) players bs' massConsumed
        | None => ejectedLoop i' blobs players bs massConsumed
        end
      end
    end
  end.

Definition EJECTED_CAP : nat := 300.

(** "Cap total ejected mass to prevent infinite growth" *)
Definition capEjected (blobs : list EjectedMass) : list EjectedMass :=
  if (EJECTED_CAP <? length blobs)%nat
  then spliceFront (length blobs - EJECTED_CAP) blobs
  else blobs.

Definition ejectedStage (s : GameState) : M GameState :=
  '(blobs, players, bs, massConsumed) <-
    ejectedLoop (length (ejectedMass s)) (ejectedMass s) (playerCells s)
                (bots s) false ;;
  when massConsumed (emit PlayEat) ;;
  ret (setEjected (setBots (setPlayerCells s players) bs) (capEjected blobs)).

(* ================================================================== *)
(** * update: camera *)

Definition updateCamera (s : GameState) : GameState :=
  match playerCells s with
  | [] => s
  | _ :: _ =>
    let totalX := sumOf c_x (playerCells s) in
    let totalY := sumOf c_y (playerCells s) in
    let totalMass := sumOf c_mass (playerCells s) in
    let n := INR (length (playerCells s)) in
    let centerX := totalX / n in
    let centerY := totalY / n in
    let cam := mkVector
                 (v_x (camera s) + (centerX - v_x (camera s)) * (1 / 10))
                 (v_y (camera s) + (centerY - v_y (camera s)) * (1 / 10)) in
    let idealScale := Math_max (1 / 10) (1 / Math_pow totalMass (2 / 10)) in
    setCamera s cam (scale s + (idealScale - scale s) * (5 / 100))
  end.

(* ================================================================== *)
(** * update *)

(** The part of a tick that runs while the match is on. *)
Definition simulate (now : R) (cv : Canvas) : M Canvas :=
  cv <- playerRespawn now cv ;;
  bs <- mapM (botRespawn now) (bots (state cv)) ;;
  cv <- playerLogic (setState cv (setBots (state cv) bs)) ;;
  let s := state cv in
  bs <- mapM (botLogic (foods s) (playerCells s)) (bots s) ;;
  players <- selfCollision true (playerCells s) ;;
  s <- foodStage (setBots (setPlayerCells s players) bs) ;;
  s <- crossStage s ;;
  s <- virusStage s ;;
  s <- ejectedStage s ;;
  ret (setState cv (updateCamera s)).

Definition update (cv : Canvas) : M Canvas :=
  let s := state cv in
  if negb (gameStarted s) || gameOver s then ret cv
  else
    now <- Date_now ;;
    if gameEndTime s <=? now then
      emit StopMusic ;;
      emit (GameOverCallback (score s)) ;;
      ret (setState cv (setGameOver s true))
    else simulate now cv.


(* ================================================================== *)
(** * Predicates of the specification *)

(** "radius is always derived from mass" *)
Definition synced (c : PlayerCell) : Prop :=
  c_radius c = massToRadius (c_mass c).

(** The cells heavy enough to split. *)
Definition splittable (cells : list PlayerCell) : nat :=
  length (filter (fun c => MIN_MASS_TO_SPLIT <=? c_mass c) cells).

(** What a split does to one cell of the array: nothing, or halve it. *)
Definition keptOrHalved (c c' : PlayerCell) : Prop :=
  c' = c \/ (MIN_MASS_TO_SPLIT <= c_mass c /\ c' = halved c).

(** A new cell carries half the mass of a cell that was heavy enough. *)
Definition halfOfOne (cells : list PlayerCell) (c' : PlayerCell) : Prop :=
  exists c, In c cells /\ MIN_MASS_TO_SPLIT <= c_mass c
            /\ c_mass c' = c_mass c / 2.

(** ** Sample data *)

(** An oracle whose clock and random source are constant. *)
Definition constOracle (clock rnd : R) : Oracle :=
  mkOracle (fun _ => clock) (fun _ => rnd).

Definition startTape : Tape := mkTape 0 0 [].

(** A cell of the given mass at [(x, y)], spawned at time 0. *)
Definition cellAt (name : string) (x y mass : R) : PlayerCell :=
  mkCell name x y (massToRadius mass) "#FF5252" mass 0 0 0 0.

(** The mass left of the second cell of a pair. *)
Definition keptMass (kept : option PlayerCell) : R :=
  match kept with
  | Some c => c_mass c
  | None => 0
  end.



(** ** What a computation guarantees *)

(** [ensures o m Q]: under the oracle [o], whatever was read before, the
    result of [m] satisfies [Q]. *)
Definition ensures {A} (o : Oracle) (m : M A) (Q : A -> Prop) : Prop :=
  forall t, Q (fst (m o t)).

(** ** Invariants of the cells *)

(** A property [P] of cells and a property [Q] of ejected blobs that every
    operation of the tick preserves; [okR] is what the property needs from
    the answers of [Math.random()]. *)
Record Preserved (P : PlayerCell -> Prop) (Q : EjectedMass -> Prop)
       (okR : R -> Prop) : Prop := mkPreserved {
  pr_spawnPlayer : forall i x y col t,
      P (mkCell i x y (massToRadius INITIAL_MASS) col INITIAL_MASS 0 0 0 t);
  pr_spawnBot : forall rnd i x y col t,
      okR rnd ->
      P (mkCell i x y (massToRadius (INITIAL_MASS + rnd * 50)) col
                (INITIAL_MASS + rnd * 50) 0 0 0 t);
  pr_setPos : forall c x y, P c -> P (setPos c x y);
  pr_setVel : forall c vx vy, P c -> P (setVel c vx vy);
  pr_halved : forall c, P c -> MIN_MASS_TO_SPLIT <= c_mass c -> P (halved c);
  pr_clone : forall c i x y vx vy mt t,
      P c ->
      P (mkCell i x y (massToRadius (c_mass c)) (c_color c) (c_mass c)
                vx vy mt t);
  pr_ejectLoss : forall c,
      P c -> MIN_MASS_TO_EJECT <= c_mass c ->
      P (setMass c (c_mass c - EJECT_MASS_LOSS)
                 (massToRadius (c_mass c - EJECT_MASS_LOSS)));
  pr_decay : forall c, P c -> P (decay c);
  pr_merge : forall c1 c2, P c1 -> P c2 -> P (mergeInto c1 c2);
  pr_absorb : forall c1 c2, P c1 -> P c2 -> P (absorb c1 c2);
  pr_fed : forall c,
      P c -> P (setMass c (c_mass c + 1) (massToRadius (c_mass c + 1)));
  pr_bonus : forall c,
      P c ->
      P (setMass c (c_mass c + VIRUS_BONUS_MASS)
                 (massToRadius (c_mass c + VIRUS_BONUS_MASS)));
  pr_shatter : forall c (pieces : Z),
      P c -> (0 < pieces)%Z ->
      P (setMass c (c_mass c / IZR (pieces + 1))
                 (massToRadius (c_mass c / IZR (pieces + 1))));
  pr_botVirus : forall c v, P c -> P (botCellHitsVirus v c);
  pr_swallow : forall c b, P c -> Q b -> P (swallow c b);
  pr_ejecta : forall dirX dirY c i t, Q (ejectedFrom dirX dirY c i t);
  pr_blobX : forall b x vx, Q b -> Q (setBlobX b x vx);
  pr_blobY : forall b y vy, Q b -> Q (setBlobY b y vy) }.

Definition cellsOk (P : PlayerCell -> Prop) (cells : list PlayerCell) : Prop :=
  Forall P cells /\ (length cells <= MAX_CELLS)%nat.

Definition botOk (P : PlayerCell -> Prop) (b : Bot) : Prop :=
  cellsOk P (b_cells b).

Definition eaterOk (P : PlayerCell -> Prop) (e : Eater) : Prop :=
  P (eater_cell e).

Definition stateOk (P : PlayerCell -> Prop) (Q : EjectedMass -> Prop)
           (s : GameState) : Prop :=
  cellsOk P (playerCells s) /\ Forall (botOk P) (bots s)
  /\ Forall Q (ejectedMass s).

(** ** Matches *)

(** The refs as the component mounts them. *)
Definition mountCanvas : Canvas :=
  mkCanvas (mkState [] [] [] [] []
                    (mkVector (MAP_WIDTH / 2) (MAP_HEIGHT / 2)) 1 0%Z
                    false false 0)
           None (mkInput false false false false) (mkVector 1 0)
           (mkActions false false).

(** What the key handlers and the buttons write between two ticks. *)
Definition setInputs (cv : Canvas) (keys : InputState) (intents : Actions)
  : Canvas :=
  mkCanvas (state cv) (playerDeadAt cv) keys (lastMoveDir cv) intents.

(** The canvases a match goes through: [initWorld] starts it, [update] runs
    a tick, and between two ticks the collaborators write the keys held
    down and the two intents. *)
Inductive reachable (o : Oracle) : Canvas -> Prop :=
| reach_init : forall cv t, reachable o (fst (initWorld cv o t))
| reach_update : forall cv t,
    reachable o cv -> reachable o (fst (update cv o t))
| reach_input : forall cv keys intents,
    reachable o cv -> reachable o (setInputs cv keys intents).

(** A run of ticks, each preceded by what the collaborators wrote. *)
Fixpoint run (frames : list (InputState * Actions)) (cv : Canvas) : M Canvas :=
  match frames with
  | [] => ret cv
  | (keys, intents) :: rest =>
    cv' <- update (setInputs cv keys intents) ;; run rest cv'
  end.

(** The calls to [onGameOver] among the calls made so far. *)
Definition isCallback (e : Event) : bool :=
  match e with
  | GameOverCallback _ => true
  | _ => false
  end.

Definition callbacks (t : Tape) : list Event := filter isCallback (events t).

(** [m] makes no call to [onGameOver]. *)
Definition silent {A} (m : M A) : Prop :=
  forall o t, callbacks (snd (m o t)) = callbacks t.

(** ** The invariants *)

(** No constraint. *)
Definition anyCell (c : PlayerCell) : Prop := True.
Definition anyBlob (b : EjectedMass) : Prop := True.
Definition anyNumber (r : R) : Prop := True.

(** "An actor's cell count never exceeds the cap" *)
Definition withinCap (s : GameState) : Prop :=
  (length (playerCells s) <= MAX_CELLS)%nat
  /\ Forall (fun b => (length (b_cells b) <= MAX_CELLS)%nat) (bots s).

(** Every cell of every actor has the radius of its mass. *)
Definition allSynced (s : GameState) : Prop :=
  Forall synced (playerCells s)
  /\ Forall (fun b => Forall synced (b_cells b)) (bots s).


(** ** The match clock and the score across a stage *)

(** The lifecycle fields are those of [s]. *)
Definition sameMatch (s s' : GameState) : Prop :=
  gameOver s' = gameOver s /\ gameStarted s' = gameStarted s
  /\ gameEndTime s' = gameEndTime s.

(** The lifecycle fields and the score are those of [s]. *)
Definition framed (s s' : GameState) : Prop :=
  sameMatch s s' /\ score s' = score s.

(** The lifecycle fields are those of [s] and the score did not go down. *)
Definition advanced (s s' : GameState) : Prop :=
  sameMatch s s' /\ (score s <= score s')%Z.

(** ** Boundaries *)

(** The cell lies within the map by its radius on the low side, and on the
    high side too unless its diameter exceeds the map. *)
Definition clamped (c : PlayerCell) : Prop :=
  c_radius c <= c_x c /\ c_radius c <= c_y c
  /\ (2 * c_radius c <= MAP_WIDTH -> c_x c <= MAP_WIDTH - c_radius c)
  /\ (2 * c_radius c <= MAP_HEIGHT -> c_y c <= MAP_HEIGHT - c_radius c).

(** One coordinate of a blob across [moveBlob]: position [x] and velocity
    [v] before, [x'] and [v'] after, on an axis of length [size]. *)
Definition reflected (size x v x' v' : R) : Prop :=
  (x <= 0 -> x' = - v /\ v' = - v * (9 / 10))
  /\ (size <= x -> x' = size - v /\ v' = - v * (9 / 10))
  /\ (0 < x < size -> x' = x + v /\ v' = v * (9 / 10))
  /\ - Rabs v <= x' <= size + Rabs v.

(** A blob heading left, five units from the left edge. *)
Definition strayBlob : EjectedMass :=
  mkEjected "e" 5 100 (massToRadius EJECT_MASS_GAIN) "#FF5252"
            (-10) 0 EJECT_MASS_GAIN "p" 0.

(** ** A virus under two bots *)

Definition loneVirus : Virus :=
  mkVirus "v" 500 500 (massToRadius VIRUS_MASS) "#33ff33" 12.

(** A bot with one cell of mass 200 centred on [loneVirus]. *)
Definition greedyBot (name : string) : Bot :=
  mkBot name name "#FF5252" [cellAt name 500 500 200] (mkVector 0 0) None.

Definition virusScene : GameState :=
  mkState [] [greedyBot "a"; greedyBot "b"] [] [loneVirus] []
          (mkVector 2000 2000) 1 0%Z false true 720000.

(** ** Eviction of ejected mass *)

(** [a] was not created after [b]. *)
Definition olderFirst (a b : EjectedMass) : Prop :=
  e_createdAt a <= e_createdAt b.

(** A blob at rest under the cell of [crowdScene], created at time 0 by
    another cell. *)
Definition nearBlob : EjectedMass :=
  mkEjected "near" 100 100 (massToRadius EJECT_MASS_GAIN) "#FF5252"
            0 0 EJECT_MASS_GAIN "q" 0.

(** A blob at rest far from that cell, created at time [n]. *)
Definition farBlob (n : nat) : EjectedMass :=
  mkEjected "far" 3000 3000 (massToRadius EJECT_MASS_GAIN) "#FF5252"
            0 0 EJECT_MASS_GAIN "q" (INR n).

(** 302 blobs in creation order. *)
Definition crowd : list EjectedMass := nearBlob :: map farBlob (seq 1 301).

Definition crowdScene : GameState :=
  mkState [cellAt "p" 100 100 100] [] [] [] crowd
          (mkVector 2000 2000) 1 0%Z false true 720000.

(** ** A match at its end *)

(** A running match with score 7 whose end time is 100. *)
Definition lateCanvas : Canvas :=
  setState mountCanvas
           (mkState [] [] [] [] [] (mkVector 2000 2000) 1 7%Z
                    false true 100).

(* ================================================================== *)
(** * Further predicates: actions, stages and collaborators *)

(** ** Eject *)

(** The cells heavy enough to eject. *)
Definition ejectable (cells : list PlayerCell) : nat :=
  length (filter (fun c => MIN_MASS_TO_EJECT <=? c_mass c) cells).

(** What an eject intent does to one cell of the array: nothing below the
    threshold; above, the cell stays where it is and pays the fixed cost. *)
Definition keptOrCharged (c c' : PlayerCell) : Prop :=
  (c_mass c < MIN_MASS_TO_EJECT /\ c' = c)
  \/ (MIN_MASS_TO_EJECT <= c_mass c
      /\ c_mass c' = c_mass c - EJECT_MASS_LOSS
      /\ synced c'
      /\ c_id c' = c_id c /\ c_x c' = c_x c /\ c_y c' = c_y c).

(** A blob of the fixed gain, emitted by one of the cells heavy enough and
    tagged with its id. *)
Definition emittedBy (cells : list PlayerCell) (b : EjectedMass) : Prop :=
  e_mass b = EJECT_MASS_GAIN
  /\ e_radius b = massToRadius EJECT_MASS_GAIN
  /\ exists c, In c cells /\ MIN_MASS_TO_EJECT <= c_mass c
               /\ e_ownerId b = c_id c.

(** ** Populations *)

(** What a tick does to the four collections of [s]: the bots are as many,
    no virus is added, the ejected mass is within its cap, and the food is
    back at its target unless it was above it. *)
Definition populationsAfter (s s' : GameState) : Prop :=
  length (bots s') = length (bots s)
  /\ (length (viruses s') <= length (viruses s))%nat
  /\ (length (ejectedMass s') <= EJECTED_CAP)%nat
  /\ ((length (foods s) <= FOOD_TARGET)%nat ->
      length (foods s') = FOOD_TARGET).

(** ** Mass accounts *)

Definition botsMass (bs : list Bot) : R :=
  sumOf (fun b => sumOf c_mass (b_cells b)) bs.

(** The mass held by the cells of the player and of the bots. *)
Definition totalMass (s : GameState) : R :=
  sumOf c_mass (playerCells s) + botsMass (bots s).

(** How many cells each bot has. *)
Definition botCounts (bs : list Bot) : list nat :=
  map (fun b => length (b_cells b)) bs.

Definition eaterMass (e : Eater) : R := c_mass (eater_cell e).

(** The mass lying on the map as ejected blobs. *)
Definition blobsMass (blobs : list EjectedMass) : R := sumOf e_mass blobs.

(** One blob at rest under a cell heavy enough to swallow it. *)
Definition blobScene : GameState :=
  mkState [cellAt "p" 100 100 100] [] [] [] [nearBlob]
          (mkVector 2000 2000) 1 0%Z false true 720000.

(** ** Self-collision under cooldown *)

(** No reading of the clock is past the merge timer of [c]. *)
Definition cooling (o : Oracle) (c : PlayerCell) : Prop :=
  forall n, clockAt o n <= c_mergeTimer c.

(** [c'] is [c], moved at most. *)
Definition sameBody (c c' : PlayerCell) : Prop :=
  c_id c' = c_id c /\ c_mass c' = c_mass c /\ c_radius c' = c_radius c
  /\ c_mergeTimer c' = c_mergeTimer c.

(** ** Movement *)

(** [c'] is [c] after at most one step of mass decay. *)
Definition decayedFrom (c c' : PlayerCell) : Prop :=
  c_id c' = c_id c
  /\ c_mass c' <= c_mass c
  /\ (c_mass c <= MASS_DECAY_THRESHOLD -> c_mass c' = c_mass c)
  /\ (MASS_DECAY_THRESHOLD < c_mass c ->
      c_mass c' = c_mass c * MASS_DECAY_RATE
      /\ MASS_DECAY_THRESHOLD * MASS_DECAY_RATE < c_mass c').

(** ** Bots *)

(** "p.mass > bm / bot.cells.length * 1.2" *)
Definition heavier (bm : R) (count : nat) (p : PlayerCell) : Prop :=
  bm / INR count * (12 / 10) < c_mass p.

(** One round of the search for a threat. *)
Definition threatStep (center : Vector) (bm : R) (count : nat)
           (acc : option PlayerCell * R) (p : PlayerCell)
  : option PlayerCell * R :=
  let d := getDistance center (cellPos p) in
  if (d <? snd acc) && (bm / INR count * (12 / 10) <? c_mass p)
  then (Some p, d) else acc.

(** ** Respawn *)

(** A bot without cells whose death was recorded at time 1000. *)
Definition deadBot : Bot :=
  mkBot "b" "b" "#FF5252" [] (mkVector 0 0) (Some 1000).

(** ** Identifiers *)

Definition isHex (c : ascii) : Prop :=
  In c (list_ascii_of_string "0123456789abcdef").

(** What may stand in an identifier at a place of the template: a
    hexadecimal digit for [x], one of [8 9 a b] for [y], and otherwise the
    character of the template itself. *)
Definition fills (slot c : ascii) : Prop :=
  if Ascii.eqb slot "x" then isHex c
  else if Ascii.eqb slot "y" then In c (list_ascii_of_string "89ab")
  else c = slot.

(** ** The random source *)

(** [Math.random] draws from [0, 1). *)
Definition unitRandom (o : Oracle) : Prop :=
  forall n, 0 <= randomAt o n < 1.

(** ** Spawning *)

Definition inMap (x y : R) : Prop :=
  0 <= x < MAP_WIDTH /\ 0 <= y < MAP_HEIGHT.

(** A bot as [spawnBot] makes them. *)
Definition freshBot (b : Bot) : Prop :=
  In (b_name b) BOT_NAMES /\ In (b_color b) COLORS
  /\ inMap (v_x (b_target b)) (v_y (b_target b))
  /\ b_deadAt b = None
  /\ exists c,
      b_cells b = [c] /\ inMap (c_x c) (c_y c) /\ synced c
      /\ INITIAL_MASS <= c_mass c < INITIAL_MASS + 50
      /\ In (c_color c) COLORS /\ c_vx c = 0 /\ c_vy c = 0
      /\ c_mergeTimer c = 0.

Definition freshFood (f : Food) : Prop :=
  inMap (f_x f) (f_y f) /\ 5 <= f_radius f < 8 /\ In (f_color f) FOOD_COLORS.

Definition freshVirus (v : Virus) : Prop :=
  inMap (vi_x v) (vi_y v) /\ vi_radius v = massToRadius VIRUS_MASS.

(** The player as [spawnPlayer] leaves it: one cell of the initial mass,
    the camera on it at scale 1, and no death recorded. *)
Definition freshPlayer (cv : Canvas) : Prop :=
  playerDeadAt cv = None /\ scale (state cv) = 1
  /\ exists c,
      playerCells (state cv) = [c] /\ inMap (c_x c) (c_y c) /\ synced c
      /\ c_mass c = INITIAL_MASS /\ In (c_color c) COLORS
      /\ camera (state cv) = mkVector (c_x c) (c_y c).

(** ** The direction and the zoom *)

Definition unitVector (v : Vector) : Prop :=
  v_x v * v_x v + v_y v * v_y v = 1.

(** The last direction has length 1 and the zoom is at least 0.1. *)
Definition steady (cv : Canvas) : Prop :=
  unitVector (lastMoveDir cv) /\ 1 / 10 <= scale (state cv).

(** ** Intents *)

(** The player has no cell and is not respawned by a tick at [now]. *)
Definition awaitingRespawn (now : R) (cv : Canvas) : bool :=
  match playerCells (state cv), playerDeadAt cv with
  | [], None => true
  | [], Some deadAt => now - deadAt <? RESPAWN_DELAY_MS
  | _ :: _, _ => false
  end.

(** ** The component between matches *)

(** The effect under "Loop Integration", as far as the refs go: [initWorld]
    runs when the [gameStarted] prop is true and the state held by the ref
    has not been started.  ([audio.init] and the scheduling of the loop do
    not write the refs; the frames the loop runs are the [Frame] steps
    below.) *)
Definition mountEffect (gameStartedProp : bool) (cv : Canvas) : M Canvas :=
  if gameStartedProp && negb (gameStarted (state cv)) then initWorld cv
  else ret cv.

(** What happens to a mounted component: the effect runs with some value of
    the prop, the loop runs a frame, or the collaborators write the keys and
    the intents. *)
Inductive Step :=
| RunEffect (gameStartedProp : bool)
| Frame
| Keys (keys : InputState) (intents : Actions).

Definition step (s : Step) (cv : Canvas) : M Canvas :=
  match s with
  | RunEffect gameStartedProp => mountEffect gameStartedProp cv
  | Frame => update cv
  | Keys keys intents => ret (setInputs cv keys intents)
  end.

Fixpoint session (steps : list Step) (cv : Canvas) : M Canvas :=
  match steps with
  | [] => ret cv
  | s :: rest => cv' <- step s cv ;; session rest cv'
  end.

(** [lateCanvas] after its match has ended. *)
Definition endedCanvas : Canvas :=
  setState lateCanvas (setGameOver (state lateCanvas) true).

(** ** The grace of the ejecting cell *)

(** Every reading of the clock is less than 500 ms after the blob was
    created. *)
Definition withinGrace (o : Oracle) (blob : EjectedMass) : Prop :=
  forall n, clockAt o n - e_createdAt blob < 500.

(** Every reading of the clock is at least 500 ms after the blob was
    created. *)
Definition pastGrace (o : Oracle) (blob : EjectedMass) : Prop :=
  forall n, 500 <= clockAt o n - e_createdAt blob.

Definition ejectedBy (blob : EjectedMass) (c : PlayerCell) : Prop :=
  c_id c = e_ownerId blob.

(** ** The target of a bot *)



(* ================================================================== *)
(** * update: the HUD *)

(** The values computed under "Performance & UI Update Throttling" when the
    HUD is refreshed.  Their rendering as text is left out: the timer is the
    pair of the minutes and of the seconds shown. *)

Record LeaderboardEntry := mkEntry {
  le_name : string; le_mass : R; le_isMe : bool }.

(** [setHudMass(Math.floor(totalMass))]; [totalMass] is the sum the camera
    block computed, 0 when the player has no cell. *)
Definition hudMass (s : GameState) : Z :=
  Math_floor (sumOf c_mass (playerCells s)).

(** "Timer": [mins] and [secs % 60]. *)
Definition hudTime (s : GameState) (now : R) : Z * Z :=
  let msRemaining := Math_max 0 (gameEndTime s - now) in
  let secs := Math_floor (msRemaining / 1000) in
  let mins := Math_floor (IZR secs / 60) in
  (mins, Z.rem secs 60).

(** "Respawn Countdown": [None] stands for [null]; a recorded time of 0 is
    falsy. *)
Definition hudRespawnCountdown (cv : Canvas) (now : R) : option Z :=
  match playerCells (state cv), playerDeadAt cv with
  | [], Some deadAt =>
    if deadAt =? 0 then None
    else
      let passed := now - deadAt in
      Some (Z.max 0 (Math_ceil ((RESPAWN_DELAY_MS - passed) / 1000)))
  | _, _ => None
  end.

(** [entries.sort((a, b) => b.mass - a.mass)]: the sort is stable, so an
    entry goes behind the entries at least as heavy that came before it. *)
Fixpoint insertEntry (e : LeaderboardEntry) (sorted : list LeaderboardEntry)
  : list LeaderboardEntry :=
  match sorted with
  | [] => [e]
  | h :: rest =>
    if le_mass h <? le_mass e then e :: h :: rest
    else h :: insertEntry e rest
  end.

Definition sortByMass (entries : list LeaderboardEntry)
  : list LeaderboardEntry :=
  fold_left (fun acc e => insertEntry e acc) entries [].

(** "Leaderboard Calculation": the candidates, then the ten shown. *)
Definition leaderboardEntries (playerName : string) (s : GameState)
  : list LeaderboardEntry :=
  mkEntry playerName (sumOf c_mass (playerCells s)) true
  :: map (fun b => mkEntry (b_name b)
                           (IZR (Math_floor (sumOf c_mass (b_cells b))))
                           false)
         (bots s).

Definition leaderboard (playerName : string) (s : GameState)
  : list LeaderboardEntry :=
  firstn 10 (sortByMass (leaderboardEntries playerName s)).

(** [a] is shown above [b]. *)
Definition above (a b : LeaderboardEntry) : Prop := le_mass b <= le_mass a.

(* ================================================================== *)
(** * utils.ts on binary64 numbers *)

(** [massToRadius] and [radiusToMass] as the code computes them: every
    operation is the IEEE 754 binary64 one, and [Math.PI] is the binary64
    number nearest to pi. *)
Module Binary64.
Import PrimFloat.
Local Open Scope float_scope.

Definition Math_PI : float := 0x1.921fb54442d18p+1.

Definition Math_sqrt (a : float) : float := sqrt a.

Definition massToRadius (mass : float) : float :=
  Math_sqrt (mass * 100 / Math_PI).

Definition radiusToMass (r : float) : float := (r * r * Math_PI) / 100.

Definition zero : float := 0.

(** [INITIAL_MASS], and the number next above it. *)
Definition INITIAL_MASS : float := 15.
Definition aboveInitialMass : float := 0x1.e000000000001p+3.

End Binary64.

(* ================================================================== *)
(** * Further predicates: the push and the score *)

(** ** The push of two overlapping cells *)






(** ** What the score counts *)



(* ================================================================== *)
(** * Reasoning tools *)

(** ** Comparisons *)

Lemma Rltb_lt (a b : R) : (a <? b) = true <-> a < b.
Proof. unfold Rltb; destruct (Rlt_dec a b); split; intros; auto; discriminate. Qed.

Lemma Rltb_nlt (a b : R) : (a <? b) = false <-> b <= a.
Proof.
  unfold Rltb; destruct (Rlt_dec a b); split; intros; auto; try discriminate; lra.
Qed.

Lemma Rleb_le (a b : R) : (a <=? b) = true <-> a <= b.
Proof. unfold Rleb; destruct (Rle_dec a b); split; intros; auto; discriminate. Qed.

Lemma Rleb_nle (a b : R) : (a <=? b) = false <-> b < a.
Proof.
  unfold Rleb; destruct (Rle_dec a b); split; intros; auto; try discriminate; lra.
Qed.

(** Decide a comparison between numerals, or from the context. *)
Ltac rdec :=
  repeat match goal with
  | |- context [ ?a <? ?b ] =>
    first [ rewrite (proj2 (Rltb_lt a b)) by lra
          | rewrite (proj2 (Rltb_nlt a b)) by lra ]
  | |- context [ ?a <=? ?b ] =>
    first [ rewrite (proj2 (Rleb_le a b)) by lra
          | rewrite (proj2 (Rleb_nle a b)) by lra ]
  end.

(** Case analysis on a comparison, keeping the fact. *)
Ltac rcase a b H :=
  match goal with
  | |- context [ a <? b ] =>
    destruct (a <? b) eqn:H;
    [ apply Rltb_lt in H | apply Rltb_nlt in H ]
  | |- context [ a <=? b ] =>
    destruct (a <=? b) eqn:H;
    [ apply Rleb_le in H | apply Rleb_nle in H ]
  end.

(** ** Sums *)

Lemma fold_sum_shift {A} (f : A -> R) (l : list A) (acc : R) :
  fold_left (fun a c => a + f c) l acc = acc + sumOf f l.
Proof.
  unfold sumOf. revert acc.
  induction l as [|x l IH]; intros acc; simpl.
  - lra.
  - rewrite IH. rewrite (IH (0 + f x)). lra.
Qed.

Lemma sumOf_nil {A} (f : A -> R) : sumOf f [] = 0.
Proof. reflexivity. Qed.

Lemma sumOf_cons {A} (f : A -> R) (x : A) (l : list A) :
  sumOf f (x :: l) = f x + sumOf f l.
Proof. unfold sumOf at 1. simpl. rewrite fold_sum_shift. lra. Qed.

Lemma sumOf_app {A} (f : A -> R) (l1 l2 : list A) :
  sumOf f (l1 ++ l2) = sumOf f l1 + sumOf f l2.
Proof.
  induction l1 as [|x l1 IH]; simpl.
  - rewrite sumOf_nil. lra.
  - rewrite !sumOf_cons, IH. lra.
Qed.

(** ** Radius and mass *)

Lemma PI_pos : 0 < Math_PI.
Proof. exact PI_RGT_0. Qed.

Lemma massToRadius_pos (m : R) : 0 < m -> 0 < massToRadius m.
Proof.
  intros Hm. unfold massToRadius, Math_sqrt. apply sqrt_lt_R0.
  pose proof PI_pos. apply Rdiv_lt_0_compat; lra.
Qed.

Lemma massToRadius_inj (m1 m2 : R) :
  0 <= m1 -> 0 <= m2 -> massToRadius m1 = massToRadius m2 -> m1 = m2.
Proof.
  intros H1 H2 H. unfold massToRadius, Math_sqrt in H.
  pose proof PI_pos as Hpi.
  assert (Hinv : 0 < / Math_PI) by (apply Rinv_0_lt_compat; exact Hpi).
  apply sqrt_inj in H.
  - unfold Rdiv in H. apply Rmult_eq_reg_r in H; lra.
  - unfold Rdiv. apply Rmult_le_pos; lra.
  - unfold Rdiv. apply Rmult_le_pos; lra.
Qed.

(** ** Running a computation *)

(** Name the result of the next computation in a chain of [bind]. *)
Ltac mstep :=
  match goal with
  | |- context [ let (_, _) := ?m ?o ?t in _ ] =>
    let a := fresh "a" in
    let t' := fresh "t" in
    let E := fresh "E" in
    destruct (m o t) as [a t'] eqn:E; simpl
  end.

(* ================================================================== *)
(** * Split *)

Lemma halved_mass (c : PlayerCell) : c_mass (halved c) = c_mass c / 2.
Proof. reflexivity. Qed.

Lemma sibling_mass dirX dirY c newId t1 t2 :
  c_mass (sibling dirX dirY c newId t1 t2) = c_mass c.
Proof. reflexivity. Qed.

Lemma splitLoop_shape (dirX dirY : R) (cells : list PlayerCell) :
  forall (n : nat) (o : Oracle) (t : Tape),
    let r := fst (splitLoop dirX dirY cells n o t) in
    Forall2 keptOrHalved cells (fst r)
    /\ length (snd r) = Nat.min (splittable cells) (MAX_CELLS - n)
    /\ sumOf c_mass (fst r) + sumOf c_mass (snd r) = sumOf c_mass cells
    /\ (forall i c, nth_error cells i = Some c ->
                    c_mass c < MIN_MASS_TO_SPLIT ->
                    nth_error (fst r) i = Some c)
    /\ Forall (halfOfOne cells) (snd r).
Proof.
  induction cells as [|cell rest IH]; intros n o t.
  - cbn. split; [constructor|]. split; [reflexivity|].
    split; [unfold sumOf; cbn; lra|]. split; [|constructor].
    intros i c H. destruct i; discriminate.
  - cbn [splitLoop].
    destruct ((MIN_MASS_TO_SPLIT <=? c_mass cell) && (n <? MAX_CELLS)%nat)
      eqn:G.
    + apply andb_prop in G. destruct G as [Gm Gn].
      apply Rleb_le in Gm. apply Nat.ltb_lt in Gn.
      unfold bind.
      destruct (generateUUID o t) as [newId t1].
      destruct (Date_now o t1) as [d1 t2].
      destruct (Date_now o t2) as [d2 t3].
      specialize (IH (S n) o t3).
      destruct (splitLoop dirX dirY rest (S n) o t3) as [[rest' news] t4].
      cbn [fst snd ret] in *.
      destruct IH as (IH1 & IH2 & IH3 & IH4 & IH5).
      split; [|split; [|split; [|split]]].
      * constructor; [right; split; [exact Gm | reflexivity] | exact IH1].
      * unfold splittable in *. cbn [filter].
        rewrite (proj2 (Rleb_le _ _) Gm). cbn [length].
        rewrite IH2. unfold MAX_CELLS in *. lia.
      * rewrite !sumOf_cons, sibling_mass, halved_mass. lra.
      * intros i c Hi Hc. destruct i as [|i]; cbn [nth_error] in *.
        -- inversion Hi; subst. lra.
        -- apply IH4; assumption.
      * constructor.
        -- exists cell. split; [left; reflexivity | split; [exact Gm|]].
           rewrite sibling_mass, halved_mass. reflexivity.
        -- eapply Forall_impl; [|exact IH5].
           intros c' (c & Hin & Hm & Hh). exists c. split; [right|]; auto.
    + unfold bind.
      specialize (IH n o t).
      destruct (splitLoop dirX dirY rest n o t) as [[rest' news] t1].
      cbn [fst snd ret] in *.
      destruct IH as (IH1 & IH2 & IH3 & IH4 & IH5).
      split; [|split; [|split; [|split]]].
      * constructor; [left; reflexivity | exact IH1].
      * unfold splittable in *. cbn [filter].
        apply andb_false_iff in G. destruct G as [G|G].
        -- rewrite G. exact IH2.
        -- apply Nat.ltb_ge in G.
           destruct (MIN_MASS_TO_SPLIT <=? c_mass cell); cbn [length];
             rewrite IH2; unfold MAX_CELLS in *; lia.
      * rewrite !sumOf_cons. lra.
      * intros i c Hi Hc. destruct i as [|i]; cbn [nth_error] in *.
        -- exact Hi.
        -- apply IH4; assumption.
      * eapply Forall_impl; [|exact IH5].
        intros c' (c & Hin & Hm & Hh). exists c. split; [right|]; auto.
Qed.

Lemma processSplit_result (dirX dirY : R) (cells : list PlayerCell)
      (o : Oracle) (t : Tape) :
  fst (processSplit dirX dirY cells o t)
  = fst (fst (splitLoop dirX dirY cells (length cells) o t))
    ++ snd (fst (splitLoop dirX dirY cells (length cells) o t)).
Proof.
  unfold processSplit, bind.
  destruct (splitLoop dirX dirY cells (length cells) o t) as [[cells' news] t1].
  cbn [fst snd].
  destruct (when (negb (isEmpty news)) (emit PlaySplit) o t1) as [u t2].
  reflexivity.
Qed.

(** C1. One split intent leaves the total mass of the player unchanged,
    adds exactly one cell per cell that split (every cell of mass at least
    [MIN_MASS_TO_SPLIT], as long as the count stays below [MAX_CELLS]), each
    new cell carrying half the mass of a cell that was heavy enough, and
    leaves a cell below the threshold where it was, with its mass. *)
Theorem split_conserves_mass_and_counts
        (dirX dirY : R) (cells : list PlayerCell) (o : Oracle) (t : Tape) :
  let out := fst (processSplit dirX dirY cells o t) in
  sumOf c_mass out = sumOf c_mass cells
  /\ length out
     = (length cells
        + Nat.min (splittable cells) (MAX_CELLS - length cells))%nat
  /\ Forall2 keptOrHalved cells (firstn (length cells) out)
  /\ Forall (halfOfOne cells) (skipn (length cells) out)
  /\ (forall i c, nth_error cells i = Some c ->
                  c_mass c < MIN_MASS_TO_SPLIT ->
                  nth_error out i = Some c).
Proof.
  cbv zeta. rewrite processSplit_result.
  pose proof (splitLoop_shape dirX dirY cells (length cells) o t) as H.
  cbv zeta in H.
  destruct (fst (splitLoop dirX dirY cells (length cells) o t))
    as [cells' news].
  cbn [fst snd] in *.
  destruct H as (H1 & H2 & H3 & H4 & H5).
  pose proof (Forall2_length H1) as Hlen.
  split; [|split; [|split; [|split]]].
  - rewrite sumOf_app. exact H3.
  - rewrite length_app, H2. lia.
  - rewrite Hlen, firstn_app, Nat.sub_diag, firstn_all. cbn [firstn].
    rewrite app_nil_r. exact H1.
  - rewrite Hlen, skipn_app, Nat.sub_diag, skipn_all. exact H5.
  - intros i c Hi Hc. rewrite nth_error_app1.
    + apply H4; assumption.
    + rewrite <- Hlen. apply nth_error_Some. rewrite Hi. discriminate.
Qed.

Lemma replaceXY_clock (template : list ascii) (o : Oracle) (t : Tape) :
  clockPos (snd (replaceXY template o t)) = clockPos t.
Proof.
  revert t. induction template as [|c rest IH]; intros t; cbn [replaceXY].
  - reflexivity.
  - destruct (Ascii.eqb c "x" || Ascii.eqb c "y")%bool; unfold bind.
    + cbn [Math_random].
      specialize (IH (mkTape (clockPos t) (S (randomPos t)) (events t))).
      destruct (replaceXY rest o _) as [out t']. exact IH.
    + specialize (IH t). destruct (replaceXY rest o t) as [out t']. exact IH.
Qed.

Lemma generateUUID_clock (o : Oracle) (t : Tape) :
  clockPos (snd (generateUUID o t)) = clockPos t.
Proof.
  unfold generateUUID, bind.
  pose proof (replaceXY_clock
                (list_ascii_of_string "xxxxxxxx-xxxx-4xxx-yxxx-xxxxxxxxxxxx")
                o t) as H.
  destruct (replaceXY _ o t) as [cs t']. exact H.
Qed.

(** What [processSplit] makes of a single cell heavy enough to split. *)
Lemma processSplit_single (dirX dirY : R) (c : PlayerCell)
      (o : Oracle) (t : Tape) :
  MIN_MASS_TO_SPLIT <= c_mass c ->
  exists newId t2,
    fst (processSplit dirX dirY [c] o t)
    = [ halved c;
        sibling dirX dirY (halved c) newId (clockAt o (clockPos t)) t2 ].
Proof.
  intros Hm. rewrite processSplit_result. cbn [splitLoop length].
  rewrite (proj2 (Rleb_le _ _) Hm).
  change (1 <? MAX_CELLS)%nat with true. cbn [andb]. unfold bind.
  pose proof (generateUUID_clock o t) as Hc.
  destruct (generateUUID o t) as [newId t1]. cbn [snd] in Hc.
  cbn [Date_now ret fst snd app]. rewrite Hc.
  eexists. eexists. reflexivity.
Qed.

(** C2, as the code has it. With one cell of mass 40 and the direction
    (1,0), a split intent leaves two cells of mass 20; the new cell sits at
    the x of the original plus the radius of a cell of mass 20 (the radius
    is recomputed before the offset is taken); its merge timer is strictly
    later than [now + MERGE_COOLDOWN_MS] for every [now] not later than the
    clock; the merge timer of the original cell is left as it was. *)
Theorem split_of_forty (c : PlayerCell) (o : Oracle) (t : Tape) (now : R) :
  c_mass c = 40 ->
  now <= clockAt o (clockPos t) ->
  exists a b,
    fst (processSplit 1 0 [c] o t) = [a; b]
    /\ c_mass a = 20 /\ c_mass b = 20
    /\ c_x a = c_x c /\ c_y a = c_y c
    /\ c_x b = c_x c + massToRadius 20 /\ c_y b = c_y c
    /\ now + MERGE_COOLDOWN_MS < c_mergeTimer b
    /\ c_mergeTimer a = c_mergeTimer c.
Proof.
  intros Hm Hnow.
  destruct (processSplit_single 1 0 c o t) as (newId & t2 & E).
  { unfold MIN_MASS_TO_SPLIT. lra. }
  rewrite E. eexists. eexists. split; [reflexivity|].
  unfold sibling, halved, setMass; cbn [c_mass c_x c_y c_radius c_mergeTimer].
  rewrite Hm. replace (40 / 2) with 20 by lra.
  repeat split; lra.
Qed.

Lemma split_of_forty_witness :
  exists a b,
    fst (processSplit 1 0 [cellAt "p" 100 100 40]
                      (constOracle 1000 0) startTape) = [a; b]
    /\ c_mass a = 20 /\ c_mass b = 20
    /\ c_x a = 100 /\ c_y a = 100
    /\ c_x b = 100 + massToRadius 20 /\ c_y b = 100
    /\ 1000 + MERGE_COOLDOWN_MS < c_mergeTimer b
    /\ c_mergeTimer a = 0.
Proof.
  apply (split_of_forty (cellAt "p" 100 100 40) (constOracle 1000 0)
                        startTape (now := 1000)).
  - reflexivity.
  - simpl. lra.
Defined.

(** C2, as stated, fails for a freshly grown cell of mass 40 split at time
    1000: the new cell is not at the x of the original plus the radius of a
    cell of mass 40, and the merge timer of the original is not later than
    [now + MERGE_COOLDOWN_MS]. *)
Lemma split_of_forty_counterexample :
  let c := cellAt "p" 100 100 40 in
  let now := 1000 in
  exists a b,
    fst (processSplit 1 0 [c] (constOracle now 0) startTape) = [a; b]
    /\ c_x b <> c_x c + massToRadius 40
    /\ ~ (now + MERGE_COOLDOWN_MS < c_mergeTimer a).
Proof.
  cbv zeta.
  destruct (processSplit_single 1 0 (cellAt "p" 100 100 40)
                                (constOracle 1000 0) startTape)
    as (newId & t2 & E).
  { cbn. unfold MIN_MASS_TO_SPLIT. lra. }
  rewrite E. eexists. eexists. split; [reflexivity|].
  unfold sibling, halved, setMass, cellAt;
    cbn [c_mass c_x c_y c_radius c_mergeTimer].
  split.
  - intros H.
    assert (Hr : massToRadius (40 / 2) = massToRadius 40) by lra.
    apply massToRadius_inj in Hr; lra.
  - unfold MERGE_COOLDOWN_MS. lra.
Qed.

(* ================================================================== *)
(** * Self-collision *)


Lemma canMerge_false (now : R) (c1 c2 : PlayerCell) :
  canMerge now c1 c2 = false
  <-> now <= c_mergeTimer c1 \/ now <= c_mergeTimer c2.
Proof.
  unfold canMerge. rewrite andb_false_iff, !Rltb_nlt. reflexivity.
Qed.

Lemma collidePair_far sound c1 c2 o t :
  overlapping c1 c2 = false ->
  collidePair sound c1 c2 o t = ((c1, Some c2), t).
Proof. intros H. unfold collidePair. rewrite H. reflexivity. Qed.


Lemma collidePair_push sound c1 c2 o t :
  overlapping c1 c2 = true ->
  clockAt o (clockPos t) <= c_mergeTimer c1
  \/ clockAt o (clockPos t) <= c_mergeTimer c2 ->
  fst (collidePair sound c1 c2 o t)
  = (fst (pushApart c1 c2), Some (snd (pushApart c1 c2))).
Proof.
  intros H H1. unfold collidePair, bind. rewrite H. cbn [Date_now].
  rewrite (proj2 (canMerge_false _ c1 c2)) by assumption.
  reflexivity.
Qed.







(* ================================================================== *)
(** * Arrays *)

Section ArrayFacts.
Context {A : Type}.
Variable P : A -> Prop.

Lemma splice1_length (j : nat) (a : list A) :
  (length (splice1 j a) <= length a)%nat.
Proof.
  revert j. induction a as [|h a IH]; intros j; cbn; [lia|].
  destruct j; cbn; [lia|]. specialize (IH j). lia.
Qed.

Lemma splice1_Forall (j : nat) (a : list A) :
  Forall P a -> Forall P (splice1 j a).
Proof.
  revert j. induction a as [|h a IH]; intros j H; cbn; [constructor|].
  inversion H; subst. destruct j; [assumption|].
  constructor; [assumption|]. apply IH. assumption.
Qed.

Lemma setAt_length (i : nat) (v : A) (a : list A) :
  length (setAt i v a) = length a.
Proof.
  revert i. induction a as [|h a IH]; intros i; cbn; [reflexivity|].
  destruct i; cbn; [reflexivity|]. rewrite IH. reflexivity.
Qed.

Lemma setAt_Forall (i : nat) (v : A) (a : list A) :
  P v -> Forall P a -> Forall P (setAt i v a).
Proof.
  intros Hv. revert i. induction a as [|h a IH]; intros i H; cbn;
    [constructor|].
  inversion H; subst. destruct i; constructor; auto.
Qed.

Lemma removelast_Forall (a : list A) : Forall P a -> Forall P (removelast a).
Proof.
  induction a as [|h a IH]; intros H; cbn; [constructor|].
  inversion H; subst. destruct a; [constructor|].
  constructor; auto.
Qed.

Lemma nth_error_Forall (a : list A) (i : nat) (x : A) :
  Forall P a -> nth_error a i = Some x -> P x.
Proof.
  intros H E. rewrite Forall_forall in H. apply H.
  eapply nth_error_In. exact E.
Qed.

Lemma swapPop_Forall (i : nat) (a : list A) :
  Forall P a -> Forall P (swapPop i a).
Proof.
  intros H. unfold swapPop.
  destruct (nth_error a (length a - 1)) as [x|] eqn:E; [|assumption].
  apply removelast_Forall. apply setAt_Forall; [|assumption].
  eapply nth_error_Forall; eassumption.
Qed.

Lemma firstn_Forall (n : nat) (a : list A) : Forall P a -> Forall P (firstn n a).
Proof.
  intros H. rewrite <- (firstn_skipn n a) in H.
  apply Forall_app in H. tauto.
Qed.

Lemma skipn_Forall (n : nat) (a : list A) : Forall P a -> Forall P (skipn n a).
Proof.
  intros H. rewrite <- (firstn_skipn n a) in H.
  apply Forall_app in H. tauto.
Qed.

End ArrayFacts.

(* ================================================================== *)
(** * Rules for [ensures] *)

Section Ensures.
Variable o : Oracle.

Lemma ensures_ret {A} (a : A) (Q : A -> Prop) : Q a -> ensures o (ret a) Q.
Proof. intros H t. exact H. Qed.

Lemma ensures_bind {A B} (m : M A) (k : A -> M B)
      (P : A -> Prop) (Q : B -> Prop) :
  ensures o m P -> (forall a, P a -> ensures o (k a) Q) ->
  ensures o (bind m k) Q.
Proof.
  intros Hm Hk t. unfold bind. specialize (Hm t).
  destruct (m o t) as [a t']. apply Hk. exact Hm.
Qed.

Lemma ensures_then {A B} (m : M A) (k : A -> M B) (Q : B -> Prop) :
  (forall a, ensures o (k a) Q) -> ensures o (bind m k) Q.
Proof.
  intros Hk t. unfold bind. destruct (m o t) as [a t']. apply Hk.
Qed.

Lemma ensures_weaken {A} (m : M A) (P Q : A -> Prop) :
  ensures o m P -> (forall a, P a -> Q a) -> ensures o m Q.
Proof. intros Hm H t. apply H, Hm. Qed.

Lemma ensures_conj {A} (m : M A) (P Q : A -> Prop) :
  ensures o m P -> ensures o m Q -> ensures o m (fun a => P a /\ Q a).
Proof. intros Hp Hq t. split; [apply Hp | apply Hq]. Qed.

Lemma ensures_mapM {A B} (f : A -> M B) (P : A -> Prop) (Q : B -> Prop)
      (l : list A) :
  (forall a, P a -> ensures o (f a) Q) -> Forall P l ->
  ensures o (mapM f l) (Forall Q).
Proof.
  intros Hf. induction l as [|a l IH]; intros Hl; cbn [mapM].
  - apply ensures_ret. constructor.
  - inversion Hl; subst.
    eapply ensures_bind; [apply Hf; assumption|]. intros b Hb.
    eapply ensures_bind; [apply IH; assumption|]. intros bs Hbs.
    apply ensures_ret. constructor; assumption.
Qed.

Lemma ensures_replicateM {A} (m : M A) (Q : A -> Prop) (n : nat) :
  ensures o m Q ->
  ensures o (replicateM n m) (fun l => Forall Q l /\ length l = n).
Proof.
  intros Hm. induction n as [|n IH]; cbn [replicateM].
  - apply ensures_ret. split; [constructor | reflexivity].
  - eapply ensures_bind; [exact Hm|]. intros a Ha.
    eapply ensures_bind; [exact IH|]. intros l [Hl Hn].
    apply ensures_ret. split; [constructor; assumption | cbn; lia].
Qed.

Lemma ensures_random (okR : R -> Prop) :
  (forall n, okR (randomAt o n)) -> ensures o Math_random okR.
Proof. intros H t. apply H. Qed.

End Ensures.

(* ================================================================== *)
(** * Every stage of the tick preserves the invariants of the cells *)

Section Invariant.
Variable P : PlayerCell -> Prop.
Variable Q : EjectedMass -> Prop.
Variable okR : R -> Prop.
Hypothesis HP : Preserved P Q okR.
Variable o : Oracle.
Hypothesis Ho : forall n, okR (randomAt o n).

Lemma cellsOk_nil : cellsOk P [].
Proof. split; [constructor | cbn; lia]. Qed.

Lemma cellsOk_one (c : PlayerCell) : P c -> cellsOk P [c].
Proof.
  intros H. split; [repeat constructor; assumption|].
  unfold MAX_CELLS. cbn. lia.
Qed.

Lemma spawnBot_ok : ensures o spawnBot (botOk P).
Proof.
  unfold spawnBot.
  apply ensures_then; intros startPos.
  eapply ensures_bind; [apply (ensures_random o okR Ho)|]. intros rnd Hrnd.
  repeat (apply ensures_then; intros ?).
  apply ensures_ret. apply cellsOk_one. apply (pr_spawnBot HP). exact Hrnd.
Qed.

Lemma spawnPlayer_ok (cv : Canvas) :
  stateOk P Q (state cv) ->
  ensures o (spawnPlayer cv) (fun cv' => stateOk P Q (state cv')).
Proof.
  intros (_ & Hb & He). unfold spawnPlayer.
  repeat (apply ensures_then; intros ?).
  apply ensures_ret. cbn. split; [|split; assumption].
  apply cellsOk_one. apply (pr_spawnPlayer HP).
Qed.

Lemma initWorld_ok (cv : Canvas) :
  ensures o (initWorld cv) (fun cv' => stateOk P Q (state cv')).
Proof.
  unfold initWorld.
  do 2 (apply ensures_then; intros ?).
  eapply ensures_bind; [apply ensures_replicateM; apply spawnBot_ok|].
  intros bs [Hbs _].
  apply ensures_then; intros started.
  eapply ensures_bind.
  - apply spawnPlayer_ok. cbn. split; [apply cellsOk_nil|].
    split; [exact Hbs | constructor].
  - intros cv' Hcv'. apply ensures_ret. exact Hcv'.
Qed.

Lemma playerRespawn_ok (now : R) (cv : Canvas) :
  stateOk P Q (state cv) ->
  ensures o (playerRespawn now cv) (fun cv' => stateOk P Q (state cv')).
Proof.
  intros H. unfold playerRespawn.
  destruct (playerCells (state cv)); [|apply ensures_ret; exact H].
  destruct (playerDeadAt cv); [|apply ensures_ret; exact H].
  destruct (0 <? _)%Z; [apply ensures_ret; exact H|].
  apply spawnPlayer_ok. exact H.
Qed.

Lemma botRespawn_ok (now : R) (bot : Bot) :
  botOk P bot -> ensures o (botRespawn now bot) (botOk P).
Proof.
  intros H. unfold botRespawn.
  destruct (b_cells bot) eqn:E; [|apply ensures_ret; exact H].
  destruct (notDeadAt (b_deadAt bot)).
  - apply ensures_ret. unfold botOk, setDeadAt. cbn. rewrite E.
    apply cellsOk_nil.
  - destruct (b_deadAt bot); [|apply ensures_ret; exact H].
    destruct (RESPAWN_DELAY_MS <? now - r); [apply spawnBot_ok|].
    apply ensures_ret; exact H.
Qed.

(** ** Split, eject, physics *)

Lemma splitLoop_ok (dirX dirY : R) (cells : list PlayerCell) :
  Forall P cells ->
  forall n,
    ensures o (splitLoop dirX dirY cells n)
            (fun r => Forall P (fst r) /\ Forall P (snd r)).
Proof.
  induction cells as [|cell rest IH]; intros Hc n; cbn [splitLoop].
  - apply ensures_ret. split; constructor.
  - inversion Hc as [|? ? Hcell Hrest]; subst.
    destruct ((MIN_MASS_TO_SPLIT <=? c_mass cell) && (n <? MAX_CELLS)%nat)
      eqn:G.
    + apply andb_prop in G. destruct G as [Gm _]. apply Rleb_le in Gm.
      do 3 (apply ensures_then; intros ?).
      eapply ensures_bind; [apply IH; assumption|].
      intros [rest' news] [H1 H2]. apply ensures_ret. cbn [fst snd] in *.
      assert (Hh : P (halved cell)) by (apply (pr_halved HP); assumption).
      split; constructor; try assumption.
      unfold sibling. apply (pr_clone HP). exact Hh.
    + eapply ensures_bind; [apply IH; assumption|].
      intros [rest' news] [H1 H2]. apply ensures_ret. cbn [fst snd] in *.
      split; [constructor|]; assumption.
Qed.

Lemma processSplit_length (dirX dirY : R) (cells : list PlayerCell) t :
  (length cells <= MAX_CELLS)%nat ->
  (length (fst (processSplit dirX dirY cells o t)) <= MAX_CELLS)%nat.
Proof.
  intros H. rewrite processSplit_result.
  pose proof (splitLoop_shape dirX dirY cells (length cells) o t) as S.
  cbv zeta in S. destruct S as (S1 & S2 & _).
  apply Forall2_length in S1.
  rewrite length_app, S2, <- S1. lia.
Qed.

Lemma processSplit_ok (dirX dirY : R) (cells : list PlayerCell) :
  cellsOk P cells -> ensures o (processSplit dirX dirY cells) (cellsOk P).
Proof.
  intros [Hc Hn] t. split; [|apply processSplit_length; exact Hn].
  rewrite processSplit_result.
  pose proof (splitLoop_ok dirX dirY Hc (length cells) t) as [H1 H2].
  apply Forall_app. split; assumption.
Qed.

Lemma ejectLoop_ok (dirX dirY : R) (cells : list PlayerCell) :
  Forall P cells ->
  ensures o (ejectLoop dirX dirY cells)
          (fun r => Forall P (fst r) /\ length (fst r) = length cells
                    /\ Forall Q (snd r)).
Proof.
  induction cells as [|cell rest IH]; intros Hc; cbn [ejectLoop].
  - apply ensures_ret. repeat split; constructor.
  - inversion Hc as [|? ? Hcell Hrest]; subst.
    rcase MIN_MASS_TO_EJECT (c_mass cell) G.
    + do 2 (apply ensures_then; intros ?).
      eapply ensures_bind; [apply IH; assumption|].
      intros [rest' blobs] (H1 & H2 & H3). apply ensures_ret.
      cbn [fst snd length] in *.
      split; [|split; [congruence|]]; constructor; try assumption.
      * apply (pr_ejectLoss HP); assumption.
      * apply (pr_ejecta HP).
    + eapply ensures_bind; [apply IH; assumption|].
      intros [rest' blobs] (H1 & H2 & H3). apply ensures_ret.
      cbn [fst snd length] in *.
      split; [constructor; assumption|]. split; [congruence | assumption].
Qed.

Lemma processEject_ok (dirX dirY : R) (cells : list PlayerCell)
      (ejected : list EjectedMass) :
  cellsOk P cells -> Forall Q ejected ->
  ensures o (processEject dirX dirY cells ejected)
          (fun r => cellsOk P (fst r) /\ Forall Q (snd r)).
Proof.
  intros [Hc Hn] He. unfold processEject.
  eapply ensures_bind; [apply ejectLoop_ok; exact Hc|].
  intros [cells' blobs] (H1 & H2 & H3). cbn [fst snd] in *.
  apply ensures_then; intros _. apply ensures_ret. cbn [fst snd].
  split; [split; [assumption | lia]|].
  apply Forall_app. split; assumption.
Qed.

Lemma clampToMap_ok (c : PlayerCell) : P c -> P (clampToMap c).
Proof. intros H. apply (pr_setPos HP). exact H. Qed.

Lemma swarmGravity_ok (comX comY : R) (c : PlayerCell) :
  P c -> P (swarmGravity comX comY c).
Proof.
  intros H. unfold swarmGravity.
  destruct (_ <? _); [apply (pr_setVel HP)|]; exact H.
Qed.

Lemma movePlayerCell_ok moveX moveY len comX comY several (c : PlayerCell) :
  P c -> P (movePlayerCell moveX moveY len comX comY several c).
Proof.
  intros H. unfold movePlayerCell, applyVelocity, applyFriction.
  apply clampToMap_ok. apply (pr_setPos HP). apply (pr_setVel HP).
  assert (Hd : P (decay c)) by (apply (pr_decay HP); exact H).
  destruct several; [apply swarmGravity_ok|];
    (destruct (0 <? len); [apply (pr_setVel HP)|]; exact Hd).
Qed.

Lemma playerPhysics_ok moveX moveY len (cells : list PlayerCell) :
  cellsOk P cells -> cellsOk P (playerPhysics moveX moveY len cells).
Proof.
  intros [Hc Hn]. unfold playerPhysics. split.
  - apply Forall_map. eapply Forall_impl; [|exact Hc].
    intros c. apply movePlayerCell_ok.
  - rewrite length_map. exact Hn.
Qed.

Lemma playerLogic_ok (cv : Canvas) :
  stateOk P Q (state cv) ->
  ensures o (playerLogic cv) (fun cv' => stateOk P Q (state cv')).
Proof.
  intros H. pose proof H as (Hp & Hb & He). unfold playerLogic.
  destruct (playerCells (state cv)) as [|c0 cs] eqn:E;
    [apply ensures_ret; exact H|].
  cbv zeta.
  eapply ensures_bind with (P := cellsOk P).
  { destruct (split (action cv));
      [apply processSplit_ok | apply ensures_ret]; exact Hp. }
  intros cells Hcells.
  eapply ensures_bind
    with (P := fun r => cellsOk P (fst r) /\ Forall Q (snd r)).
  { destruct (eject (action cv));
      [apply processEject_ok; assumption | apply ensures_ret; split; assumption]. }
  intros [cells' ejected] [H1 H2]. cbn [fst snd] in *.
  apply ensures_ret. cbn.
  split; [apply playerPhysics_ok; exact H1 | split; assumption].
Qed.

(** ** Self-collision and bots *)

Lemma collidePair_ok sound (c1 c2 : PlayerCell) :
  P c1 -> P c2 ->
  ensures o (collidePair sound c1 c2)
          (fun r => P (fst r) /\ forall c, snd r = Some c -> P c).
Proof.
  intros H1 H2. unfold collidePair.
  destruct (overlapping c1 c2).
  - apply ensures_then; intros now.
    destruct (canMerge now c1 c2).
    + apply ensures_then; intros _. apply ensures_ret. cbn.
      split; [apply (pr_merge HP); assumption | discriminate].
    + cbn. apply ensures_ret. cbn.
      split; [apply (pr_setPos HP); assumption|].
      intros c E. inversion E; subst. apply (pr_setPos HP). assumption.
  - apply ensures_ret. cbn. split; [assumption|].
    intros c E. inversion E; subst. assumption.
Qed.

Lemma collideInner_ok sound (rest : list PlayerCell) :
  Forall P rest ->
  forall c1, P c1 ->
    ensures o (collideInner sound c1 rest)
            (fun r => P (fst r) /\ Forall P (snd r)
                      /\ (length (snd r) <= length rest)%nat).
Proof.
  induction rest as [|c2 rest IH]; intros Hr c1 H1; cbn [collideInner].
  - apply ensures_ret. cbn. repeat split; [assumption | constructor | lia].
  - inversion Hr as [|? ? Hc2 Hrest]; subst.
    eapply ensures_bind; [apply collidePair_ok; eassumption|].
    intros [c1' kept] [Hc1' Hkept]. cbn [fst snd] in *.
    eapply ensures_bind; [apply IH; assumption|].
    intros [c1'' rest''] (Ha & Hb & Hc). cbn [fst snd] in *.
    apply ensures_ret. cbn [fst snd].
    split; [assumption|].
    destruct kept as [c2'|]; cbn [length].
    + split; [constructor; auto | lia].
    + split; [assumption | lia].
Qed.

Lemma collideOuter_ok sound (fuel : nat) :
  forall cells, Forall P cells ->
    ensures o (collideOuter sound fuel cells)
            (fun out => Forall P out /\ (length out <= length cells)%nat).
Proof.
  induction fuel as [|fuel IH]; intros cells Hc.
  - destruct cells; apply ensures_ret; split; auto.
  - destruct cells as [|c1 rest]; [apply ensures_ret; split; auto|].
    cbn [collideOuter]. inversion Hc as [|? ? Hc1 Hrest]; subst.
    eapply ensures_bind; [apply collideInner_ok; assumption|].
    intros [c1' rest'] (Ha & Hb & Hlen). cbn [fst snd] in *.
    eapply ensures_bind; [apply IH; exact Hb|].
    intros rest'' [Hd Hlen']. apply ensures_ret.
    split; [constructor; assumption | cbn [length]; lia].
Qed.

Lemma selfCollision_ok sound (cells : list PlayerCell) :
  cellsOk P cells -> ensures o (selfCollision sound cells) (cellsOk P).
Proof.
  intros [Hc Hn]. eapply ensures_weaken; [apply collideOuter_ok; exact Hc|].
  intros out [H1 H2]. split; [assumption | lia].
Qed.

Lemma sampleFood_any (n : nat) center fs :
  forall best, ensures o (sampleFood n center fs best) (fun _ => True).
Proof. intros best t. exact I. Qed.

Lemma retarget_cells center fs (bot : Bot) :
  ensures o (retarget center fs bot) (fun b => b_cells b = b_cells bot).
Proof.
  unfold retarget. apply ensures_then; intros rnd.
  destruct (_ || _); [|apply ensures_ret; reflexivity].
  apply ensures_then; intros [closest d].
  destruct closest.
  - apply ensures_ret. reflexivity.
  - apply ensures_then; intros p. apply ensures_ret. reflexivity.
Qed.

Lemma moveBotCell_ok tx ty (c : PlayerCell) : P c -> P (moveBotCell tx ty c).
Proof.
  intros H. unfold moveBotCell, applyVelocity, applyFriction.
  apply clampToMap_ok. apply (pr_setPos HP). do 2 apply (pr_setVel HP).
  apply (pr_decay HP). exact H.
Qed.

Lemma botLogic_ok fs players (bot : Bot) :
  botOk P bot -> ensures o (botLogic fs players bot) (botOk P).
Proof.
  intros H. unfold botLogic.
  destruct (b_cells bot) as [|c0 cs] eqn:E; [apply ensures_ret; exact H|].
  cbv zeta.
  eapply ensures_bind; [apply retarget_cells|].
  intros bot' Hb'. rewrite E in Hb'.
  destruct (match findThreat _ _ _ _ with Some _ => _ | None => _ end)
    as [tx ty].
  eapply ensures_bind.
  - apply selfCollision_ok. rewrite Hb'.
    destruct H as [Hc Hn]. rewrite E in Hc, Hn. split.
    + apply Forall_map. eapply Forall_impl; [|exact Hc].
      intros c. apply moveBotCell_ok.
    + rewrite length_map. exact Hn.
  - intros cells Hcells. apply ensures_ret. exact Hcells.
Qed.

(** ** Food *)

Lemma botEaters_ok (bs : list Bot) :
  Forall (botOk P) bs -> forall idx, Forall (eaterOk P) (botEaters idx bs).
Proof.
  induction bs as [|b bs IH]; intros Hb idx; cbn [botEaters];
    [constructor|].
  inversion Hb as [|? ? [Hcells _] Hrest]; subst.
  apply Forall_app. split; [|apply IH; assumption].
  apply Forall_map. eapply Forall_impl; [|exact Hcells].
  intros c Hc. exact Hc.
Qed.

Lemma allEaters_ok (players : list PlayerCell) (bs : list Bot) :
  Forall P players -> Forall (botOk P) bs ->
  Forall (eaterOk P) (allEaters players bs).
Proof.
  intros Hp Hb. unfold allEaters. apply Forall_app. split.
  - apply Forall_map. eapply Forall_impl; [|exact Hp]. intros c Hc. exact Hc.
  - apply botEaters_ok. exact Hb.
Qed.

Lemma feed_ok (food : Food) (eaters : list Eater) :
  Forall (eaterOk P) eaters ->
  forall eaters' byBot,
    feed food eaters = Some (eaters', byBot) -> Forall (eaterOk P) eaters'.
Proof.
  induction eaters as [|e rest IH]; intros He eaters' byBot E;
    cbn [feed] in E; [discriminate|].
  inversion He as [|? ? He1 Hrest]; subst.
  destruct (eats e food).
  - inversion E; subst. constructor; [|assumption].
    unfold eaterOk, fed. cbn. apply (pr_fed HP). exact He1.
  - destruct (feed food rest) as [[rest' b]|]; [|discriminate].
    inversion E; subst. constructor; [assumption|].
    eapply IH; [assumption | reflexivity].
Qed.

Lemma foodLoop_ok (i : nat) :
  forall fs eaters sc eatenCount,
    Forall (eaterOk P) eaters ->
    Forall (eaterOk P) (snd (fst (fst (foodLoop i fs eaters sc eatenCount)))).
Proof.
  induction i as [|i IH]; intros fs eaters sc eatenCount He;
    cbn [foodLoop]; [exact He|].
  destruct (nth_error fs i) as [food|]; [|apply IH; exact He].
  destruct (feed food eaters) as [[eaters' byBot]|] eqn:E;
    [|apply IH; exact He].
  pose proof (feed_ok food He E) as He'.
  destruct byBot; apply IH; exact He'.
Qed.

Lemma restoreBots_ok (bs : list Bot) :
  Forall (botOk P) bs ->
  forall cells, Forall P cells -> Forall (botOk P) (restoreBots bs cells).
Proof.
  induction bs as [|b bs IH]; intros Hb cells Hc; cbn [restoreBots];
    [constructor|].
  inversion Hb as [|? ? [_ Hn] Hrest]; subst.
  constructor.
  - split; cbn.
    + apply firstn_Forall. exact Hc.
    + pose proof (firstn_le_length (length (b_cells b)) cells). lia.
  - apply IH; [assumption|]. apply skipn_Forall. exact Hc.
Qed.

Lemma foodStage_ok (s : GameState) :
  stateOk P Q s -> ensures o (foodStage s) (stateOk P Q).
Proof.
  intros ([Hp Hn] & Hb & He). unfold foodStage.
  pose proof (foodLoop_ok (length (foods s)) (foods s) (score s) 0
                          (allEaters_ok Hp Hb)) as HL.
  destruct (foodLoop _ _ _ _ _) as [[[fs eaters'] sc] eatenCount].
  cbn [fst snd] in HL.
  do 2 (apply ensures_then; intros ?).
  apply ensures_ret.
  assert (Hcells : Forall P (map eater_cell eaters')).
  { apply Forall_map. exact HL. }
  split; [|split]; cbn.
  - split; [apply firstn_Forall; exact Hcells|].
    pose proof (firstn_le_length (length (playerCells s))
                                 (map eater_cell eaters')). lia.
  - apply restoreBots_ok; [exact Hb|]. apply skipn_Forall. exact Hcells.
  - exact He.
Qed.

(** ** Player against bots *)

Lemma vsPlayers_ok (k : nat) :
  forall bCell players sc,
    P bCell -> Forall P players ->
    ensures o (vsPlayers k bCell players sc)
            (fun r => (forall c, fst (fst r) = Some c -> P c)
                      /\ Forall P (snd (fst r))
                      /\ (length (snd (fst r)) <= length players)%nat).
Proof.
  induction k as [|k IH]; intros bCell players sc Hb Hp; cbn [vsPlayers].
  - apply ensures_ret. cbn. split; [|split; [assumption | lia]].
    intros c E. inversion E; subst. exact Hb.
  - destruct (nth_error players k) as [pCell|] eqn:E;
      [|apply IH; assumption].
    pose proof (nth_error_Forall k Hp E) as HpCell.
    destruct (playerEatsBot pCell bCell).
    + apply ensures_then; intros _. apply ensures_ret. cbn.
      split; [discriminate|]. split.
      * apply setAt_Forall; [apply (pr_absorb HP)|]; assumption.
      * rewrite setAt_length. lia.
    + destruct (botEatsPlayer pCell bCell); [|apply IH; assumption].
      eapply ensures_weaken.
      * apply IH; [apply (pr_absorb HP); assumption|].
        apply splice1_Forall. exact Hp.
      * intros r (H1 & H2 & H3). split; [exact H1|]. split; [exact H2|].
        pose proof (splice1_length k players). lia.
Qed.

Lemma botCellsLoop_ok (j : nat) :
  forall cells players sc,
    Forall P cells -> Forall P players ->
    ensures o (botCellsLoop j cells players sc)
            (fun r => Forall P (fst (fst r))
                      /\ (length (fst (fst r)) <= length cells)%nat
                      /\ Forall P (snd (fst r))
                      /\ (length (snd (fst r)) <= length players)%nat).
Proof.
  induction j as [|j IH]; intros cells players sc Hc Hp; cbn [botCellsLoop].
  - apply ensures_ret. cbn. repeat split; auto.
  - destruct (nth_error cells j) as [bCell|] eqn:E; [|apply IH; assumption].
    eapply ensures_bind.
    { apply vsPlayers_ok; [exact (nth_error_Forall j Hc E) | exact Hp]. }
    intros [[survivor players'] sc'] (H1 & H2 & H3). cbn [fst snd] in *.
    destruct survivor as [bCell'|].
    + eapply ensures_weaken.
      * apply IH; [|exact H2]. apply setAt_Forall; [|exact Hc].
        apply H1. reflexivity.
      * intros r (A1 & A2 & A3 & A4). rewrite setAt_length in A2.
        repeat split; auto; lia.
    + eapply ensures_weaken.
      * apply IH; [|exact H2]. apply splice1_Forall. exact Hc.
      * intros r (A1 & A2 & A3 & A4).
        pose proof (splice1_length j cells).
        repeat split; auto; lia.
Qed.

Lemma botsLoop_ok (i : nat) :
  forall bs players sc,
    Forall (botOk P) bs -> cellsOk P players ->
    ensures o (botsLoop i bs players sc)
            (fun r => Forall (botOk P) (fst (fst r))
                      /\ cellsOk P (snd (fst r))).
Proof.
  induction i as [|i IH]; intros bs players sc Hb Hp; cbn [botsLoop].
  - apply ensures_ret. cbn. split; assumption.
  - destruct (nth_error bs i) as [bot|] eqn:E; [|apply IH; assumption].
    destruct (nth_error_Forall i Hb E) as [Hcells Hn].
    destruct Hp as [Hp Hpn].
    eapply ensures_bind; [apply botCellsLoop_ok; eassumption|].
    intros [[cells players'] sc'] (A1 & A2 & A3 & A4). cbn [fst snd] in *.
    apply IH.
    + apply setAt_Forall; [|exact Hb]. split; cbn; [exact A1 | lia].
    + split; [exact A3 | lia].
Qed.

Lemma crossStage_ok (s : GameState) :
  stateOk P Q s -> ensures o (crossStage s) (stateOk P Q).
Proof.
  intros (Hp & Hb & He). unfold crossStage.
  eapply ensures_bind; [apply botsLoop_ok; eassumption|].
  intros [[bs players] sc] [H1 H2]. cbn [fst snd] in *.
  apply ensures_ret. split; [|split]; assumption.
Qed.

(** ** Viruses *)

Lemma fragment_ok (cell : PlayerCell) :
  P cell -> ensures o (fragment cell (c_mass cell)) P.
Proof.
  intros H. unfold fragment.
  repeat (apply ensures_then; intros ?).
  apply ensures_ret. apply (pr_clone HP). exact H.
Qed.

Lemma piecesFor_bound (n : nat) :
  (0 < piecesFor n)%Z -> (n + Z.to_nat (piecesFor n) <= MAX_CELLS)%nat.
Proof. unfold piecesFor, MAX_CELLS. lia. Qed.

Lemma explode_ok (j : nat) (cell : PlayerCell) (players : list PlayerCell) :
  P cell -> cellsOk P players ->
  ensures o (explode j cell players) (cellsOk P).
Proof.
  intros Hc [Hp Hn]. unfold explode.
  apply ensures_then; intros _. cbv zeta.
  assert (Hbonus : P (setMass cell (c_mass cell + VIRUS_BONUS_MASS)
                        (massToRadius (c_mass cell + VIRUS_BONUS_MASS))))
    by (apply (pr_bonus HP); exact Hc).
  destruct (0 <? piecesFor (length players))%Z eqn:G.
  - apply Z.ltb_lt in G.
    set (big := setMass cell _ _) in *.
    set (small := setMass big _ _).
    assert (Hsmall : P small) by (apply (pr_shatter HP); assumption).
    eapply ensures_bind.
    { apply ensures_replicateM.
      change (c_mass big / IZR (piecesFor (length players) + 1))
        with (c_mass small).
      apply fragment_ok. exact Hsmall. }
    intros frags [Hf Hlen]. apply ensures_ret. split.
    + apply Forall_app. split; [|exact Hf].
      apply setAt_Forall; assumption.
    + rewrite length_app, setAt_length, Hlen.
      apply piecesFor_bound. exact G.
  - apply ensures_ret. split.
    + apply setAt_Forall; assumption.
    + rewrite setAt_length. exact Hn.
Qed.

Lemma virusVsPlayers_ok (j : nat) (virus : Virus)
      (players : list PlayerCell) :
  cellsOk P players ->
  ensures o (virusVsPlayers j virus players)
          (fun r => forall ps, r = Some ps -> cellsOk P ps).
Proof.
  intros Hp. induction j as [|j IH]; cbn [virusVsPlayers].
  - apply ensures_ret. discriminate.
  - destruct (nth_error players j) as [cell|] eqn:E; [|exact IH].
    destruct (hitsVirus cell virus); [|exact IH].
    eapply ensures_bind.
    + apply explode_ok; [|exact Hp].
      destruct Hp as [Hp _]. exact (nth_error_Forall j Hp E).
    + intros players' H'. apply ensures_ret.
      intros ps Eps. inversion Eps; subst. exact H'.
Qed.

Lemma botsHitVirus_ok (virus : Virus) (bs : list Bot) :
  Forall (botOk P) bs -> Forall (botOk P) (fst (botsHitVirus virus bs)).
Proof.
  intros Hb. unfold botsHitVirus. cbn [fst].
  apply Forall_map. eapply Forall_impl; [|exact Hb].
  intros b [Hc Hn]. split; cbn.
  - apply Forall_map. eapply Forall_impl; [|exact Hc].
    intros c. apply (pr_botVirus HP).
  - rewrite length_map. exact Hn.
Qed.

Lemma virusLoop_ok (i : nat) :
  forall vs players bs,
    cellsOk P players -> Forall (botOk P) bs ->
    ensures o (virusLoop i vs players bs)
            (fun r => cellsOk P (snd (fst r)) /\ Forall (botOk P) (snd r)).
Proof.
  induction i as [|i IH]; intros vs players bs Hp Hb; cbn [virusLoop].
  - apply ensures_ret. split; assumption.
  - destruct (nth_error vs i) as [virus|]; [|apply IH; assumption].
    eapply ensures_bind; [apply virusVsPlayers_ok; exact Hp|].
    intros hit Hhit. destruct hit as [players'|].
    + apply IH; [apply Hhit; reflexivity | exact Hb].
    + pose proof (botsHitVirus_ok virus Hb) as Hb'.
      destruct (botsHitVirus virus bs) as [bs' exploded]. cbn [fst] in Hb'.
      destruct exploded; apply IH; assumption.
Qed.

Lemma virusStage_ok (s : GameState) :
  stateOk P Q s -> ensures o (virusStage s) (stateOk P Q).
Proof.
  intros (Hp & Hb & He). unfold virusStage.
  eapply ensures_bind; [apply virusLoop_ok; eassumption|].
  intros [[vs players] bs] [H1 H2]. cbn [fst snd] in *.
  apply ensures_ret. split; [|split]; assumption.
Qed.

(** ** Ejected mass *)

Lemma moveBlob_ok (b : EjectedMass) : Q b -> Q (moveBlob b).
Proof.
  intros H. unfold moveBlob, advance.
  do 2 (apply (pr_blobY HP); apply (pr_blobX HP)).
  assert (H1 : Q (bounceLeft b))
    by (unfold bounceLeft; destruct (_ <=? _); [apply (pr_blobX HP)|]; exact H).
  assert (H2 : Q (bounceRight (bounceLeft b)))
    by (unfold bounceRight; destruct (_ <=? _); [apply (pr_blobX HP)|];
        exact H1).
  assert (H3 : Q (bounceTop (bounceRight (bounceLeft b))))
    by (unfold bounceTop; destruct (_ <=? _); [apply (pr_blobY HP)|];
        exact H2).
  unfold bounce, bounceBottom.
  destruct (_ <=? _); [apply (pr_blobY HP)|]; exact H3.
Qed.

Lemma blobVsPlayers_ok (blob : EjectedMass) (cells : list PlayerCell) :
  Q blob -> Forall P cells ->
  ensures o (blobVsPlayers blob cells)
          (fun r => forall cs, r = Some cs ->
                               Forall P cs /\ length cs = length cells).
Proof.
  intros Hq. induction cells as [|cell rest IH]; intros Hc;
    cbn [blobVsPlayers].
  - apply ensures_ret. discriminate.
  - inversion Hc as [|? ? Hcell Hrest]; subst.
    assert (Hnext : ensures o
              (r <- blobVsPlayers blob rest ;; ret (option_map (cons cell) r))
              (fun r => forall cs, r = Some cs ->
                          Forall P cs /\ length cs = length (cell :: rest))).
    { eapply ensures_bind; [apply IH; exact Hrest|].
      intros r Hr. apply ensures_ret. intros cs E.
      destruct r as [cs'|]; [|discriminate]. inversion E; subst.
      destruct (Hr cs' eq_refl) as [A B].
      split; [constructor; assumption | cbn; congruence]. }
    destruct (touches cell blob); [|exact Hnext].
    apply ensures_then; intros own.
    destruct own; [exact Hnext|].
    destruct (bigEnough cell blob); [|exact Hnext].
    apply ensures_ret. intros cs E. inversion E; subst.
    split; [|reflexivity]. constructor; [|exact Hrest].
    apply (pr_swallow HP); assumption.
Qed.

Lemma blobVsCells_ok (blob : EjectedMass) (cells : list PlayerCell) :
  Q blob -> Forall P cells ->
  forall cs, blobVsCells blob cells = Some cs ->
             Forall P cs /\ length cs = length cells.
Proof.
  intros Hq. induction cells as [|cell rest IH]; intros Hc cs E;
    cbn [blobVsCells] in E; [discriminate|].
  inversion Hc as [|? ? Hcell Hrest]; subst.
  destruct (touches cell blob && bigEnough cell blob).
  - inversion E; subst. split; [|reflexivity].
    constructor; [|exact Hrest]. apply (pr_swallow HP); assumption.
  - destruct (blobVsCells blob rest) as [cs'|]; [|discriminate].
    inversion E; subst. destruct (IH Hrest cs' eq_refl) as [A B].
    split; [constructor; assumption | cbn; congruence].
Qed.

Lemma blobVsBots_ok (blob : EjectedMass) (bs : list Bot) :
  Q blob -> Forall (botOk P) bs ->
  forall bs', blobVsBots blob bs = Some bs' -> Forall (botOk P) bs'.
Proof.
  intros Hq. induction bs as [|bot bs IH]; intros Hb bs' E;
    cbn [blobVsBots] in E; [discriminate|].
  inversion Hb as [|? ? [Hc Hn] Hrest]; subst.
  destruct (blobVsCells blob (b_cells bot)) as [cells|] eqn:Ec.
  - inversion E; subst. constructor; [|exact Hrest].
    destruct (blobVsCells_ok Hq Hc Ec) as [A B].
    split; cbn; [exact A | lia].
  - destruct (blobVsBots blob bs) as [bs''|]; [|discriminate].
    inversion E; subst. constructor; [split; assumption|].
    apply IH; [assumption | reflexivity].
Qed.

Lemma ejectedLoop_ok (i : nat) :
  forall blobs players bs consumed,
    Forall Q blobs -> cellsOk P players -> Forall (botOk P) bs ->
    ensures o (ejectedLoop i blobs players bs consumed)
            (fun r => Forall Q (fst (fst (fst r)))
                      /\ cellsOk P (snd (fst (fst r)))
                      /\ Forall (botOk P) (snd (fst r))).
Proof.
  induction i as [|i IH]; intros blobs players bs consumed Hq Hp Hb;
    cbn [ejectedLoop].
  - apply ensures_ret. cbn. split; [|split]; assumption.
  - destruct (nth_error blobs i) as [blob|] eqn:E; [|apply IH; assumption].
    cbv zeta.
    assert (Hblob : Q (moveBlob blob))
      by (apply moveBlob_ok; exact (nth_error_Forall i Hq E)).
    assert (Hq' : Forall Q (setAt i (moveBlob blob) blobs))
      by (apply setAt_Forall; assumption).
    destruct Hp as [Hp Hn].
    eapply ensures_bind; [apply blobVsPlayers_ok; eassumption|].
    intros hit Hhit. destruct hit as [players'|].
    + destruct (Hhit players' eq_refl) as [A B].
      apply IH; [apply swapPop_Forall; exact Hq' | split; [exact A | lia]
                 | exact Hb].
    + destruct (blobVsBots (moveBlob blob) bs) as [bs'|] eqn:Eb.
      * apply IH; [apply swapPop_Forall; exact Hq' | split; assumption|].
        eapply blobVsBots_ok; eassumption.
      * apply IH; [exact Hq' | split; assumption | exact Hb].
Qed.

Lemma capEjected_ok (blobs : list EjectedMass) :
  Forall Q blobs -> Forall Q (capEjected blobs).
Proof.
  intros H. unfold capEjected, spliceFront.
  destruct (_ <? _)%nat; [apply skipn_Forall|]; exact H.
Qed.

Lemma ejectedStage_ok (s : GameState) :
  stateOk P Q s -> ensures o (ejectedStage s) (stateOk P Q).
Proof.
  intros (Hp & Hb & He). unfold ejectedStage.
  eapply ensures_bind; [apply ejectedLoop_ok; eassumption|].
  intros [[[blobs players] bs] consumed] (H1 & H2 & H3). cbn [fst snd] in *.
  apply ensures_then; intros _.
  apply ensures_ret. split; [|split]; cbn; try assumption.
  apply capEjected_ok. exact H1.
Qed.

(** ** The whole tick *)

Lemma updateCamera_ok (s : GameState) :
  stateOk P Q s -> stateOk P Q (updateCamera s).
Proof.
  intros H. unfold updateCamera.
  destruct (playerCells s) eqn:E; [exact H|].
  destruct H as (Hp & Hb & He). rewrite E in Hp.
  split; [|split]; cbn; try assumption. rewrite E. exact Hp.
Qed.

Lemma simulate_ok (now : R) (cv : Canvas) :
  stateOk P Q (state cv) ->
  ensures o (simulate now cv) (fun cv' => stateOk P Q (state cv')).
Proof.
  intros H. unfold simulate.
  eapply ensures_bind; [apply playerRespawn_ok; exact H|].
  intros cv1 (Hp1 & Hb1 & He1).
  eapply ensures_bind.
  { apply ensures_mapM with (P := botOk P); [|exact Hb1].
    intros b Hb. apply botRespawn_ok. exact Hb. }
  intros bs Hbs.
  eapply ensures_bind.
  { apply playerLogic_ok. cbn. split; [|split]; eassumption. }
  intros cv2 (Hp2 & Hb2 & He2). cbv zeta.
  eapply ensures_bind.
  { apply ensures_mapM with (P := botOk P); [|exact Hb2].
    intros b Hb. apply botLogic_ok. exact Hb. }
  intros bs2 Hbs2.
  eapply ensures_bind; [apply selfCollision_ok; exact Hp2|].
  intros players Hplayers.
  eapply ensures_bind.
  { apply foodStage_ok. cbn. split; [|split]; eassumption. }
  intros s3 H3.
  eapply ensures_bind; [apply crossStage_ok; exact H3|]. intros s4 H4.
  eapply ensures_bind; [apply virusStage_ok; exact H4|]. intros s5 H5.
  eapply ensures_bind; [apply ejectedStage_ok; exact H5|]. intros s6 H6.
  apply ensures_ret. cbn. apply updateCamera_ok. exact H6.
Qed.

Lemma update_ok (cv : Canvas) :
  stateOk P Q (state cv) ->
  ensures o (update cv) (fun cv' => stateOk P Q (state cv')).
Proof.
  intros H. unfold update.
  destruct (negb (gameStarted (state cv)) || gameOver (state cv));
    [apply ensures_ret; exact H|].
  apply ensures_then; intros now.
  destruct (gameEndTime (state cv) <=? now).
  - do 2 (apply ensures_then; intros _). apply ensures_ret. exact H.
  - apply simulate_ok. exact H.
Qed.

Lemma reachable_ok (cv : Canvas) :
  reachable o cv -> stateOk P Q (state cv).
Proof.
  induction 1 as [cv t | cv t Hr IH | cv keys intents Hr IH].
  - apply initWorld_ok.
  - apply update_ok. exact IH.
  - exact IH.
Qed.

End Invariant.

(* ================================================================== *)
(** * The three invariants *)

Lemma preserved_any : Preserved anyCell anyBlob anyNumber.
Proof. constructor; intros; exact I. Qed.

Lemma decay_synced (c : PlayerCell) : synced c -> synced (decay c).
Proof.
  intros H. unfold decay. destruct (_ <? _); [reflexivity | exact H].
Qed.

Lemma botCellHitsVirus_synced (v : Virus) (c : PlayerCell) :
  synced c -> synced (botCellHitsVirus v c).
Proof.
  intros H. unfold botCellHitsVirus.
  destruct (hitsVirus c v); [reflexivity | exact H].
Qed.

Lemma preserved_synced : Preserved synced anyBlob anyNumber.
Proof.
  constructor; intros; try exact I; try reflexivity; try assumption.
  - apply decay_synced. assumption.
  - apply botCellHitsVirus_synced. assumption.
Qed.


Lemma stateOk_withinCap P Q (s : GameState) : stateOk P Q s -> withinCap s.
Proof.
  intros ([_ Hn] & Hb & _). split; [exact Hn|].
  eapply Forall_impl; [|exact Hb]. intros b [_ H]. exact H.
Qed.

Lemma withinCap_stateOk (s : GameState) :
  withinCap s -> stateOk anyCell anyBlob s.
Proof.
  intros [Hn Hb].
  assert (Hany : forall l : list PlayerCell, Forall anyCell l).
  { intros l. apply Forall_forall. intros; exact I. }
  split; [split; [apply Hany | exact Hn]|]. split.
  - eapply Forall_impl; [|exact Hb]. intros b H. split; [apply Hany | exact H].
  - apply Forall_forall. intros; exact I.
Qed.

Lemma stateOk_allSynced Q (s : GameState) : stateOk synced Q s -> allSynced s.
Proof.
  intros ([Hp _] & Hb & _). split; [exact Hp|].
  eapply Forall_impl; [|exact Hb]. intros b [H _]. exact H.
Qed.

Lemma explode_length (j : nat) (cell : PlayerCell) (players : list PlayerCell)
      (o : Oracle) (t : Tape) :
  length (fst (explode j cell players o t))
  = (length players + Z.to_nat (piecesFor (length players)))%nat.
Proof.
  unfold explode, bind. cbn [emit].
  destruct (0 <? piecesFor (length players))%Z eqn:G.
  - match goal with
    | |- context [ replicateM ?n ?m o ?t' ] =>
      pose proof (ensures_replicateM (o := o) (Q := fun _ => True) n
                    (m := m) (fun _ => I) t') as [_ Hlen];
        destruct (replicateM n m o t') as [frags t'']
    end.
    cbn [fst snd ret] in *. rewrite length_app, setAt_length, Hlen.
    reflexivity.
  - apply Z.ltb_ge in G. cbn [fst ret]. rewrite setAt_length. lia.
Qed.

(** C4. In every canvas a match goes through, no actor has more than
    [MAX_CELLS] cells, and a tick keeps every actor within the cap; a split
    intent never takes the player beyond the cap (its count is compared
    again before each split of the batch); a virus explosion adds
    [min(MAX_CELLS - count, 6)] fragments, or none when that is not
    positive. *)
Theorem cell_count_capped (o : Oracle) (cv : Canvas) (t : Tape) :
  (reachable o cv -> withinCap (state cv))
  /\ (withinCap (state cv) -> withinCap (state (fst (update cv o t))))
  /\ (forall dirX dirY cells,
         (length cells <= MAX_CELLS)%nat ->
         (length (fst (processSplit dirX dirY cells o t)) <= MAX_CELLS)%nat
         /\ length (fst (processSplit dirX dirY cells o t))
            = (length cells
               + Nat.min (splittable cells) (MAX_CELLS - length cells))%nat)
  /\ (forall j cell players,
         length (fst (explode j cell players o t))
         = (length players
            + Z.to_nat (Z.min (Z.of_nat MAX_CELLS - Z.of_nat (length players))
                              6))%nat).
Proof.
  split; [|split; [|split]].
  - intros Hr. eapply stateOk_withinCap.
    apply (reachable_ok preserved_any (o := o) (fun _ => I) Hr).
  - intros H. eapply stateOk_withinCap.
    apply (update_ok preserved_any o (fun _ => I)).
    apply withinCap_stateOk. exact H.
  - intros dirX dirY cells H. split.
    + apply processSplit_length. exact H.
    + rewrite processSplit_result.
      pose proof (splitLoop_shape dirX dirY cells (length cells) o t) as S.
      cbv zeta in S. destruct S as (S1 & S2 & _).
      apply Forall2_length in S1. rewrite length_app, S2, <- S1. reflexivity.
  - intros j cell players. apply explode_length.
Qed.

Lemma massToRadius_radiusToMass (r : R) :
  0 <= r -> massToRadius (radiusToMass r) = r.
Proof.
  intros Hr. unfold massToRadius, radiusToMass, Math_sqrt.
  pose proof PI_pos as Hpi.
  replace (r * r * Math_PI / 100 * 100 / Math_PI) with (r * r)
    by (field; lra).
  apply sqrt_square. exact Hr.
Qed.

Lemma radiusToMass_massToRadius (m : R) :
  0 <= m -> radiusToMass (massToRadius m) = m.
Proof.
  intros Hm. unfold massToRadius, radiusToMass, Math_sqrt.
  pose proof PI_pos as Hpi.
  rewrite sqrt_sqrt.
  - field. lra.
  - unfold Rdiv. apply Rmult_le_pos; [lra|].
    apply Rlt_le, Rinv_0_lt_compat. exact Hpi.
Qed.

(** C5. On the reals [massToRadius] and [radiusToMass] are inverse to each
    other on the non-negative numbers; every operation of the tick that
    changes a mass leaves the radius of that mass ([Preserved synced]); so
    in every canvas a match goes through every cell of the player and of the
    bots has the radius of its mass, and a tick keeps it so. *)
Theorem radius_follows_mass :
  (forall r, 0 <= r -> massToRadius (radiusToMass r) = r)
  /\ (forall m, 0 <= m -> radiusToMass (massToRadius m) = m)
  /\ Preserved synced anyBlob anyNumber
  /\ (forall o cv, reachable o cv -> allSynced (state cv))
  /\ (forall o cv t,
         allSynced (state cv) -> withinCap (state cv) ->
         allSynced (state (fst (update cv o t)))).
Proof.
  split; [exact massToRadius_radiusToMass|].
  split; [exact radiusToMass_massToRadius|].
  split; [exact preserved_synced|]. split.
  - intros o cv Hr. eapply stateOk_allSynced.
    apply (reachable_ok preserved_synced (o := o) (fun _ => I) Hr).
  - intros o cv t [Hp Hb] [Hn Hbn]. eapply stateOk_allSynced.
    apply (update_ok preserved_synced o (fun _ => I)).
    split; [split; assumption|]. split.
    + rewrite Forall_forall in *. intros b Hin.
      split; [apply Hb | apply Hbn]; exact Hin.
    + apply Forall_forall. intros; exact I.
Qed.

(* ================================================================== *)
(** * Adequacy of the embedding *)

(** ** The fuel of the outer self-collision loop is enough *)



(** ** The indices of the backward loops stay within the array *)

Lemma removelast_length {A} (a : list A) :
  length (removelast a) = (length a - 1)%nat.
Proof.
  induction a as [|h a IH]; [reflexivity|].
  destruct a as [|h' a]; [reflexivity|].
  change (removelast (h :: h' :: a)) with (h :: removelast (h' :: a)).
  cbn [length] in *. rewrite IH. lia.
Qed.

Lemma swapPop_length {A} (i : nat) (a : list A) :
  (i < length a)%nat -> length (swapPop i a) = (length a - 1)%nat.
Proof.
  intros H. unfold swapPop.
  destruct (nth_error a (length a - 1)) as [x|] eqn:E.
  - rewrite removelast_length, setAt_length. reflexivity.
  - apply nth_error_None in E. lia.
Qed.

(** ** Writing the eaters back puts every cell where it came from *)

Lemma botEaters_cells (bs : list Bot) :
  forall idx, map eater_cell (botEaters idx bs) = concat (map b_cells bs).
Proof.
  induction bs as [|b bs IH]; intros idx; cbn [botEaters map concat].
  - reflexivity.
  - rewrite map_app, map_map, IH. cbn [eater_cell]. rewrite map_id.
    reflexivity.
Qed.

Lemma restoreBots_same (bs : list Bot) :
  restoreBots bs (concat (map b_cells bs)) = bs.
Proof.
  induction bs as [|b bs IH]; cbn [restoreBots map concat]; [reflexivity|].
  rewrite firstn_app, Nat.sub_diag, firstn_all. cbn [firstn].
  rewrite app_nil_r, skipn_app, Nat.sub_diag, skipn_all. cbn [skipn app].
  rewrite IH. destruct b; reflexivity.
Qed.

Lemma eaters_written_back (players : list PlayerCell) (bs : list Bot) :
  let cells := map eater_cell (allEaters players bs) in
  firstn (length players) cells = players
  /\ restoreBots bs (skipn (length players) cells) = bs.
Proof.
  cbv zeta. unfold allEaters.
  rewrite map_app, map_map, botEaters_cells. cbn [eater_cell].
  rewrite map_id. split.
  - rewrite firstn_app, Nat.sub_diag, firstn_all. cbn [firstn].
    apply app_nil_r.
  - rewrite skipn_app, Nat.sub_diag, skipn_all. cbn [skipn app].
    apply restoreBots_same.
Qed.

(** ** A pellet feeds the first eater that matches, and no other *)

Lemma feed_first_eater (food : Food) (eaters : list Eater) :
  forall eaters' byBot,
    feed food eaters = Some (eaters', byBot) ->
    exists before eater after,
      eaters = before ++ eater :: after
      /\ eaters' = before ++ fed eater :: after
      /\ eats eater food = true
      /\ Forall (fun e => eats e food = false) before
      /\ byBot = eater_isBot eater.
Proof.
  induction eaters as [|e rest IH]; intros eaters' byBot E; cbn [feed] in E;
    [discriminate|].
  destruct (eats e food) eqn:He.
  - inversion E; subst. exists [], e, rest.
    repeat split; auto.
  - destruct (feed food rest) as [[rest' b]|] eqn:Er; [|discriminate].
    inversion E; subst.
    destruct (IH rest' byBot eq_refl) as (before & eater & after & H1 & H2
                                          & H3 & H4 & H5).
    exists (e :: before), eater, after. subst.
    repeat split; auto.
Qed.

(** ** The world [initWorld] builds *)

Lemma spawnPlayer_state (cv : Canvas) (o : Oracle) :
  ensures o (spawnPlayer cv)
          (fun cv' => exists c cam,
               state cv' = setCamera (setPlayerCells (state cv) [c]) cam 1).
Proof.
  unfold spawnPlayer. repeat (apply ensures_then; intros ?).
  apply ensures_ret. eexists. eexists. reflexivity.
Qed.

Lemma initWorld_counts (cv : Canvas) (o : Oracle) :
  ensures o (initWorld cv)
          (fun cv' =>
             let s := state cv' in
             length (foods s) = FOOD_TARGET
             /\ length (viruses s) = VIRUS_TARGET
             /\ length (bots s) = BOT_COUNT
             /\ length (playerCells s) = 1%nat
             /\ ejectedMass s = []
             /\ score s = 0%Z
             /\ gameOver s = false /\ gameStarted s = true).
Proof.
  unfold initWorld.
  eapply ensures_bind;
    [apply ensures_replicateM with (Q := fun _ => True); intros t; exact I|].
  intros fs [_ Hf].
  eapply ensures_bind;
    [apply ensures_replicateM with (Q := fun _ => True); intros t; exact I|].
  intros vs [_ Hv].
  eapply ensures_bind;
    [apply ensures_replicateM with (Q := fun _ => True); intros t; exact I|].
  intros bs [_ Hb].
  apply ensures_then; intros started.
  eapply ensures_bind; [apply spawnPlayer_state|].
  intros cv' (c & cam & E). apply ensures_ret. cbv zeta.
  cbn [state]. rewrite E. cbn. repeat split; assumption.
Qed.

(* ================================================================== *)
(** * The lifecycle fields and the score, stage by stage *)

Lemma sameMatch_refl (s : GameState) : sameMatch s s.
Proof. repeat split. Qed.

Lemma sameMatch_trans (s1 s2 s3 : GameState) :
  sameMatch s1 s2 -> sameMatch s2 s3 -> sameMatch s1 s3.
Proof. unfold sameMatch. intros (A & B & C) (D & E & F). repeat split; congruence. Qed.

Lemma framed_refl (s : GameState) : framed s s.
Proof. split; [apply sameMatch_refl | reflexivity]. Qed.

Lemma framed_advanced (s s' : GameState) : framed s s' -> advanced s s'.
Proof. intros [A B]. split; [exact A | lia]. Qed.

Lemma advanced_trans (s1 s2 s3 : GameState) :
  advanced s1 s2 -> advanced s2 s3 -> advanced s1 s3.
Proof.
  intros [A B] [C D]. split; [eapply sameMatch_trans; eassumption | lia].
Qed.

Section Frames.
Variable o : Oracle.

Lemma spawnPlayer_framed (cv : Canvas) :
  ensures o (spawnPlayer cv) (fun cv' => framed (state cv) (state cv')).
Proof.
  unfold spawnPlayer. repeat (apply ensures_then; intros ?).
  apply ensures_ret. repeat split.
Qed.

Lemma playerRespawn_framed (now : R) (cv : Canvas) :
  ensures o (playerRespawn now cv) (fun cv' => framed (state cv) (state cv')).
Proof.
  unfold playerRespawn.
  destruct (playerCells (state cv)); [|apply ensures_ret; apply framed_refl].
  destruct (playerDeadAt cv); [|apply ensures_ret; apply framed_refl].
  destruct (0 <? _)%Z; [apply ensures_ret; apply framed_refl|].
  apply spawnPlayer_framed.
Qed.

Lemma playerLogic_framed (cv : Canvas) :
  ensures o (playerLogic cv) (fun cv' => framed (state cv) (state cv')).
Proof.
  unfold playerLogic.
  destruct (playerCells (state cv)); [apply ensures_ret; apply framed_refl|].
  cbv zeta. apply ensures_then; intros cells.
  apply ensures_then; intros [cells' ejected].
  apply ensures_ret. repeat split.
Qed.

Lemma virusStage_framed (s : GameState) :
  ensures o (virusStage s) (framed s).
Proof.
  unfold virusStage. apply ensures_then; intros [[vs players] bs].
  apply ensures_ret. repeat split.
Qed.

Lemma ejectedStage_framed (s : GameState) :
  ensures o (ejectedStage s) (framed s).
Proof.
  unfold ejectedStage.
  apply ensures_then; intros [[[blobs players] bs] consumed].
  apply ensures_then; intros _.
  apply ensures_ret. repeat split.
Qed.

Lemma updateCamera_framed (s : GameState) : framed s (updateCamera s).
Proof.
  unfold updateCamera. destruct (playerCells s); repeat split.
Qed.

(** The score grows by one for each pellet a player cell eats. *)
Lemma foodLoop_score (i : nat) :
  forall fs eaters sc eatenCount,
    let r := foodLoop i fs eaters sc eatenCount in
    (eatenCount <= snd r)%nat
    /\ snd (fst r) = (sc + Z.of_nat (snd r - eatenCount))%Z.
Proof.
  induction i as [|i IH]; intros fs eaters sc eatenCount; cbn [foodLoop].
  - cbn. split; [lia|]. rewrite Nat.sub_diag. cbn. lia.
  - destruct (nth_error fs i) as [food|]; [|apply IH].
    destruct (feed food eaters) as [[eaters' byBot]|]; [|apply IH].
    destruct byBot; [apply IH|].
    specialize (IH (swapPop i fs) eaters' (sc + 1)%Z (S eatenCount)).
    cbv zeta in *. destruct IH as [A B]. split; [lia|].
    rewrite B. lia.
Qed.

Lemma foodStage_advanced (s : GameState) :
  ensures o (foodStage s) (advanced s).
Proof.
  unfold foodStage.
  pose proof (foodLoop_score (length (foods s)) (foods s)
                (allEaters (playerCells s) (bots s)) (score s) 0) as H.
  cbv zeta in H.
  destruct (foodLoop _ _ _ _ _) as [[[fs eaters'] sc] eatenCount].
  cbn [fst snd] in H. destruct H as [_ H].
  do 2 (apply ensures_then; intros ?).
  apply ensures_ret. split; [repeat split|]. cbn. lia.
Qed.

Lemma crossStage_same (s : GameState) :
  ensures o (crossStage s) (sameMatch s).
Proof.
  unfold crossStage. apply ensures_then; intros [[bs players] sc].
  apply ensures_ret. repeat split.
Qed.

Lemma Math_floor_nonneg (r : R) : 0 <= r -> (0 <= Math_floor r)%Z.
Proof.
  intros Hr. unfold Math_floor, Int_part.
  destruct (archimed r) as [H _].
  assert (0 < Rdefinitions.up r)%Z by (apply lt_IZR; lra). lia.
Qed.





Ltac frames :=
  unfold advanced, framed, sameMatch in *; cbn in *;
  repeat match goal with
         | H : _ /\ _ |- _ => destruct H
         end;
  repeat split; try congruence; try lia.

Lemma simulate_same (now : R) (cv : Canvas) :
  ensures o (simulate now cv) (fun cv' => sameMatch (state cv) (state cv')).
Proof.
  unfold simulate.
  eapply ensures_bind; [apply playerRespawn_framed|]. intros cv1 F1.
  apply ensures_then; intros bs.
  eapply ensures_bind; [apply playerLogic_framed|]. intros cv2 F2.
  cbv zeta. apply ensures_then; intros bs2.
  apply ensures_then; intros players.
  eapply ensures_bind; [apply foodStage_advanced|]. intros s3 F3.
  eapply ensures_bind; [apply crossStage_same|]. intros s4 F4.
  eapply ensures_bind; [apply virusStage_framed|]. intros s5 F5.
  eapply ensures_bind; [apply ejectedStage_framed|]. intros s6 F6.
  apply ensures_ret.
  pose proof (updateCamera_framed s6) as F7.
  frames.
Qed.

Lemma update_same (cv : Canvas) :
  gameStarted (state cv) = true -> gameOver (state cv) = false ->
  forall t,
    clockAt o (clockPos t) < gameEndTime (state cv) ->
    sameMatch (state cv) (state (fst (update cv o t))).
Proof.
  intros Hs Hg t Hnow. unfold update, bind. rewrite Hs, Hg. cbn [negb orb].
  cbn [Date_now]. rewrite (proj2 (Rleb_nle _ _) Hnow).
  apply simulate_same.
Qed.

Hypothesis Ho : forall n, 0 <= randomAt o n.



End Frames.

(* ================================================================== *)
(** * Who calls [onGameOver] *)

Lemma callbacks_emit (e : Event) (o : Oracle) (t : Tape) :
  callbacks (snd (emit e o t))
  = callbacks t ++ (if isCallback e then [e] else []).
Proof. unfold callbacks, emit. cbn. rewrite filter_app. reflexivity. Qed.

Lemma silent_ret {A} (a : A) : silent (ret a).
Proof. intros o t. reflexivity. Qed.

Lemma silent_bind {A B} (m : M A) (k : A -> M B) :
  silent m -> (forall a, silent (k a)) -> silent (bind m k).
Proof.
  intros Hm Hk o t. unfold bind. specialize (Hm o t).
  destruct (m o t) as [a t']. cbn [snd] in Hm. rewrite <- Hm. apply Hk.
Qed.

Lemma silent_Date_now : silent Date_now.
Proof. intros o t. reflexivity. Qed.

Lemma silent_random : silent Math_random.
Proof. intros o t. reflexivity. Qed.

Lemma silent_emit (e : Event) : isCallback e = false -> silent (emit e).
Proof.
  intros H o t. rewrite callbacks_emit, H. apply app_nil_r.
Qed.

Lemma silent_when (b : bool) (m : M unit) : silent m -> silent (when b m).
Proof. intros H. destruct b; [exact H | apply silent_ret]. Qed.

Lemma silent_mapM {A B} (f : A -> M B) (l : list A) :
  (forall a, silent (f a)) -> silent (mapM f l).
Proof.
  intros Hf. induction l as [|a l IH]; cbn [mapM].
  - apply silent_ret.
  - apply silent_bind; [apply Hf|]. intros b.
    apply silent_bind; [exact IH|]. intros bs. apply silent_ret.
Qed.

Lemma silent_replicateM {A} (n : nat) (m : M A) :
  silent m -> silent (replicateM n m).
Proof.
  intros Hm. induction n as [|n IH]; cbn [replicateM].
  - apply silent_ret.
  - apply silent_bind; [exact Hm|]. intros a.
    apply silent_bind; [exact IH|]. intros l. apply silent_ret.
Qed.

Create HintDb silent discriminated.
#[local] Hint Constants Opaque : silent.
#[local] Hint Variables Opaque : silent.

(** Walk through a computation whose parts are known to be silent. *)
Ltac silence :=
  repeat match goal with
         | |- silent (bind _ _) => apply silent_bind; [|intros ?]
         | |- silent (ret _) => apply silent_ret
         | |- silent Date_now => apply silent_Date_now
         | |- silent Math_random => apply silent_random
         | |- silent (emit _) => apply silent_emit; reflexivity
         | |- silent (when _ _) => apply silent_when
         | |- silent (mapM _ _) => apply silent_mapM; intros ?
         | |- silent (replicateM _ _) => apply silent_replicateM
         | |- silent (match ?x with _ => _ end) => destruct x
         | |- silent _ => solve [auto with silent nocore]
         end.

Lemma silent_replaceXY (template : list ascii) : silent (replaceXY template).
Proof. induction template as [|c rest IH]; cbn [replaceXY]; silence. Qed.
#[local] Hint Resolve silent_replaceXY : silent.

Lemma silent_generateUUID : silent generateUUID.
Proof. unfold generateUUID. silence. Qed.
#[local] Hint Resolve silent_generateUUID : silent.

Lemma silent_getRandomPos (w h : R) : silent (getRandomPos w h).
Proof. unfold getRandomPos. silence. Qed.
#[local] Hint Resolve silent_getRandomPos : silent.

Lemma silent_getRandomColor (p : list string) : silent (getRandomColor p).
Proof. unfold getRandomColor. silence. Qed.
#[local] Hint Resolve silent_getRandomColor : silent.

Lemma silent_getRandomName (p : list string) : silent (getRandomName p).
Proof. unfold getRandomName. silence. Qed.
#[local] Hint Resolve silent_getRandomName : silent.

Lemma silent_spawnBot : silent spawnBot.
Proof. unfold spawnBot. silence. Qed.
#[local] Hint Resolve silent_spawnBot : silent.

Lemma silent_spawnPlayer (cv : Canvas) : silent (spawnPlayer cv).
Proof. unfold spawnPlayer. silence. Qed.
#[local] Hint Resolve silent_spawnPlayer : silent.

Lemma silent_newFood : silent newFood.
Proof. unfold newFood. silence. Qed.
#[local] Hint Resolve silent_newFood : silent.

Lemma silent_playerRespawn (now : R) (cv : Canvas) :
  silent (playerRespawn now cv).
Proof. unfold playerRespawn. silence. Qed.
#[local] Hint Resolve silent_playerRespawn : silent.

Lemma silent_botRespawn (now : R) (b : Bot) : silent (botRespawn now b).
Proof. unfold botRespawn. silence. Qed.
#[local] Hint Resolve silent_botRespawn : silent.

Lemma silent_splitLoop (dirX dirY : R) (cells : list PlayerCell) :
  forall n, silent (splitLoop dirX dirY cells n).
Proof. induction cells as [|c rest IH]; intros n; cbn [splitLoop]; silence. Qed.
#[local] Hint Resolve silent_splitLoop : silent.

Lemma silent_processSplit (dirX dirY : R) (cells : list PlayerCell) :
  silent (processSplit dirX dirY cells).
Proof. unfold processSplit. silence. Qed.
#[local] Hint Resolve silent_processSplit : silent.

Lemma silent_ejectLoop (dirX dirY : R) (cells : list PlayerCell) :
  silent (ejectLoop dirX dirY cells).
Proof. induction cells as [|c rest IH]; cbn [ejectLoop]; silence. Qed.
#[local] Hint Resolve silent_ejectLoop : silent.

Lemma silent_processEject (dirX dirY : R) cells ejected :
  silent (processEject dirX dirY cells ejected).
Proof. unfold processEject. silence. Qed.
#[local] Hint Resolve silent_processEject : silent.

Lemma silent_playerLogic (cv : Canvas) : silent (playerLogic cv).
Proof. unfold playerLogic. silence. Qed.
#[local] Hint Resolve silent_playerLogic : silent.

Lemma silent_collidePair sound c1 c2 : silent (collidePair sound c1 c2).
Proof. unfold collidePair. silence. Qed.
#[local] Hint Resolve silent_collidePair : silent.

Lemma silent_collideInner sound (rest : list PlayerCell) :
  forall c1, silent (collideInner sound c1 rest).
Proof. induction rest as [|c2 rest IH]; intros c1; cbn [collideInner]; silence. Qed.
#[local] Hint Resolve silent_collideInner : silent.

Lemma silent_collideOuter sound (fuel : nat) :
  forall cells, silent (collideOuter sound fuel cells).
Proof.
  induction fuel as [|fuel IH]; intros cells; cbn [collideOuter]; silence.
Qed.
#[local] Hint Resolve silent_collideOuter : silent.

Lemma silent_selfCollision sound cells : silent (selfCollision sound cells).
Proof. unfold selfCollision. silence. Qed.
#[local] Hint Resolve silent_selfCollision : silent.

Lemma silent_sampleStep center fs best : silent (sampleStep center fs best).
Proof. unfold sampleStep. silence. Qed.
#[local] Hint Resolve silent_sampleStep : silent.

Lemma silent_sampleFood (n : nat) center fs :
  forall best, silent (sampleFood n center fs best).
Proof. induction n as [|n IH]; intros best; cbn [sampleFood]; silence. Qed.
#[local] Hint Resolve silent_sampleFood : silent.

Lemma silent_retarget center fs bot : silent (retarget center fs bot).
Proof. unfold retarget. silence. Qed.
#[local] Hint Resolve silent_retarget : silent.

Lemma silent_botLogic fs players bot : silent (botLogic fs players bot).
Proof. unfold botLogic. silence. Qed.
#[local] Hint Resolve silent_botLogic : silent.

Lemma silent_foodStage (s : GameState) : silent (foodStage s).
Proof. unfold foodStage. silence. Qed.
#[local] Hint Resolve silent_foodStage : silent.

Lemma silent_vsPlayers (k : nat) :
  forall bCell players sc, silent (vsPlayers k bCell players sc).
Proof.
  induction k as [|k IH]; intros bCell players sc; cbn [vsPlayers]; silence.
Qed.
#[local] Hint Resolve silent_vsPlayers : silent.

Lemma silent_botCellsLoop (j : nat) :
  forall cells players sc, silent (botCellsLoop j cells players sc).
Proof.
  induction j as [|j IH]; intros cells players sc; cbn [botCellsLoop]; silence.
Qed.
#[local] Hint Resolve silent_botCellsLoop : silent.

Lemma silent_botsLoop (i : nat) :
  forall bs players sc, silent (botsLoop i bs players sc).
Proof.
  induction i as [|i IH]; intros bs players sc; cbn [botsLoop]; silence.
Qed.
#[local] Hint Resolve silent_botsLoop : silent.

Lemma silent_crossStage (s : GameState) : silent (crossStage s).
Proof. unfold crossStage. silence. Qed.
#[local] Hint Resolve silent_crossStage : silent.

Lemma silent_fragment cell m : silent (fragment cell m).
Proof. unfold fragment. silence. Qed.
#[local] Hint Resolve silent_fragment : silent.

Lemma silent_explode j cell players : silent (explode j cell players).
Proof. unfold explode. silence. Qed.
#[local] Hint Resolve silent_explode : silent.

Lemma silent_virusVsPlayers (j : nat) virus players :
  silent (virusVsPlayers j virus players).
Proof. induction j as [|j IH]; cbn [virusVsPlayers]; silence. Qed.
#[local] Hint Resolve silent_virusVsPlayers : silent.

Lemma silent_virusLoop (i : nat) :
  forall vs players bs, silent (virusLoop i vs players bs).
Proof.
  induction i as [|i IH]; intros vs players bs; cbn [virusLoop]; silence.
Qed.
#[local] Hint Resolve silent_virusLoop : silent.

Lemma silent_virusStage (s : GameState) : silent (virusStage s).
Proof. unfold virusStage. silence. Qed.
#[local] Hint Resolve silent_virusStage : silent.

Lemma silent_blobVsPlayers blob (cells : list PlayerCell) :
  silent (blobVsPlayers blob cells).
Proof. induction cells as [|c rest IH]; cbn [blobVsPlayers]; silence. Qed.
#[local] Hint Resolve silent_blobVsPlayers : silent.

Lemma silent_ejectedLoop (i : nat) :
  forall blobs players bs consumed,
    silent (ejectedLoop i blobs players bs consumed).
Proof.
  induction i as [|i IH]; intros blobs players bs consumed;
    cbn [ejectedLoop]; silence.
Qed.
#[local] Hint Resolve silent_ejectedLoop : silent.

Lemma silent_ejectedStage (s : GameState) : silent (ejectedStage s).
Proof. unfold ejectedStage. silence. Qed.
#[local] Hint Resolve silent_ejectedStage : silent.

Lemma silent_simulate (now : R) (cv : Canvas) : silent (simulate now cv).
Proof. unfold simulate. silence. Qed.

(* ================================================================== *)
(** * The end of the match *)

Lemma update_terminal (cv : Canvas) (o : Oracle) (t : Tape) :
  gameOver (state cv) = true -> update cv o t = (cv, t).
Proof.
  intros H. unfold update. rewrite H, orb_true_r. reflexivity.
Qed.

Lemma update_ends (cv : Canvas) (o : Oracle) (t : Tape) :
  gameStarted (state cv) = true -> gameOver (state cv) = false ->
  gameEndTime (state cv) <= clockAt o (clockPos t) ->
  fst (update cv o t) = setState cv (setGameOver (state cv) true)
  /\ events (snd (update cv o t))
     = events t ++ [StopMusic; GameOverCallback (score (state cv))].
Proof.
  intros Hs Hg Hnow. unfold update, bind. rewrite Hs, Hg. cbn [negb orb].
  cbn [Date_now]. rewrite (proj2 (Rleb_le _ _) Hnow). cbn.
  split; [reflexivity|]. rewrite <- app_assoc. reflexivity.
Qed.

Lemma update_running (cv : Canvas) (o : Oracle) (t : Tape) :
  gameStarted (state cv) = true -> gameOver (state cv) = false ->
  clockAt o (clockPos t) < gameEndTime (state cv) ->
  sameMatch (state cv) (state (fst (update cv o t)))
  /\ callbacks (snd (update cv o t)) = callbacks t.
Proof.
  intros Hs Hg Hnow. split; [apply update_same; assumption|].
  unfold update, bind. rewrite Hs, Hg. cbn [negb orb].
  cbn [Date_now]. rewrite (proj2 (Rleb_nle _ _) Hnow).
  rewrite (silent_simulate (clockAt o (clockPos t)) cv o). reflexivity.
Qed.

Lemma run_terminal (frames : list (InputState * Actions)) :
  forall cv o t,
    gameOver (state cv) = true ->
    state (fst (run frames cv o t)) = state cv /\ snd (run frames cv o t) = t.
Proof.
  induction frames as [|[keys intents] rest IH]; intros cv o t H;
    cbn [run]; [split; reflexivity|].
  unfold bind. rewrite update_terminal by exact H.
  apply (IH (setInputs cv keys intents) o t). exact H.
Qed.

Lemma run_callbacks (frames : list (InputState * Actions)) :
  forall cv o t,
    gameStarted (state cv) = true -> gameOver (state cv) = false ->
    let r := run frames cv o t in
    callbacks (snd r)
    = callbacks t
      ++ (if gameOver (state (fst r))
          then [GameOverCallback (score (state (fst r)))] else []).
Proof.
  induction frames as [|[keys intents] rest IH]; intros cv o t Hs Hg;
    cbn [run].
  - cbn. rewrite Hg. symmetry. apply app_nil_r.
  - cbv zeta. unfold bind.
    set (cv1 := setInputs cv keys intents).
    assert (Hs1 : gameStarted (state cv1) = true) by exact Hs.
    assert (Hg1 : gameOver (state cv1) = false) by exact Hg.
    destruct (Rle_dec (gameEndTime (state cv1)) (clockAt o (clockPos t)))
      as [Hend|Hrun].
    + destruct (update_ends cv1 o t Hs1 Hg1 Hend) as [E1 E2].
      destruct (update cv1 o t) as [cv2 t2]. cbn [fst snd] in *.
      assert (Hover : gameOver (state cv2) = true) by (rewrite E1; reflexivity).
      destruct (run_terminal rest cv2 o t2 Hover) as [R1 R2].
      rewrite R1, R2, Hover. unfold callbacks. rewrite E2, filter_app.
      rewrite E1. reflexivity.
    + assert (Hlt : clockAt o (clockPos t) < gameEndTime (state cv1)) by lra.
      destruct (update_running cv1 o t Hs1 Hg1 Hlt) as [(A & B & _) C].
      destruct (update cv1 o t) as [cv2 t2]. cbn [fst snd] in *.
      rewrite <- C. apply IH; congruence.
Qed.

(** C8. Once the match is over a tick changes nothing and calls nobody.
    In a running match, the tick at which the clock has reached
    [gameEndTime] changes nothing but [gameOver], stops the music and calls
    [onGameOver] with the score of that moment; a tick before that time leaves
    the match running and does not call [onGameOver].  So over any run of
    ticks of a running match [onGameOver] is called once if the match has
    ended, with the score the state still holds, and not at all otherwise. *)
Theorem match_ends_once (o : Oracle) (cv : Canvas) (t : Tape) :
  let now := clockAt o (clockPos t) in
  (gameOver (state cv) = true -> update cv o t = (cv, t))
  /\ (gameStarted (state cv) = true -> gameOver (state cv) = false ->
      gameEndTime (state cv) <= now ->
      fst (update cv o t) = setState cv (setGameOver (state cv) true)
      /\ events (snd (update cv o t))
         = events t ++ [StopMusic; GameOverCallback (score (state cv))])
  /\ (gameStarted (state cv) = true -> gameOver (state cv) = false ->
      now < gameEndTime (state cv) ->
      gameOver (state (fst (update cv o t))) = false
      /\ gameEndTime (state (fst (update cv o t))) = gameEndTime (state cv)
      /\ callbacks (snd (update cv o t)) = callbacks t)
  /\ (forall frames,
         gameStarted (state cv) = true -> gameOver (state cv) = false ->
         let r := run frames cv o t in
         callbacks (snd r)
         = callbacks t
           ++ (if gameOver (state (fst r))
               then [GameOverCallback (score (state (fst r)))] else [])).
Proof.
  cbv zeta. split; [|split; [|split]].
  - apply update_terminal.
  - apply update_ends.
  - intros Hs Hg Hnow.
    destruct (update_running cv o t Hs Hg Hnow) as [(A & B & C) D].
    split; [congruence|]. split; assumption.
  - intros frames. apply run_callbacks.
Qed.

(* ================================================================== *)
(** * Boundaries *)

Lemma clampToMap_clamped (c : PlayerCell) : clamped (clampToMap c).
Proof.
  unfold clamped, clampToMap, setPos, Math_max, Math_min;
    cbn [c_x c_y c_radius].
  split; [|split; [|split]].
  - apply Rmax_l.
  - apply Rmax_l.
  - intros H. apply Rmax_lub; [lra | apply Rmin_l].
  - intros H. apply Rmax_lub; [lra | apply Rmin_l].
Qed.

Lemma bounce_x_cases (b : EjectedMass) :
  (e_x b <= 0 -> e_x (bounce b) = 0 /\ e_vx (bounce b) = - e_vx b)
  /\ (MAP_WIDTH <= e_x b ->
      e_x (bounce b) = MAP_WIDTH /\ e_vx (bounce b) = - e_vx b)
  /\ (0 < e_x b < MAP_WIDTH ->
      e_x (bounce b) = e_x b /\ e_vx (bounce b) = e_vx b).
Proof.
  assert (Hy : forall c, e_x (bounceBottom (bounceTop c)) = e_x c
                         /\ e_vx (bounceBottom (bounceTop c)) = e_vx c).
  { intros c. unfold bounceBottom, bounceTop.
    destruct (e_y c <=? 0); destruct (MAP_HEIGHT <=? _); split; reflexivity. }
  unfold bounce. destruct (Hy (bounceRight (bounceLeft b))) as [-> ->].
  unfold bounceRight, bounceLeft, MAP_WIDTH.
  rcase (e_x b) 0 G1; cbn [e_x e_vx setBlobX].
  - rdec. cbn [e_x e_vx setBlobX].
    split; [|split]; intros ?; split; lra.
  - rcase 4000 (e_x b) G2; cbn [e_x e_vx setBlobX];
      (split; [|split]); intros ?; split; lra.
Qed.

Lemma bounce_y_cases (b : EjectedMass) :
  (e_y b <= 0 -> e_y (bounce b) = 0 /\ e_vy (bounce b) = - e_vy b)
  /\ (MAP_HEIGHT <= e_y b ->
      e_y (bounce b) = MAP_HEIGHT /\ e_vy (bounce b) = - e_vy b)
  /\ (0 < e_y b < MAP_HEIGHT ->
      e_y (bounce b) = e_y b /\ e_vy (bounce b) = e_vy b).
Proof.
  assert (Hx : forall c, e_y (bounceRight (bounceLeft c)) = e_y c
                         /\ e_vy (bounceRight (bounceLeft c)) = e_vy c).
  { intros c. unfold bounceRight, bounceLeft.
    destruct (e_x c <=? 0); destruct (MAP_WIDTH <=? _); split; reflexivity. }
  unfold bounce. destruct (Hx b) as [Ey Evy].
  set (c := bounceRight (bounceLeft b)) in *.
  rewrite <- Ey, <- Evy. clearbody c.
  unfold bounceBottom, bounceTop, MAP_HEIGHT.
  rcase (e_y c) 0 G1; cbn [e_y e_vy setBlobY].
  - rdec. cbn [e_y e_vy setBlobY].
    split; [|split]; intros ?; split; lra.
  - rcase 4000 (e_y c) G2; cbn [e_y e_vy setBlobY];
      (split; [|split]); intros ?; split; lra.
Qed.

Lemma reflected_of_cases (size x v xb vb : R) :
  0 < size ->
  (x <= 0 -> xb = 0 /\ vb = - v) ->
  (size <= x -> xb = size /\ vb = - v) ->
  (0 < x < size -> xb = x /\ vb = v) ->
  reflected size x v (xb + vb) (vb * (9 / 10)).
Proof.
  intros Hs H1 H2 H3. unfold reflected.
  pose proof (Rle_abs v) as A1. pose proof (Rle_abs (- v)) as A2.
  rewrite Rabs_Ropp in A2.
  destruct (Rle_dec x 0) as [L|L];
    [|destruct (Rle_dec size x) as [U|U]].
  - destruct (H1 L) as [-> ->]. repeat split; intros; lra.
  - destruct (H2 U) as [-> ->]. repeat split; intros; lra.
  - assert (M : 0 < x < size) by lra.
    destruct (H3 M) as [-> ->]. repeat split; intros; lra.
Qed.

Lemma moveBlob_reflected (b : EjectedMass) :
  reflected MAP_WIDTH (e_x b) (e_vx b)
            (e_x (moveBlob b)) (e_vx (moveBlob b))
  /\ reflected MAP_HEIGHT (e_y b) (e_vy b)
               (e_y (moveBlob b)) (e_vy (moveBlob b)).
Proof.
  destruct (bounce_x_cases b) as (X1 & X2 & X3).
  destruct (bounce_y_cases b) as (Y1 & Y2 & Y3).
  unfold moveBlob, advance;
    cbn [e_x e_y e_vx e_vy setBlobX setBlobY].
  split; apply reflected_of_cases; auto;
    unfold MAP_WIDTH, MAP_HEIGHT; lra.
Qed.

(** C6, as the code has it. After the integration of a tick every player
    and bot cell has [radius <= x] and [radius <= y], and [x <= MAP_WIDTH -
    radius], [y <= MAP_HEIGHT - radius] as long as its diameter fits in the
    map.  An ejected blob found at or beyond an edge is pinned to that edge
    and the sign of its velocity component is flipped, after which the blob
    moves by its velocity: it ends the step within one step of the map. *)
Theorem boundaries_after_integration :
  (forall moveX moveY len comX comY several c,
      clamped (movePlayerCell moveX moveY len comX comY several c))
  /\ (forall tx ty c, clamped (moveBotCell tx ty c))
  /\ (forall b,
         reflected MAP_WIDTH (e_x b) (e_vx b)
                   (e_x (moveBlob b)) (e_vx (moveBlob b))
         /\ reflected MAP_HEIGHT (e_y b) (e_vy b)
                      (e_y (moveBlob b)) (e_vy (moveBlob b))).
Proof.
  split; [|split].
  - intros. apply clampToMap_clamped.
  - intros. apply clampToMap_clamped.
  - apply moveBlob_reflected.
Qed.

Lemma massToRadius_gt (m b : R) :
  0 <= b -> 4 * (b * b) < m * 100 -> b < massToRadius m.
Proof.
  intros Hb H. unfold massToRadius, Math_sqrt, Math_PI.
  rewrite <- (sqrt_square b Hb) at 1.
  pose proof PI_4 as P4. pose proof PI_RGT_0 as P0.
  assert (I : / 4 <= / PI) by (apply Rinv_le_contravar; lra).
  apply sqrt_lt_1_alt. split; [nra|].
  unfold Rdiv. nra.
Qed.

Lemma massToRadius_lt (m b : R) :
  0 <= m -> 0 <= b -> m * 100 < 3 * (b * b) -> massToRadius m < b.
Proof.
  intros Hm Hb H. unfold massToRadius, Math_sqrt, Math_PI.
  rewrite <- (sqrt_square b Hb) at 1.
  pose proof PI2_3_2 as P3. pose proof PI_RGT_0 as P0.
  assert (I : / PI <= / 3) by (apply Rinv_le_contravar; lra).
  assert (I0 : 0 < / PI) by (apply Rinv_0_lt_compat; lra).
  apply sqrt_lt_1_alt. unfold Rdiv. split; nra.
Qed.

(** C6, as stated, fails twice: a blob five units from the left edge and
    moving left at ten units a tick ends its step outside the map; and a
    cell whose diameter exceeds the map (mass 200000) is left beyond
    [MAP_WIDTH - radius] by the clamp. *)
Lemma boundaries_counterexample :
  ~ (0 <= e_x (moveBlob strayBlob) <= MAP_WIDTH)
  /\ ~ (c_x (clampToMap (cellAt "p" 2000 2000 200000))
        <= MAP_WIDTH - c_radius (clampToMap (cellAt "p" 2000 2000 200000))).
Proof.
  split.
  - destruct (moveBlob_reflected strayBlob) as [(_ & _ & H & _) _].
    unfold strayBlob in *. cbn [e_x e_vx] in H.
    destruct H as [H _]; [unfold MAP_WIDTH; lra|].
    rewrite H. lra.
  - pose proof (clampToMap_clamped (cellAt "p" 2000 2000 200000))
      as (H & _).
    assert (R : 2000 < c_radius (clampToMap (cellAt "p" 2000 2000 200000))).
    { cbn [clampToMap cellAt setPos c_radius].
      apply massToRadius_gt; lra. }
    unfold MAP_WIDTH. lra.
Qed.

(* ================================================================== *)
(** * Consumption *)

Lemma getDistance_same (p : Vector) : getDistance p p = 0.
Proof.
  unfold getDistance, Math_sqrt.
  replace ((v_x p - v_x p) * (v_x p - v_x p)
           + (v_y p - v_y p) * (v_y p - v_y p)) with 0 by ring.
  apply sqrt_0.
Qed.

Lemma greedy_hitsVirus (name : string) :
  hitsVirus (cellAt name 500 500 200) loneVirus = true.
Proof.
  unfold hitsVirus. apply andb_true_intro. split.
  - apply Rltb_lt.
    change (cellPos (cellAt name 500 500 200)) with (mkVector 500 500).
    change (virusPos loneVirus) with (mkVector 500 500).
    rewrite getDistance_same. cbn [cellAt c_radius].
    apply massToRadius_pos. lra.
  - apply Rltb_lt. cbn [cellAt c_mass]. unfold VIRUS_MASS. lra.
Qed.

(** C7 at its failing input. Two bots each have a cell of mass 200 on the
    same virus: the virus is removed once, and both cells take its bonus
    (each goes from 200 to (200 + 150) / 2 = 175). *)
Theorem two_bots_one_virus (o : Oracle) (t : Tape) :
  let s' := fst (virusStage virusScene o t) in
  viruses s' = []
  /\ map (fun b => map c_mass (b_cells b)) (bots virusScene)
     = [[200]; [200]]
  /\ map (fun b => map c_mass (b_cells b)) (bots s') = [[175]; [175]].
Proof.
  cbv zeta. unfold virusStage, bind.
  cbn [virusScene viruses playerCells bots length virusLoop nth_error
       virusVsPlayers ret].
  unfold botsHitVirus.
  cbn [existsb greedyBot b_cells map setCells].
  unfold botCellHitsVirus. rewrite !greedy_hitsVirus.
  cbn [orb fst snd virusLoop ret swapPop length Nat.sub nth_error setAt
       removelast viruses bots setViruses setBots setPlayerCells map b_cells
       c_mass setMass cellAt].
  split; [reflexivity|]. split; [reflexivity|].
  replace ((200 + VIRUS_BONUS_MASS) / 2) with 175
    by (unfold VIRUS_BONUS_MASS; lra).
  reflexivity.
Qed.

(* ================================================================== *)
(** * The cap on ejected mass *)

Lemma sorted_app_older (l1 l2 : list EjectedMass) :
  StronglySorted olderFirst (l1 ++ l2) ->
  Forall (fun e => Forall (olderFirst e) l2) l1.
Proof.
  induction l1 as [|a l1 IH]; intros H; [constructor|].
  cbn [app] in H. inversion H as [|? ? Hs Hf]; subst.
  constructor; [|apply IH; exact Hs].
  apply Forall_app in Hf. tauto.
Qed.

(** C9, as the code has it. The cap leaves the array alone up to 300
    blobs; beyond, it removes the blobs at the front of the array and keeps
    the last 300 in their order.  When the array is in creation order the
    blobs removed are the oldest. *)
Theorem cap_evicts_front (blobs : list EjectedMass) :
  let n := (length blobs - EJECTED_CAP)%nat in
  let out := capEjected blobs in
  blobs = firstn n blobs ++ out
  /\ length out = Nat.min EJECTED_CAP (length blobs)
  /\ (StronglySorted olderFirst blobs ->
      Forall (fun e => Forall (olderFirst e) out) (firstn n blobs)).
Proof.
  cbv zeta.
  assert (E : capEjected blobs = skipn (length blobs - EJECTED_CAP) blobs).
  { unfold capEjected, spliceFront.
    destruct (EJECTED_CAP <? length blobs)%nat eqn:G; [reflexivity|].
    apply Nat.ltb_ge in G.
    replace (length blobs - EJECTED_CAP)%nat with 0%nat by lia.
    reflexivity. }
  rewrite E. split; [|split].
  - symmetry. apply firstn_skipn.
  - rewrite length_skipn. lia.
  - intros Hs. apply sorted_app_older. rewrite firstn_skipn. exact Hs.
Qed.

Lemma cap_evicts_front_witness :
  StronglySorted olderFirst [farBlob 1; farBlob 2]
  /\ Forall (fun e => Forall (olderFirst e) (capEjected [farBlob 1; farBlob 2]))
            (firstn (2 - EJECTED_CAP) [farBlob 1; farBlob 2]).
Proof.
  assert (Hs : StronglySorted olderFirst [farBlob 1; farBlob 2]).
  { repeat constructor. unfold olderFirst. simpl. lra. }
  split; [exact Hs|].
  apply (proj2 (proj2 (cap_evicts_front [farBlob 1; farBlob 2]))). exact Hs.
Defined.

Lemma setAt_same {A} (l : list A) :
  forall i x, nth_error l i = Some x -> setAt i x l = l.
Proof.
  induction l as [|h l IH]; intros i x E; destruct i; cbn in *;
    try discriminate.
  - inversion E; subst. reflexivity.
  - rewrite IH by exact E. reflexivity.
Qed.

Lemma swapPop_head {A} (x : A) (l : list A) (y : A) :
  swapPop 0 (x :: l ++ [y]) = y :: l.
Proof.
  unfold swapPop. cbn [length Nat.sub].
  rewrite Nat.sub_0_r.
  replace (nth_error (x :: l ++ [y]) (length (l ++ [y]))) with (Some y).
  - cbn [setAt]. rewrite (app_comm_cons l [y] y). apply removelast_last.
  - rewrite length_app. cbn [length]. rewrite Nat.add_1_r. cbn [nth_error].
    rewrite nth_error_app2 by lia. rewrite Nat.sub_diag. reflexivity.
Qed.

Lemma bounce_inside (b : EjectedMass) :
  0 < e_x b < MAP_WIDTH -> 0 < e_y b < MAP_HEIGHT -> bounce b = b.
Proof.
  intros Hx Hy. unfold bounce.
  assert (E1 : bounceLeft b = b).
  { unfold bounceLeft. rewrite (proj2 (Rleb_nle _ _)) by lra. reflexivity. }
  rewrite E1.
  assert (E2 : bounceRight b = b).
  { unfold bounceRight. rewrite (proj2 (Rleb_nle _ _)) by lra. reflexivity. }
  rewrite E2.
  assert (E3 : bounceTop b = b).
  { unfold bounceTop. rewrite (proj2 (Rleb_nle _ _)) by lra. reflexivity. }
  rewrite E3.
  unfold bounceBottom. rewrite (proj2 (Rleb_nle _ _)) by lra. reflexivity.
Qed.

Lemma moveBlob_at_rest (b : EjectedMass) :
  e_vx b = 0 -> e_vy b = 0 ->
  0 < e_x b < MAP_WIDTH -> 0 < e_y b < MAP_HEIGHT ->
  moveBlob b = b.
Proof.
  intros Hvx Hvy Hx Hy. unfold moveBlob. rewrite bounce_inside by assumption.
  destruct b as [i x y r col vx vy m ow cr]. cbn [e_vx e_vy] in *. subst.
  unfold advance, setBlobX, setBlobY; cbn [e_id e_x e_y e_radius e_color
    e_vx e_vy e_mass e_ownerId e_createdAt].
  f_equal; lra.
Qed.

(** The loop passes over blobs at rest that no cell touches. *)
Lemma ejectedLoop_skips (cell : PlayerCell) (near : EjectedMass)
      (l : list EjectedMass) (o : Oracle) :
  Forall (fun b => moveBlob b = b /\ touches cell b = false) l ->
  forall i t consumed,
    (i <= length l)%nat ->
    ejectedLoop (S i) (near :: l) [cell] [] consumed o t
    = ejectedLoop 1 (near :: l) [cell] [] consumed o t.
Proof.
  intros Hl. induction i as [|i IH]; intros t consumed Hi; [reflexivity|].
  assert (Hsome : exists b, nth_error l i = Some b).
  { destruct (nth_error l i) as [b|] eqn:E; [eauto|].
    apply nth_error_None in E. lia. }
  destruct Hsome as [b E].
  destruct (nth_error_Forall i Hl E) as [Hm Ht].
  change (ejectedLoop (S (S i)) (near :: l) [cell] [] consumed o t)
    with (match nth_error (near :: l) (S i) with
          | None => ejectedLoop (S i) (near :: l) [cell] [] consumed
          | Some blob =>
            let blob := moveBlob blob in
            let blobs := setAt (S i) blob (near :: l) in
            hit <- blobVsPlayers blob [cell] ;;
            match hit with
            | Some players' =>
              ejectedLoop (S i) (swapPop (S i) blobs) players' [] true
            | None =>
              match blobVsBots blob [] with
              | Some bs' =>
                ejectedLoop (S i) (swapPop (S i) blobs) [cell] bs' consumed
              | None => ejectedLoop (S i) blobs [cell] [] consumed
              end
            end
          end o t).
  cbn [nth_error]. rewrite E. cbv zeta. rewrite Hm.
  cbn [setAt]. rewrite (setAt_same l i E).
  unfold bind. cbn [blobVsPlayers]. rewrite Ht. unfold bind.
  cbn [ret option_map blobVsBots].
  apply IH. lia.
Qed.

Lemma far_untouched (n : nat) :
  moveBlob (farBlob n) = farBlob n
  /\ touches (cellAt "p" 100 100 100) (farBlob n) = false.
Proof.
  split.
  - apply moveBlob_at_rest; cbn; unfold MAP_WIDTH, MAP_HEIGHT; lra.
  - unfold touches. apply Rltb_nlt.
    cbn [cellAt c_radius cellPos blobPos farBlob c_x c_y e_x e_y].
    unfold getDistance, Math_sqrt. cbn [v_x v_y].
    apply Rle_trans with 100.
    + apply Rlt_le. apply massToRadius_lt; lra.
    + rewrite <- (sqrt_square 100) at 1 by lra.
      apply sqrt_le_1_alt. cbn. lra.
Qed.

Lemma near_touched :
  moveBlob nearBlob = nearBlob
  /\ touches (cellAt "p" 100 100 100) nearBlob = true
  /\ bigEnough (cellAt "p" 100 100 100) nearBlob = true.
Proof.
  split; [|split].
  - apply moveBlob_at_rest; cbn; unfold MAP_WIDTH, MAP_HEIGHT; lra.
  - unfold touches. apply Rltb_lt.
    change (cellPos (cellAt "p" 100 100 100)) with (mkVector 100 100).
    change (blobPos nearBlob) with (mkVector 100 100).
    rewrite getDistance_same. cbn [cellAt c_radius].
    apply massToRadius_pos. lra.
  - unfold bigEnough. apply Rltb_lt. cbn. unfold EJECT_MASS_GAIN. lra.
Qed.

Lemma crowd_after_consumption (o : Oracle) (t : Tape) :
  fst (fst (fst (fst (ejectedLoop (length crowd) crowd
                                  [cellAt "p" 100 100 100] [] false o t))))
  = farBlob 301 :: map farBlob (seq 1 300).
Proof.
  unfold crowd. cbn [length]. rewrite length_map, length_seq.
  rewrite ejectedLoop_skips.
  - destruct near_touched as (Hm & Ht & Hb).
    cbn [ejectedLoop nth_error]. cbv zeta. rewrite Hm.
    unfold bind. cbn [blobVsPlayers]. rewrite Ht. unfold bind.
    change (String.eqb (e_ownerId nearBlob) (c_id (cellAt "p" 100 100 100)))
      with false.
    cbn [ret]. rewrite Hb. cbn [ret fst setAt].
    change (seq 1 301) with (seq 1 (S 300)).
    rewrite seq_S, map_app. cbn [map Nat.add].
    apply swapPop_head.
  - apply Forall_map. apply Forall_forall. intros n _. apply far_untouched.
  - rewrite length_map, length_seq. lia.
Qed.

Lemma far_sorted (len : nat) :
  forall start, StronglySorted olderFirst (map farBlob (seq start len)).
Proof.
  induction len as [|len IH]; intros start; cbn [seq map]; constructor.
  - apply IH.
  - apply Forall_map. apply Forall_forall. intros n Hn.
    apply in_seq in Hn. unfold olderFirst. cbn [farBlob e_createdAt].
    apply le_INR. lia.
Qed.

(** C9, as stated, fails when a blob is consumed in the tick the cap is
    hit. Of 302 blobs in creation order the oldest is swallowed by a
    player cell; the removal moves the newest blob into its slot, at the
    front of the array; the cap then evicts that newest blob, and the 300
    blobs it keeps include the oldest survivor. *)
Lemma eviction_counterexample :
  let o := constOracle 1000 0 in
  StronglySorted olderFirst crowd
  /\ fst (fst (fst (fst (ejectedLoop (length crowd) crowd
                                     [cellAt "p" 100 100 100] [] false
                                     o startTape))))
     = farBlob 301 :: map farBlob (seq 1 300)
  /\ ejectedMass (fst (ejectedStage crowdScene o startTape))
     = map farBlob (seq 1 300)
  /\ e_createdAt (farBlob 1) < e_createdAt (farBlob 301).
Proof.
  cbv zeta. split; [|split; [|split]].
  - unfold crowd. constructor; [apply far_sorted|].
    apply Forall_map. apply Forall_forall. intros n _.
    unfold olderFirst. cbn [nearBlob farBlob e_createdAt]. apply pos_INR.
  - apply crowd_after_consumption.
  - unfold ejectedStage, bind.
    pose proof (crowd_after_consumption (constOracle 1000 0) startTape) as H.
    change (ejectedMass crowdScene) with crowd.
    change (playerCells crowdScene) with [cellAt "p" 100 100 100].
    change (bots crowdScene) with (@nil Bot).
    destruct (ejectedLoop (length crowd) crowd [cellAt "p" 100 100 100] []
                          false (constOracle 1000 0) startTape)
      as [[[[blobs players] bs] consumed] t1].
    cbn [fst] in H. subst blobs.
    destruct (when consumed (emit PlayEat) (constOracle 1000 0) t1)
      as [u t2].
    cbn [ret fst ejectedMass setEjected].
    unfold capEjected. cbn [length]. rewrite length_map, length_seq.
    change (EJECTED_CAP <? 301)%nat with true.
    change (301 - EJECTED_CAP)%nat with 1%nat. reflexivity.
  - cbn [farBlob e_createdAt]. apply lt_INR. lia.
Qed.

(* ================================================================== *)
(** * The theorems at sample inputs *)

Lemma split_conserves_mass_and_counts_witness :
  c_mass (cellAt "p" 100 100 15) < MIN_MASS_TO_SPLIT
  /\ nth_error (fst (processSplit 1 0 [cellAt "p" 100 100 15]
                                  (constOracle 1000 0) startTape)) 0
     = Some (cellAt "p" 100 100 15).
Proof.
  assert (H : c_mass (cellAt "p" 100 100 15) < MIN_MASS_TO_SPLIT)
    by (simpl; unfold MIN_MASS_TO_SPLIT; lra).
  split; [exact H|].
  apply (proj2 (proj2 (proj2 (proj2
           (split_conserves_mass_and_counts 1 0 [cellAt "p" 100 100 15]
              (constOracle 1000 0) startTape))))).
  - reflexivity.
  - exact H.
Defined.



Lemma cell_count_capped_witness :
  let o := constOracle 1000 0 in
  let cv := fst (initWorld mountCanvas o startTape) in
  reachable o cv /\ withinCap (state cv).
Proof.
  cbv zeta. split; [apply reach_init|].
  apply (proj1 (cell_count_capped (constOracle 1000 0)
                  (fst (initWorld mountCanvas (constOracle 1000 0) startTape))
                  startTape)).
  apply reach_init.
Defined.

Lemma radius_follows_mass_witness :
  let o := constOracle 1000 0 in
  let cv := fst (initWorld mountCanvas o startTape) in
  0 <= 2 /\ massToRadius (radiusToMass 2) = 2
  /\ reachable o cv /\ allSynced (state cv).
Proof.
  cbv zeta.
  destruct radius_follows_mass as (H1 & _ & _ & H4 & _).
  split; [lra|]. split; [apply H1; lra|].
  split; [apply reach_init|].
  apply (H4 (constOracle 1000 0)). apply reach_init.
Defined.

Lemma match_ends_once_witness :
  let o := constOracle 1000 0 in
  gameStarted (state lateCanvas) = true
  /\ gameOver (state lateCanvas) = false
  /\ gameEndTime (state lateCanvas) <= clockAt o (clockPos startTape)
  /\ gameOver (state (fst (update lateCanvas o startTape))) = true
  /\ events (snd (update lateCanvas o startTape))
     = [StopMusic; GameOverCallback 7].
Proof.
  cbv zeta.
  assert (Ht : gameEndTime (state lateCanvas)
               <= clockAt (constOracle 1000 0) (clockPos startTape))
    by (simpl; lra).
  split; [reflexivity|]. split; [reflexivity|]. split; [exact Ht|].
  destruct (match_ends_once (constOracle 1000 0) lateCanvas startTape)
    as (_ & H & _).
  destruct (H eq_refl eq_refl Ht) as [E1 E2].
  rewrite E1, E2. split; reflexivity.
Defined.

(* ================================================================== *)
(** * Eject *)

Lemma ejectLoop_shape (dirX dirY : R) (cells : list PlayerCell) :
  forall (o : Oracle) (t : Tape),
    let r := fst (ejectLoop dirX dirY cells o t) in
    Forall2 keptOrCharged cells (fst r)
    /\ length (snd r) = ejectable cells
    /\ Forall (emittedBy cells) (snd r)
    /\ sumOf c_mass (fst r)
       = sumOf c_mass cells - EJECT_MASS_LOSS * INR (length (snd r)).
Proof.
  induction cells as [|cell rest IH]; intros o t.
  - cbn. split; [constructor|]. split; [reflexivity|].
    split; [constructor|]. unfold sumOf. cbn. lra.
  - cbn [ejectLoop]. unfold ejectable in *. cbn [filter].
    rcase MIN_MASS_TO_EJECT (c_mass cell) G; unfold bind.
    + destruct (generateUUID o t) as [newId t1].
      destruct (Date_now o t1) as [d t2].
      specialize (IH o t2).
      destruct (ejectLoop dirX dirY rest o t2) as [[rest' blobs] t3].
      cbn [fst snd ret length] in *.
      destruct IH as (IH1 & IH2 & IH3 & IH4).
      split; [|split; [|split]].
      * constructor; [|exact IH1]. right.
        repeat split; try reflexivity. exact G.
      * rewrite IH2. reflexivity.
      * constructor.
        -- split; [reflexivity|]. split; [reflexivity|].
           exists cell. split; [left; reflexivity|]. split; [exact G|].
           reflexivity.
        -- eapply Forall_impl; [|exact IH3].
           intros b (A & B & c & Hin & Hm & Ho).
           split; [exact A|]. split; [exact B|].
           exists c. split; [right; exact Hin|]. split; assumption.
      * rewrite !sumOf_cons, IH4. cbn [c_mass setMass].
        rewrite S_INR. lra.
    + specialize (IH o t).
      destruct (ejectLoop dirX dirY rest o t) as [[rest' blobs] t1].
      cbn [fst snd ret length] in *.
      destruct IH as (IH1 & IH2 & IH3 & IH4).
      split; [|split; [|split]].
      * constructor; [|exact IH1]. left. split; [exact G | reflexivity].
      * exact IH2.
      * eapply Forall_impl; [|exact IH3].
        intros b (A & B & c & Hin & Hm & Ho).
        split; [exact A|]. split; [exact B|].
        exists c. split; [right; exact Hin|]. split; assumption.
      * rewrite !sumOf_cons, IH4. lra.
Qed.

(** X1. An eject intent charges every cell of mass at least
    [MIN_MASS_TO_EJECT] the fixed cost [EJECT_MASS_LOSS], leaving it in place
    with the radius of its new mass, and leaves the lighter cells untouched;
    it appends to the ejected mass exactly one blob per charged cell, of mass
    [EJECT_MASS_GAIN] and tagged with the id of a cell heavy enough; the
    blobs already there keep their place.  The player loses 16 per blob and
    the blob carries 12: an eject is lossy. *)
Theorem eject_charges_and_emits
        (dirX dirY : R) (cells : list PlayerCell) (ejected : list EjectedMass)
        (o : Oracle) (t : Tape) :
  let r := fst (processEject dirX dirY cells ejected o t) in
  Forall2 keptOrCharged cells (fst r)
  /\ exists blobs,
      snd r = ejected ++ blobs
      /\ length blobs = ejectable cells
      /\ Forall (emittedBy cells) blobs
      /\ sumOf c_mass (fst r)
         = sumOf c_mass cells - EJECT_MASS_LOSS * INR (length blobs)
      /\ sumOf e_mass blobs = EJECT_MASS_GAIN * INR (length blobs).
Proof.
  cbv zeta. unfold processEject, bind.
  pose proof (ejectLoop_shape dirX dirY cells o t) as H. cbv zeta in H.
  destruct (ejectLoop dirX dirY cells o t) as [[cells' blobs] t1].
  cbn [fst snd] in H. destruct H as (H1 & H2 & H3 & H4).
  destruct (when (negb (isEmpty blobs)) (emit PlayEject) o t1) as [u t2].
  cbn [fst snd ret]. split; [exact H1|].
  exists blobs. repeat split; try assumption.
  clear H2 H4. induction H3 as [|b l (Hb & _) _ IH].
  - unfold sumOf. cbn. lra.
  - rewrite sumOf_cons, IH, Hb. cbn [length]. rewrite S_INR. lra.
Qed.

(* ================================================================== *)
(** * Populations *)

Lemma mapM_length {A B} (f : A -> M B) (l : list A) (o : Oracle) :
  ensures o (mapM f l) (fun l' => length l' = length l).
Proof.
  induction l as [|a l IH]; cbn [mapM].
  - apply ensures_ret. reflexivity.
  - apply ensures_then; intros b.
    eapply ensures_bind; [exact IH|]. intros bs Hbs.
    apply ensures_ret. cbn [length]. congruence.
Qed.

Lemma restoreBots_length (bs : list Bot) :
  forall cells, length (restoreBots bs cells) = length bs.
Proof.
  induction bs as [|b bs IH]; intros cells; cbn [restoreBots length];
    [reflexivity|]. rewrite IH. reflexivity.
Qed.

Lemma swapPop_le {A} (i : nat) (a : list A) :
  (length (swapPop i a) <= length a)%nat.
Proof.
  unfold swapPop. destruct (nth_error a (length a - 1)); [|lia].
  rewrite removelast_length, setAt_length. lia.
Qed.

Lemma foodLoop_length (i : nat) :
  forall fs eaters sc n,
    (length (fst (fst (fst (foodLoop i fs eaters sc n)))) <= length fs)%nat.
Proof.
  induction i as [|i IH]; intros fs eaters sc n; cbn [foodLoop]; [cbn; lia|].
  destruct (nth_error fs i); [|apply IH].
  destruct (feed f eaters) as [[eaters' byBot]|]; [|apply IH].
  pose proof (swapPop_le i fs).
  destruct byBot;
    match goal with
    | |- context [ foodLoop i ?a ?b ?c ?d ] =>
      pose proof (IH a b c d); lia
    end.
Qed.

Lemma botsLoop_length (o : Oracle) (i : nat) :
  forall bs players sc,
    ensures o (botsLoop i bs players sc)
            (fun r => length (fst (fst r)) = length bs).
Proof.
  induction i as [|i IH]; intros bs players sc; cbn [botsLoop].
  - apply ensures_ret. reflexivity.
  - destruct (nth_error bs i) as [bot|]; [|apply IH].
    apply ensures_then; intros [[cells players'] sc'].
    eapply ensures_weaken; [apply IH|].
    intros r Hr. cbn beta in Hr. rewrite Hr. apply setAt_length.
Qed.

Lemma virusLoop_length (o : Oracle) (i : nat) :
  forall vs players bs,
    ensures o (virusLoop i vs players bs)
            (fun r => (length (fst (fst r)) <= length vs)%nat
                      /\ length (snd r) = length bs).
Proof.
  induction i as [|i IH]; intros vs players bs; cbn [virusLoop].
  - apply ensures_ret. cbn. split; [lia | reflexivity].
  - destruct (nth_error vs i) as [virus|]; [|apply IH].
    pose proof (swapPop_le i vs) as Hs.
    apply ensures_then; intros hit. destruct hit as [players'|].
    + eapply ensures_weaken; [apply IH|].
      intros r [A B]. split; [lia | exact B].
    + unfold botsHitVirus.
      destruct (existsb _ bs);
        (eapply ensures_weaken; [apply IH|]);
        intros r [A B]; rewrite length_map in B; (split; [lia | exact B]).
Qed.

Lemma blobVsBots_length (blob : EjectedMass) (bs : list Bot) :
  forall bs', blobVsBots blob bs = Some bs' -> length bs' = length bs.
Proof.
  induction bs as [|bot bs IH]; intros bs' E; cbn [blobVsBots] in E;
    [discriminate|].
  destruct (blobVsCells blob (b_cells bot)).
  - inversion E; subst. reflexivity.
  - destruct (blobVsBots blob bs) as [bs''|]; [|discriminate].
    inversion E; subst. cbn [length]. rewrite (IH bs'' eq_refl). reflexivity.
Qed.

Lemma ejectedLoop_length (o : Oracle) (i : nat) :
  forall blobs players bs consumed,
    ensures o (ejectedLoop i blobs players bs consumed)
            (fun r => length (snd (fst r)) = length bs).
Proof.
  induction i as [|i IH]; intros blobs players bs consumed;
    cbn [ejectedLoop].
  - apply ensures_ret. reflexivity.
  - destruct (nth_error blobs i) as [blob|]; [|apply IH].
    cbv zeta. apply ensures_then; intros hit.
    destruct hit as [players'|]; [apply IH|].
    destruct (blobVsBots (moveBlob blob) bs) as [bs'|] eqn:E; [|apply IH].
    eapply ensures_weaken; [apply IH|].
    intros r Hr. cbn beta in Hr. rewrite Hr.
    apply (blobVsBots_length _ _ E).
Qed.

Lemma capEjected_length (blobs : list EjectedMass) :
  (length (capEjected blobs) <= EJECTED_CAP)%nat.
Proof.
  unfold capEjected, spliceFront.
  destruct (EJECTED_CAP <? length blobs)%nat eqn:G.
  - rewrite length_skipn. lia.
  - apply Nat.ltb_ge in G. exact G.
Qed.

Lemma foodStage_populations (o : Oracle) (s : GameState) :
  ensures o (foodStage s)
          (fun s' => length (bots s') = length (bots s)
                     /\ viruses s' = viruses s
                     /\ ejectedMass s' = ejectedMass s
                     /\ ((length (foods s) <= FOOD_TARGET)%nat ->
                         length (foods s') = FOOD_TARGET)).
Proof.
  unfold foodStage.
  pose proof (foodLoop_length (length (foods s)) (foods s)
                (allEaters (playerCells s) (bots s)) (score s) 0) as HL.
  destruct (foodLoop _ _ _ _ _) as [[[fs eaters'] sc] eatenCount].
  cbn [fst] in HL.
  apply ensures_then; intros _.
  eapply ensures_bind;
    [apply ensures_replicateM with (Q := fun _ => True); intros t; exact I|].
  intros fresh [_ Hfresh]. apply ensures_ret. cbn.
  split; [apply restoreBots_length|]. repeat split.
  intros Hle. rewrite length_app, Hfresh. lia.
Qed.

Lemma simulate_populations (o : Oracle) (now : R) (cv : Canvas) :
  ensures o (simulate now cv)
          (fun cv' => populationsAfter (state cv) (state cv')).
Proof.
  unfold simulate, populationsAfter.
  eapply ensures_bind with
    (P := fun cv1 => bots (state cv1) = bots (state cv)
                     /\ viruses (state cv1) = viruses (state cv)
                     /\ foods (state cv1) = foods (state cv)).
  { unfold playerRespawn.
    destruct (playerCells (state cv)); [|apply ensures_ret; repeat split].
    destruct (playerDeadAt cv); [|apply ensures_ret; repeat split].
    destruct (0 <? _)%Z; [apply ensures_ret; repeat split|].
    unfold spawnPlayer. repeat (apply ensures_then; intros ?).
    apply ensures_ret. repeat split. }
  intros cv1 (B1 & V1 & F1).
  eapply ensures_bind; [apply mapM_length|]. intros bs Hbs.
  eapply ensures_bind with
    (P := fun cv2 => bots (state cv2) = bs
                     /\ viruses (state cv2) = viruses (state cv)
                     /\ foods (state cv2) = foods (state cv)).
  { unfold playerLogic. cbn [state setState].
    destruct (playerCells (setBots (state cv1) bs));
      [apply ensures_ret; cbn; repeat split; assumption|].
    cbv zeta. apply ensures_then; intros cells.
    apply ensures_then; intros [cells' ejected].
    apply ensures_ret. cbn. repeat split; assumption. }
  intros cv2 (B2 & V2 & F2). cbv zeta.
  eapply ensures_bind; [apply mapM_length|]. intros bs2 Hbs2.
  apply ensures_then; intros players.
  eapply ensures_bind; [apply foodStage_populations|].
  intros s3 (B3 & V3 & E3 & F3). cbn in B3, V3, E3, F3.
  eapply ensures_bind with
    (P := fun s4 => length (bots s4) = length (bots s3)
                    /\ viruses s4 = viruses s3 /\ foods s4 = foods s3).
  { unfold crossStage.
    eapply ensures_bind; [apply botsLoop_length|].
    intros [[bs4 players4] sc4] H4. apply ensures_ret. cbn.
    repeat split. exact H4. }
  intros s4 (B4 & V4 & F4).
  eapply ensures_bind with
    (P := fun s5 => length (bots s5) = length (bots s4)
                    /\ (length (viruses s5) <= length (viruses s4))%nat
                    /\ foods s5 = foods s4).
  { unfold virusStage.
    eapply ensures_bind; [apply virusLoop_length|].
    intros [[vs5 players5] bs5] [H5 H5']. apply ensures_ret. cbn.
    repeat split; assumption. }
  intros s5 (B5 & V5 & F5).
  eapply ensures_bind with
    (P := fun s6 => length (bots s6) = length (bots s5)
                    /\ viruses s6 = viruses s5 /\ foods s6 = foods s5
                    /\ (length (ejectedMass s6) <= EJECTED_CAP)%nat).
  { unfold ejectedStage.
    eapply ensures_bind; [apply ejectedLoop_length|].
    intros [[[blobs6 players6] bs6] consumed] H6. cbn [fst snd] in H6.
    apply ensures_then; intros _. apply ensures_ret. cbn.
    repeat split; [exact H6 | apply capEjected_length]. }
  intros s6 (B6 & V6 & F6 & E6).
  apply ensures_ret.
  assert (C : bots (updateCamera s6) = bots s6
              /\ viruses (updateCamera s6) = viruses s6
              /\ foods (updateCamera s6) = foods s6
              /\ ejectedMass (updateCamera s6) = ejectedMass s6).
  { unfold updateCamera. destruct (playerCells s6); repeat split. }
  destruct C as (C1 & C2 & C3 & C4). cbn [state setState].
  rewrite C1, C2, C3, C4.
  split; [congruence|]. split.
  { rewrite V6. rewrite V4, V3, V2 in V5. exact V5. }
  split; [exact E6|].
  intros Hle. rewrite F6, F5, F4. apply F3. rewrite F2. exact Hle.
Qed.

Lemma update_cases (cv : Canvas) (o : Oracle) (t : Tape) :
  state (fst (update cv o t)) = state cv
  \/ state (fst (update cv o t)) = setGameOver (state cv) true
  \/ exists now t', fst (update cv o t) = fst (simulate now cv o t').
Proof.
  unfold update.
  destruct (negb (gameStarted (state cv)) || gameOver (state cv));
    [left; reflexivity|].
  unfold bind. cbn [Date_now].
  destruct (gameEndTime (state cv) <=? clockAt o (clockPos t)).
  - right. left. reflexivity.
  - right. right. eexists. eexists. reflexivity.
Qed.

Lemma update_bots_viruses (cv : Canvas) (o : Oracle) (t : Tape) :
  length (bots (state (fst (update cv o t)))) = length (bots (state cv))
  /\ (length (viruses (state (fst (update cv o t))))
      <= length (viruses (state cv)))%nat.
Proof.
  destruct (update_cases cv o t) as [E | [E | (now & t' & E)]].
  - rewrite E. split; [reflexivity | lia].
  - rewrite E. split; [reflexivity | cbn; lia].
  - rewrite E. destruct (simulate_populations o now cv t') as (A & B & _).
    split; assumption.
Qed.

Lemma reachable_populations (o : Oracle) (cv : Canvas) :
  reachable o cv ->
  length (foods (state cv)) = FOOD_TARGET
  /\ length (bots (state cv)) = BOT_COUNT
  /\ (length (viruses (state cv)) <= VIRUS_TARGET)%nat
  /\ (length (ejectedMass (state cv)) <= EJECTED_CAP)%nat.
Proof.
  induction 1 as [cv t | cv t Hr IH | cv keys intents Hr IH].
  - destruct (initWorld_counts cv o t) as (A & B & C & _ & D & _).
    cbv zeta in *. rewrite A, B, C, D. cbn. repeat split; lia.
  - destruct IH as (F & B & V & E).
    destruct (update_cases cv o t) as [Eq | [Eq | (now & t' & Eq)]].
    + rewrite Eq. repeat split; assumption.
    + rewrite Eq. cbn. repeat split; assumption.
    + rewrite Eq.
      destruct (simulate_populations o now cv t') as (A1 & A2 & A3 & A4).
      split; [apply A4; lia|]. split; [congruence|]. split; [lia | exact A3].
  - exact IH.
Qed.

(** X2. The food stage tops the food back up: whenever the array holds at
    most 800 pellets before the stage it holds exactly 800 after it, however
    many were eaten; and every canvas of a match holds exactly 800. *)
Theorem food_population_restored (o : Oracle) :
  (forall s t,
      (length (foods s) <= FOOD_TARGET)%nat ->
      length (foods (fst (foodStage s o t))) = FOOD_TARGET)
  /\ (forall cv, reachable o cv -> length (foods (state cv)) = FOOD_TARGET).
Proof.
  split.
  - intros s t H. apply (foodStage_populations o s t). exact H.
  - intros cv Hr. apply (reachable_populations Hr).
Qed.

Lemma food_population_restored_witness :
  let o := constOracle 1000 0 in
  let cv := fst (initWorld mountCanvas o startTape) in
  reachable o cv /\ length (foods (state cv)) = FOOD_TARGET.
Proof.
  cbv zeta. split; [apply reach_init|].
  apply (proj2 (food_population_restored (constOracle 1000 0))).
  apply reach_init.
Defined.

(** X3. Viruses are never replenished: no tick adds a virus, so a match
    never holds more than the 40 it starts with. *)
Theorem viruses_never_replenished (o : Oracle) :
  (forall cv t,
      (length (viruses (state (fst (update cv o t))))
       <= length (viruses (state cv)))%nat)
  /\ (forall cv, reachable o cv ->
                 (length (viruses (state cv)) <= VIRUS_TARGET)%nat).
Proof.
  split.
  - intros cv t. apply update_bots_viruses.
  - intros cv Hr. apply (reachable_populations Hr).
Qed.

Lemma viruses_never_replenished_witness :
  let o := constOracle 1000 0 in
  let cv := fst (initWorld mountCanvas o startTape) in
  reachable o cv /\ (length (viruses (state cv)) <= VIRUS_TARGET)%nat.
Proof.
  cbv zeta. split; [apply reach_init|].
  apply (proj2 (viruses_never_replenished (constOracle 1000 0))).
  apply reach_init.
Defined.

(** X4. However many blobs the cells eject, the ejected mass a simulated
    tick leaves holds at most 300 blobs, and so does every canvas of a
    match. *)
Theorem ejected_population_capped (o : Oracle) :
  (forall now cv t,
      (length (ejectedMass (state (fst (simulate now cv o t))))
       <= EJECTED_CAP)%nat)
  /\ (forall cv, reachable o cv ->
                 (length (ejectedMass (state cv)) <= EJECTED_CAP)%nat).
Proof.
  split.
  - intros now cv t. apply (simulate_populations o now cv t).
  - intros cv Hr. apply (reachable_populations Hr).
Qed.

Lemma ejected_population_capped_witness :
  let o := constOracle 1000 0 in
  let cv := fst (initWorld mountCanvas o startTape) in
  reachable o cv /\ (length (ejectedMass (state cv)) <= EJECTED_CAP)%nat.
Proof.
  cbv zeta. split; [apply reach_init|].
  apply (proj2 (ejected_population_capped (constOracle 1000 0))).
  apply reach_init.
Defined.

(** X5. A tick neither adds nor removes a bot controller (a dead bot keeps
    its slot until a fresh bot replaces it there): every canvas of a match
    holds exactly [BOT_COUNT] bots. *)
Theorem bot_count_constant (o : Oracle) :
  (forall cv t,
      length (bots (state (fst (update cv o t)))) = length (bots (state cv)))
  /\ (forall cv, reachable o cv -> length (bots (state cv)) = BOT_COUNT).
Proof.
  split.
  - intros cv t. apply update_bots_viruses.
  - intros cv Hr. apply (reachable_populations Hr).
Qed.

Lemma bot_count_constant_witness :
  let o := constOracle 1000 0 in
  let cv := fst (initWorld mountCanvas o startTape) in
  reachable o cv /\ length (bots (state cv)) = BOT_COUNT.
Proof.
  cbv zeta. split; [apply reach_init|].
  apply (proj2 (bot_count_constant (constOracle 1000 0))).
  apply reach_init.
Defined.

(* ================================================================== *)
(** * Mass accounts *)

Lemma sumOf_map {A B} (f : B -> R) (g : A -> B) (l : list A) :
  sumOf f (map g l) = sumOf (fun a => f (g a)) l.
Proof.
  induction l as [|a l IH]; cbn [map]; [reflexivity|].
  rewrite !sumOf_cons, IH. reflexivity.
Qed.

Lemma sumOf_setAt {A} (f : A -> R) (l : list A) :
  forall k x v,
    nth_error l k = Some x -> sumOf f (setAt k v l) = sumOf f l - f x + f v.
Proof.
  induction l as [|h l IH]; intros k x v E; destruct k; cbn in E;
    try discriminate; cbn [setAt].
  - inversion E; subst. rewrite !sumOf_cons. lra.
  - rewrite !sumOf_cons, (IH k x v E). lra.
Qed.

Lemma sumOf_splice1 {A} (f : A -> R) (l : list A) :
  forall k x, nth_error l k = Some x -> sumOf f (splice1 k l) = sumOf f l - f x.
Proof.
  induction l as [|h l IH]; intros k x E; destruct k; cbn in E;
    try discriminate; cbn [splice1].
  - inversion E; subst. rewrite sumOf_cons. lra.
  - rewrite !sumOf_cons, (IH k x E). lra.
Qed.

Lemma sumOf_const {A} (f : A -> R) (m : R) (l : list A) :
  Forall (fun a => f a = m) l -> sumOf f l = m * INR (length l).
Proof.
  induction 1 as [|a l Ha _ IH].
  - unfold sumOf. cbn. lra.
  - rewrite sumOf_cons, IH, Ha. cbn [length]. rewrite S_INR. lra.
Qed.

(** ** Food *)

Lemma feed_mass (food : Food) (eaters eaters' : list Eater) (byBot : bool) :
  feed food eaters = Some (eaters', byBot) ->
  sumOf eaterMass eaters' = sumOf eaterMass eaters + 1
  /\ length eaters' = length eaters.
Proof.
  intros E.
  destruct (feed_first_eater food eaters E)
    as (before & e & after & -> & -> & _).
  rewrite !sumOf_app, !sumOf_cons, !length_app. cbn [length].
  split; [|reflexivity]. unfold eaterMass, fed. cbn. lra.
Qed.

Lemma foodLoop_account (i : nat) :
  forall fs eaters sc n,
    (i <= length fs)%nat ->
    let r := foodLoop i fs eaters sc n in
    let fs' := fst (fst (fst r)) in
    let eaters' := snd (fst (fst r)) in
    (length fs' <= length fs)%nat
    /\ sumOf eaterMass eaters'
       = sumOf eaterMass eaters + INR (length fs - length fs')
    /\ length eaters' = length eaters
    /\ (snd r - n <= length fs - length fs')%nat.
Proof.
  induction i as [|i IH]; intros fs eaters sc n Hi; cbn [foodLoop].
  - cbn [fst snd]. rewrite Nat.sub_diag. change (INR 0) with 0.
    split; [lia|]. split; [lra|]. split; [reflexivity | lia].
  - cbv zeta.
    destruct (nth_error fs i) as [food|] eqn:E.
    2:{ apply nth_error_None in E. lia. }
    destruct (feed food eaters) as [[eaters' byBot]|] eqn:Ef.
    2:{ apply IH. lia. }
    destruct (feed_mass food eaters Ef) as [Hm Hl].
    assert (Hs : length (swapPop i fs) = (length fs - 1)%nat)
      by (apply swapPop_length; lia).
    assert (Hstep : forall sc' n',
               (n' <= S n)%nat ->
               let r := foodLoop i (swapPop i fs) eaters' sc' n' in
               (length (fst (fst (fst r))) <= length fs)%nat
               /\ sumOf eaterMass (snd (fst (fst r)))
                  = sumOf eaterMass eaters
                    + INR (length fs - length (fst (fst (fst r))))
               /\ length (snd (fst (fst r))) = length eaters
               /\ (snd r - n <= length fs - length (fst (fst (fst r))))%nat).
    { intros sc' n' Hn'.
      pose proof (IH (swapPop i fs) eaters' sc' n') as H.
      cbv zeta in *. destruct H as (A & B & C & D); [lia|].
      rewrite Hs in *.
      split; [lia|]. split.
      - rewrite B, Hm.
        replace (length fs - length (fst (fst (fst (foodLoop i (swapPop i fs)
                   eaters' sc' n')))))%nat
          with (S (length fs - 1
                   - length (fst (fst (fst (foodLoop i (swapPop i fs)
                        eaters' sc' n'))))))%nat by lia.
        rewrite S_INR. lra.
      - split; [congruence | lia]. }
    destruct byBot; apply Hstep; lia.
Qed.

Lemma botEaters_length (bs : list Bot) :
  forall idx, length (botEaters idx bs) = length (concat (map b_cells bs)).
Proof.
  intros idx. rewrite <- (botEaters_cells bs idx). symmetry. apply length_map.
Qed.

Lemma restoreBots_account (bs : list Bot) :
  forall cells,
    length cells = length (concat (map b_cells bs)) ->
    botsMass (restoreBots bs cells) = sumOf c_mass cells
    /\ botCounts (restoreBots bs cells) = botCounts bs.
Proof.
  induction bs as [|b bs IH]; intros cells H; cbn [restoreBots map concat] in *.
  - destruct cells; [|discriminate]. split; reflexivity.
  - rewrite length_app in H.
    destruct (IH (skipn (length (b_cells b)) cells)) as [A B].
    { rewrite length_skipn. lia. }
    unfold botsMass, botCounts in *. cbn [map]. rewrite sumOf_cons, A.
    cbn [b_cells setCells]. split.
    + rewrite <- (firstn_skipn (length (b_cells b)) cells) at 3.
      rewrite sumOf_app. reflexivity.
    + rewrite B. rewrite length_firstn. f_equal. lia.
Qed.

Lemma botsMass_concat (bs : list Bot) :
  botsMass bs = sumOf c_mass (concat (map b_cells bs)).
Proof.
  unfold botsMass. induction bs as [|b bs IH]; cbn [map concat];
    [reflexivity|].
  rewrite sumOf_cons, sumOf_app, IH. reflexivity.
Qed.

(** X6. The food stage turns pellets into mass one for one: the mass held
    by all the cells grows by exactly the number of pellets eaten, the score
    by at most that number (one per pellet eaten by a player cell), and
    every actor keeps the number of cells it had. *)
Theorem pellets_become_mass (s : GameState) (o : Oracle) (t : Tape) :
  let s' := fst (foodStage s o t) in
  exists eaten : nat,
    (eaten <= length (foods s))%nat
    /\ totalMass s' = totalMass s + INR eaten
    /\ (score s <= score s' <= score s + Z.of_nat eaten)%Z
    /\ length (playerCells s') = length (playerCells s)
    /\ botCounts (bots s') = botCounts (bots s).
Proof.
  cbv zeta. unfold foodStage.
  pose proof (@foodLoop_account (length (foods s)) (foods s)
                (allEaters (playerCells s) (bots s)) (score s) 0
                (Nat.le_refl _)) as HA.
  pose proof (foodLoop_score (length (foods s)) (foods s)
                (allEaters (playerCells s) (bots s)) (score s) 0) as HS.
  cbv zeta in HA, HS.
  destruct (foodLoop _ _ _ _ _) as [[[fs eaters'] sc] eatenCount].
  cbn [fst snd] in HA, HS.
  destruct HA as (A1 & A2 & A3 & A4). destruct HS as [_ HS].
  unfold bind.
  destruct (when (0 <? eatenCount)%nat (emit PlayEat) o t) as [u t1].
  destruct (replicateM (FOOD_TARGET - length fs) newFood o t1)
    as [fresh t2].
  cbn [fst ret].
  exists (length (foods s) - length fs)%nat.
  assert (Hlen : length (map eater_cell eaters')
                 = (length (playerCells s)
                    + length (concat (map b_cells (bots s))))%nat).
  { rewrite length_map, A3. unfold allEaters.
    rewrite length_app, length_map, botEaters_length. reflexivity. }
  destruct (restoreBots_account (bots s)
              (skipn (length (playerCells s)) (map eater_cell eaters')))
    as [R1 R2].
  { rewrite length_skipn. lia. }
  split; [lia|]. split; [|split; [|split]].
  - unfold totalMass. cbn [playerCells bots setScore setFoods setBots
                           setPlayerCells].
    rewrite R1, <- sumOf_app, firstn_skipn, sumOf_map.
    change (fun a => c_mass (eater_cell a)) with eaterMass.
    rewrite A2. unfold allEaters.
    rewrite sumOf_app. unfold eaterMass at 1. rewrite <- sumOf_map.
    rewrite map_map. cbn [eater_cell]. rewrite map_id.
    rewrite <- (sumOf_map c_mass eater_cell), botEaters_cells,
      <- botsMass_concat. reflexivity.
  - cbn [score setScore]. lia.
  - cbn [playerCells setScore setFoods setBots setPlayerCells].
    rewrite length_firstn. lia.
  - cbn [bots setScore setFoods setBots]. exact R2.
Qed.

(** ** Player against bots *)

Section CrossAccount.
Variable o : Oracle.

Lemma vsPlayers_account (k : nat) :
  forall bCell players sc,
    ensures o (vsPlayers k bCell players sc)
      (fun r => keptMass (fst (fst r)) + sumOf c_mass (snd (fst r))
                = c_mass bCell + sumOf c_mass players
                /\ (length (snd (fst r)) <= length players)%nat).
Proof.
  induction k as [|k IH]; intros bCell players sc; cbn [vsPlayers].
  - apply ensures_ret. cbn. split; [reflexivity | lia].
  - destruct (nth_error players k) as [pCell|] eqn:E; [|apply IH].
    destruct (playerEatsBot pCell bCell).
    + apply ensures_then; intros _. apply ensures_ret. cbn [fst snd keptMass].
      rewrite (sumOf_setAt c_mass players k (absorb pCell bCell) E),
        setAt_length.
      split; [|lia]. unfold absorb. cbn. lra.
    + destruct (botEatsPlayer pCell bCell); [|apply IH].
      eapply ensures_weaken; [apply IH|]. intros r [A B].
      rewrite (sumOf_splice1 c_mass players k E) in A.
      assert (length (splice1 k players) <= length players)%nat.
      { apply splice1_length. }
      split; [|lia]. rewrite A. unfold absorb. cbn. lra.
Qed.

Lemma botCellsLoop_account (j : nat) :
  forall cells players sc,
    ensures o (botCellsLoop j cells players sc)
      (fun r => sumOf c_mass (fst (fst r)) + sumOf c_mass (snd (fst r))
                = sumOf c_mass cells + sumOf c_mass players
                /\ (length (fst (fst r)) <= length cells)%nat
                /\ (length (snd (fst r)) <= length players)%nat).
Proof.
  induction j as [|j IH]; intros cells players sc; cbn [botCellsLoop].
  - apply ensures_ret. cbn. split; [reflexivity | lia].
  - destruct (nth_error cells j) as [bCell|] eqn:E; [|apply IH].
    eapply ensures_bind; [apply vsPlayers_account|].
    intros [[survivor players'] sc'] [A B]. cbn [fst snd] in A, B.
    destruct survivor as [bCell'|]; cbn [keptMass] in A.
    + eapply ensures_weaken; [apply IH|]. intros r (C & D & F).
      rewrite (sumOf_setAt c_mass cells j bCell' E) in C.
      rewrite setAt_length in D.
      split; [lra | lia].
    + eapply ensures_weaken; [apply IH|]. intros r (C & D & F).
      rewrite (sumOf_splice1 c_mass cells j E) in C.
      assert (length (splice1 j cells) <= length cells)%nat.
      { apply splice1_length. }
      split; [lra | lia].
Qed.

Lemma botsLoop_account (i : nat) :
  forall bs players sc,
    ensures o (botsLoop i bs players sc)
      (fun r => botsMass (fst (fst r)) + sumOf c_mass (snd (fst r))
                = botsMass bs + sumOf c_mass players
                /\ (length (snd (fst r)) <= length players)%nat).
Proof.
  induction i as [|i IH]; intros bs players sc; cbn [botsLoop].
  - apply ensures_ret. cbn. split; [reflexivity | lia].
  - destruct (nth_error bs i) as [bot|] eqn:E; [|apply IH].
    eapply ensures_bind; [apply botCellsLoop_account|].
    intros [[cells players'] sc'] (A & B & C). cbn [fst snd] in A, B, C.
    eapply ensures_weaken; [apply IH|]. intros r [D F].
    unfold botsMass in D at 2.
    rewrite (sumOf_setAt (fun b => sumOf c_mass (b_cells b)) bs i
               (setCells bot cells) E) in D.
    cbn [b_cells setCells] in D. fold (botsMass bs) in D.
    split; [lra | lia].
Qed.

End CrossAccount.

(** X7. The stage where player cells and bot cells eat one another moves
    mass but neither creates nor destroys it: the total mass of all cells is
    the same after the stage as before, and the player has no more cells
    than before. *)
Theorem cross_stage_conserves_mass (s : GameState) (o : Oracle) (t : Tape) :
  let s' := fst (crossStage s o t) in
  totalMass s' = totalMass s
  /\ (length (playerCells s') <= length (playerCells s))%nat.
Proof.
  cbv zeta. revert t.
  change (ensures o (crossStage s)
            (fun s' => totalMass s' = totalMass s
                       /\ (length (playerCells s')
                           <= length (playerCells s))%nat)).
  unfold crossStage.
  eapply ensures_bind; [apply botsLoop_account|].
  intros [[bs players] sc] [A B]. cbn [fst snd] in A, B.
  apply ensures_ret. unfold totalMass.
  cbn [playerCells bots setScore setBots setPlayerCells].
  split; [lra | exact B].
Qed.

(** ** Viruses *)

Lemma fragment_mass (o : Oracle) (cell : PlayerCell) (m : R) :
  ensures o (fragment cell m) (fun f => c_mass f = m).
Proof.
  unfold fragment. repeat (apply ensures_then; intros ?).
  apply ensures_ret. reflexivity.
Qed.

Lemma nth_error_setAt {A} (l : list A) :
  forall i x v, nth_error l i = Some x -> nth_error (setAt i v l) i = Some v.
Proof.
  induction l as [|h l IH]; intros i x v E; destruct i; cbn in *;
    try discriminate; [reflexivity|].
  exact (IH i x v E).
Qed.

Lemma piecesFor_share (n : nat) (m : R) :
  (0 < piecesFor n)%Z ->
  m / IZR (piecesFor n + 1) * INR (Z.to_nat (piecesFor n))
  + m / IZR (piecesFor n + 1) = m.
Proof.
  intros H. rewrite INR_IZR_INZ, Z2Nat.id by lia. rewrite plus_IZR.
  assert (0 < IZR (piecesFor n)) by (apply IZR_lt; exact H).
  field. lra.
Qed.

(** What [explode] leaves in the array: the cell at [j] shrunk to a share,
    the other cells as they were, then the fragments, one share each. *)
Lemma explode_shape (j : nat) (cell : PlayerCell) (players : list PlayerCell)
      (o : Oracle) (t : Tape) :
  exists (cell' : PlayerCell) (frags : list PlayerCell),
    fst (explode j cell players o t) = setAt j cell' players ++ frags
    /\ synced cell'
    /\ Forall (fun f => c_mass f = c_mass cell') frags
    /\ c_mass cell' * INR (length frags) + c_mass cell'
       = c_mass cell + VIRUS_BONUS_MASS.
Proof.
  unfold explode, bind. cbn [emit].
  destruct (0 <? piecesFor (length players))%Z eqn:G.
  - apply Z.ltb_lt in G.
    match goal with
    | |- context [ replicateM ?n (fragment ?c ?m) o ?t' ] =>
      pose proof (ensures_replicateM (o := o) n (fragment_mass o c m) t')
        as [Hf Hlen];
        destruct (replicateM n (fragment c m) o t') as [frags t'']
    end.
    cbn [fst snd ret] in *. eexists _, frags.
    split; [reflexivity|]. split; [reflexivity|].
    split; [exact Hf|]. rewrite Hlen. cbn [c_mass setMass].
    apply piecesFor_share. exact G.
  - cbn [fst ret]. eexists _, []. rewrite app_nil_r.
    split; [reflexivity|]. split; [reflexivity|].
    split; [constructor|]. cbn. lra.
Qed.

Lemma explode_account (j : nat) (cell : PlayerCell) (players : list PlayerCell)
      (o : Oracle) (t : Tape) :
  nth_error players j = Some cell ->
  sumOf c_mass (fst (explode j cell players o t))
  = sumOf c_mass players + VIRUS_BONUS_MASS.
Proof.
  intros E.
  destruct (explode_shape j cell players o t) as (c' & frags & -> & _ & Hf & Hm).
  rewrite sumOf_app, (sumOf_setAt c_mass players j c' E),
    (sumOf_const c_mass Hf).
  lra.
Qed.

(** X8. A player cell that bursts on a virus first takes the bonus, then
    shares the whole of it with its fragments: the mass of the player grows
    by exactly [VIRUS_BONUS_MASS], the burst cell and every fragment end with
    the same mass, and the burst cell's radius follows its new mass. *)
Theorem explosion_shares_mass (j : nat) (cell : PlayerCell)
        (players : list PlayerCell) (o : Oracle) (t : Tape) :
  nth_error players j = Some cell ->
  let out := fst (explode j cell players o t) in
  sumOf c_mass out = sumOf c_mass players + VIRUS_BONUS_MASS
  /\ exists cell',
      nth_error out j = Some cell'
      /\ synced cell'
      /\ Forall (fun f => c_mass f = c_mass cell')
                (skipn (length players) out).
Proof.
  intros E. cbv zeta. split; [apply explode_account; exact E|].
  destruct (explode_shape j cell players o t) as (c' & frags & -> & Hs & Hf & _).
  exists c'. split; [|split; [exact Hs|]].
  - rewrite nth_error_app1.
    + exact (nth_error_setAt players j c' E).
    + rewrite setAt_length. apply nth_error_Some. congruence.
  - rewrite skipn_app, setAt_length, Nat.sub_diag.
    rewrite <- (setAt_length j c' players) at 1. rewrite skipn_all.
    cbn. exact Hf.
Qed.

Lemma explosion_shares_mass_witness :
  let cell := cellAt "a" 0 0 200 in
  let out := fst (explode 0 cell [cell] (constOracle 1000 0) startTape) in
  sumOf c_mass out = sumOf c_mass [cell] + VIRUS_BONUS_MASS
  /\ exists cell',
      nth_error out 0 = Some cell'
      /\ synced cell'
      /\ Forall (fun f => c_mass f = c_mass cell') (skipn 1 out).
Proof.
  cbv zeta.
  apply (@explosion_shares_mass 0 (cellAt "a" 0 0 200) [cellAt "a" 0 0 200]
           (constOracle 1000 0) startTape).
  reflexivity.
Defined.

Lemma botsHitVirus_counts (virus : Virus) (bs : list Bot) :
  botCounts (fst (botsHitVirus virus bs)) = botCounts bs.
Proof.
  unfold botsHitVirus, botCounts. cbn [fst]. rewrite map_map.
  apply map_ext. intros b. cbn [b_cells setCells]. apply length_map.
Qed.

Lemma virusVsPlayers_account (o : Oracle) (virus : Virus)
      (players : list PlayerCell) (j : nat) :
  ensures o (virusVsPlayers j virus players)
    (fun hit => match hit with
                | Some players' =>
                  sumOf c_mass players'
                  = sumOf c_mass players + VIRUS_BONUS_MASS
                | None => True
                end).
Proof.
  induction j as [|j IH]; cbn [virusVsPlayers].
  - apply ensures_ret. exact I.
  - destruct (nth_error players j) as [cell|] eqn:E; [|exact IH].
    destruct (hitsVirus cell virus); [|exact IH].
    intros t. unfold bind.
    pose proof (@explode_account j cell players o t E) as H.
    destruct (explode j cell players o t) as [players' t']. exact H.
Qed.

Lemma virusLoop_account (o : Oracle) (i : nat) :
  forall vs players bs,
    (i <= length vs)%nat ->
    ensures o (virusLoop i vs players bs)
      (fun r => exists burst : nat,
           (length (fst (fst r)) + burst <= length vs)%nat
           /\ sumOf c_mass (snd (fst r))
              = sumOf c_mass players + VIRUS_BONUS_MASS * INR burst
           /\ botCounts (snd r) = botCounts bs).
Proof.
  induction i as [|i IH]; intros vs players bs Hi; cbn [virusLoop].
  - apply ensures_ret. exists 0%nat. cbn [fst snd].
    split; [lia|]. split; [|reflexivity]. change (INR 0) with 0. lra.
  - destruct (nth_error vs i) as [virus|]; [|apply IH; lia].
    assert (Hs : length (swapPop i vs) = (length vs - 1)%nat)
      by (apply swapPop_length; lia).
    eapply ensures_bind; [apply virusVsPlayers_account|].
    intros hit Hhit. destruct hit as [players'|].
    + eapply ensures_weaken; [apply IH; lia|].
      intros r (k & A & B & C). exists (S k).
      split; [lia|]. split; [|exact C].
      rewrite B, Hhit, S_INR. lra.
    + pose proof (botsHitVirus_counts virus bs) as Hc.
      destruct (botsHitVirus virus bs) as [bs' exploded]. cbn [fst] in Hc.
      destruct exploded;
        (eapply ensures_weaken; [apply IH; lia|]);
        intros r (k & A & B & C); exists k;
        (split; [lia|]); (split; [exact B | congruence]).
Qed.

(** X9. In the virus stage only the player is split and only the player
    gains: its mass grows by [VIRUS_BONUS_MASS] for each virus one of its
    cells burst, each such virus is removed, and every bot keeps the number
    of cells it had. *)
Theorem virus_stage_account (s : GameState) (o : Oracle) (t : Tape) :
  let s' := fst (virusStage s o t) in
  exists burst : nat,
    (length (viruses s') + burst <= length (viruses s))%nat
    /\ sumOf c_mass (playerCells s')
       = sumOf c_mass (playerCells s) + VIRUS_BONUS_MASS * INR burst
    /\ botCounts (bots s') = botCounts (bots s).
Proof.
  cbv zeta. revert t.
  change (ensures o (virusStage s)
            (fun s' => exists burst : nat,
                 (length (viruses s') + burst <= length (viruses s))%nat
                 /\ sumOf c_mass (playerCells s')
                    = sumOf c_mass (playerCells s)
                      + VIRUS_BONUS_MASS * INR burst
                 /\ botCounts (bots s') = botCounts (bots s))).
  unfold virusStage.
  eapply ensures_bind; [apply virusLoop_account; lia|].
  intros [[vs players] bs] H. cbn [fst snd] in H.
  apply ensures_ret. exact H.
Qed.

(** ** Ejected mass *)

Lemma setAt_app_l {A} (r : list A) (v : A) (l : list A) :
  forall i, (i < length l)%nat -> setAt i v (l ++ r) = setAt i v l ++ r.
Proof.
  induction l as [|h l IH]; intros i Hi; cbn [length] in Hi; [lia|].
  destruct i; cbn [setAt app]; [reflexivity|].
  rewrite IH by lia. reflexivity.
Qed.

Lemma setAt_last {A} (v z : A) (l : list A) :
  setAt (length l) v (l ++ [z]) = l ++ [v].
Proof.
  induction l as [|h l IH]; cbn [length setAt app]; [reflexivity|].
  rewrite IH. reflexivity.
Qed.

Lemma sumOf_swapPop {A} (f : A -> R) (l : list A) (i : nat) (x : A) :
  nth_error l i = Some x -> sumOf f (swapPop i l) = sumOf f l - f x.
Proof.
  intros E.
  assert (Hne : l <> []) by (intros ->; destruct i; discriminate).
  destruct (exists_last Hne) as (l' & z & ->).
  assert (Hi : (i < length (l' ++ [z]))%nat)
    by (apply nth_error_Some; congruence).
  rewrite length_app in Hi. cbn [length] in Hi.
  unfold swapPop. rewrite length_app. cbn [length].
  replace (length l' + 1 - 1)%nat with (length l') by lia.
  rewrite nth_error_app2, Nat.sub_diag by lia. cbn [nth_error].
  destruct (Nat.lt_ge_cases i (length l')) as [Hlt|Hge].
  - rewrite setAt_app_l by exact Hlt. rewrite removelast_last.
    rewrite nth_error_app1 in E by exact Hlt.
    rewrite (sumOf_setAt f l' i z E), sumOf_app, sumOf_cons.
    unfold sumOf at 3. cbn. lra.
  - assert (i = length l') by lia. subst i.
    rewrite nth_error_app2, Nat.sub_diag in E by lia. cbn in E.
    inversion E; subst. rewrite setAt_last, removelast_last.
    rewrite sumOf_app, sumOf_cons. unfold sumOf at 3. cbn. lra.
Qed.

Lemma moveBlob_mass (b : EjectedMass) : e_mass (moveBlob b) = e_mass b.
Proof.
  unfold moveBlob, advance, bounce, bounceBottom, bounceTop, bounceRight,
    bounceLeft.
  cbn [e_mass setBlobX setBlobY].
  repeat match goal with
         | |- context [ if ?c then _ else _ ] => destruct c
         end; reflexivity.
Qed.

Lemma blobVsPlayers_account (o : Oracle) (blob : EjectedMass)
      (cells : list PlayerCell) :
  ensures o (blobVsPlayers blob cells)
    (fun hit => match hit with
                | Some cells' =>
                  sumOf c_mass cells' = sumOf c_mass cells + e_mass blob
                  /\ length cells' = length cells
                | None => True
                end).
Proof.
  induction cells as [|cell rest IH]; cbn [blobVsPlayers].
  - apply ensures_ret. exact I.
  - assert (Hnext : ensures o
                      (r <- blobVsPlayers blob rest ;;
                       ret (option_map (cons cell) r))
                      (fun hit => match hit with
                                  | Some cells' =>
                                    sumOf c_mass cells'
                                    = sumOf c_mass (cell :: rest) + e_mass blob
                                    /\ length cells' = length (cell :: rest)
                                  | None => True
                                  end)).
    { eapply ensures_bind; [exact IH|]. intros [cells'|] H; apply ensures_ret;
        cbn [option_map]; [|exact I].
      destruct H as [A B]. rewrite !sumOf_cons, A. cbn [length].
      split; [lra | congruence]. }
    cbv zeta. destruct (touches cell blob); [|exact Hnext].
    apply ensures_then; intros own. destruct own; [exact Hnext|].
    destruct (bigEnough cell blob); [|exact Hnext].
    apply ensures_ret. rewrite !sumOf_cons. cbn [length].
    split; [|reflexivity]. unfold swallow. cbn. lra.
Qed.

Lemma blobVsCells_account (blob : EjectedMass) (cells : list PlayerCell) :
  forall cells',
    blobVsCells blob cells = Some cells' ->
    sumOf c_mass cells' = sumOf c_mass cells + e_mass blob
    /\ length cells' = length cells.
Proof.
  induction cells as [|cell rest IH]; intros cells' E; cbn [blobVsCells] in E;
    [discriminate|].
  destruct (touches cell blob && bigEnough cell blob).
  - inversion E; subst. rewrite !sumOf_cons. cbn [length].
    split; [|reflexivity]. unfold swallow. cbn. lra.
  - destruct (blobVsCells blob rest) as [rest'|]; [|discriminate].
    inversion E; subst. destruct (IH rest' eq_refl) as [A B].
    rewrite !sumOf_cons, A. cbn [length]. split; [lra | congruence].
Qed.

Lemma blobVsBots_account (blob : EjectedMass) (bs : list Bot) :
  forall bs',
    blobVsBots blob bs = Some bs' ->
    botsMass bs' = botsMass bs + e_mass blob
    /\ botCounts bs' = botCounts bs.
Proof.
  unfold botsMass, botCounts.
  induction bs as [|bot bs IH]; intros bs' E; cbn [blobVsBots] in E;
    [discriminate|].
  destruct (blobVsCells blob (b_cells bot)) as [cells|] eqn:Ec.
  - inversion E; subst. destruct (blobVsCells_account _ _ Ec) as [A B].
    cbn [map]. rewrite !sumOf_cons. cbn [b_cells setCells].
    rewrite A, B. split; [lra | reflexivity].
  - destruct (blobVsBots blob bs) as [rest'|]; [|discriminate].
    inversion E; subst. destruct (IH rest' eq_refl) as [A B].
    cbn [map]. rewrite !sumOf_cons, A, B. split; [lra | reflexivity].
Qed.

Lemma ejectedLoop_account (o : Oracle) (i : nat) :
  forall blobs players bs consumed,
    ensures o (ejectedLoop i blobs players bs consumed)
      (fun r =>
         let blobs' := fst (fst (fst r)) in
         let players' := snd (fst (fst r)) in
         let bs' := snd (fst r) in
         sumOf c_mass players' + botsMass bs' + blobsMass blobs'
         = sumOf c_mass players + botsMass bs + blobsMass blobs
         /\ (length blobs' <= length blobs)%nat
         /\ length players' = length players
         /\ botCounts bs' = botCounts bs).
Proof.
  induction i as [|i IH]; intros blobs players bs consumed;
    cbn [ejectedLoop].
  - apply ensures_ret. cbn [fst snd]. repeat split. lia.
  - destruct (nth_error blobs i) as [blob|] eqn:E; [|apply IH].
    cbv zeta.
    pose proof (nth_error_setAt blobs i (moveBlob blob) E) as Hn.
    assert (Hm : blobsMass (setAt i (moveBlob blob) blobs) = blobsMass blobs).
    { unfold blobsMass. rewrite (sumOf_setAt e_mass blobs i _ E), moveBlob_mass.
      lra. }
    assert (Hp : blobsMass (swapPop i (setAt i (moveBlob blob) blobs))
                 = blobsMass blobs - e_mass blob).
    { unfold blobsMass in *. rewrite (sumOf_swapPop e_mass _ _ Hn), Hm,
        moveBlob_mass. reflexivity. }
    pose proof (swapPop_le i (setAt i (moveBlob blob) blobs)) as Hl.
    rewrite setAt_length in Hl.
    eapply ensures_bind; [apply blobVsPlayers_account|].
    intros [players'|] Hhit.
    + destruct Hhit as [A B]. rewrite moveBlob_mass in A.
      eapply ensures_weaken; [apply IH|]. cbv zeta.
      intros r (C & D & F & G). rewrite C, Hp, A.
      split; [lra|]. split; [lia|]. split; [congruence | exact G].
    + destruct (blobVsBots (moveBlob blob) bs) as [bs'|] eqn:Eb.
      * destruct (blobVsBots_account _ _ Eb) as [A B].
        rewrite moveBlob_mass in A.
        eapply ensures_weaken; [apply IH|]. cbv zeta.
        intros r (C & D & F & G). rewrite C, Hp, A.
        split; [lra|]. split; [lia|]. split; [exact F | congruence].
      * eapply ensures_weaken; [apply IH|]. cbv zeta.
        intros r (C & D & F & G). rewrite C, Hm, setAt_length in *.
        split; [reflexivity|]. split; [lia|]. split; [exact F | exact G].
Qed.

(** X10. While the ejected blobs are within the cap, the ejected-mass
    stage only moves mass from blobs to cells: the mass of all cells plus
    the mass of all blobs is the same after the stage as before, and every
    actor keeps the number of cells it had. *)
Theorem ejected_stage_conserves_mass (s : GameState) (o : Oracle) (t : Tape) :
  (length (ejectedMass s) <= EJECTED_CAP)%nat ->
  let s' := fst (ejectedStage s o t) in
  totalMass s' + blobsMass (ejectedMass s')
  = totalMass s + blobsMass (ejectedMass s)
  /\ length (playerCells s') = length (playerCells s)
  /\ botCounts (bots s') = botCounts (bots s).
Proof.
  intros Hcap. cbv zeta. revert t.
  change (ensures o (ejectedStage s)
            (fun s' => totalMass s' + blobsMass (ejectedMass s')
                       = totalMass s + blobsMass (ejectedMass s)
                       /\ length (playerCells s') = length (playerCells s)
                       /\ botCounts (bots s') = botCounts (bots s))).
  unfold ejectedStage.
  eapply ensures_bind; [apply ejectedLoop_account|].
  intros [[[blobs players] bs] consumed] (A & B & C & D).
  cbn [fst snd] in A, B, C, D.
  apply ensures_then; intros _. apply ensures_ret.
  unfold totalMass.
  cbn [playerCells bots ejectedMass setEjected setBots setPlayerCells].
  assert (Hc : capEjected blobs = blobs).
  { unfold capEjected.
    destruct (EJECTED_CAP <? length blobs)%nat eqn:G; [|reflexivity].
    apply Nat.ltb_lt in G. lia. }
  rewrite Hc. split; [lra|]. split; [exact C | exact D].
Qed.

Lemma ejected_stage_conserves_mass_witness :
  let s' := fst (ejectedStage blobScene (constOracle 1000 0) startTape) in
  totalMass s' + blobsMass (ejectedMass s')
  = totalMass blobScene + blobsMass (ejectedMass blobScene)
  /\ length (playerCells s') = length (playerCells blobScene)
  /\ botCounts (bots s') = botCounts (bots blobScene).
Proof.
  cbv zeta.
  apply (@ejected_stage_conserves_mass blobScene (constOracle 1000 0)
           startTape).
  unfold blobScene, EJECTED_CAP. cbn [ejectedMass length]. lia.
Defined.

(* ================================================================== *)
(** * Self-collision of a whole array under cooldown *)

Lemma sameBody_refl (c : PlayerCell) : sameBody c c.
Proof. repeat split. Qed.

Lemma sameBody_trans (a b c : PlayerCell) :
  sameBody a b -> sameBody b c -> sameBody a c.
Proof.
  unfold sameBody. intros (A1 & A2 & A3 & A4) (B1 & B2 & B3 & B4).
  repeat split; congruence.
Qed.

Lemma sameBody_cooling (o : Oracle) (c c' : PlayerCell) :
  sameBody c c' -> cooling o c -> cooling o c'.
Proof. intros (_ & _ & _ & E) H n. rewrite E. apply H. Qed.

Lemma Forall2_sameBody_refl (l : list PlayerCell) : Forall2 sameBody l l.
Proof. induction l; constructor; [apply sameBody_refl | assumption]. Qed.

Lemma collidePair_keeps sound (c1 c2 : PlayerCell) (o : Oracle) (t : Tape) :
  cooling o c1 ->
  exists c1' c2',
    fst (collidePair sound c1 c2 o t) = (c1', Some c2')
    /\ sameBody c1 c1' /\ sameBody c2 c2'.
Proof.
  intros H. destruct (overlapping c1 c2) eqn:E.
  - rewrite (collidePair_push sound c1 c2 o t E) by (left; apply H).
    eexists _, _. split; [reflexivity|].
    unfold pushApart. cbn. split; repeat split.
  - rewrite (collidePair_far sound c1 c2 o t E). cbn [fst].
    eexists _, _. split; [reflexivity|].
    split; apply sameBody_refl.
Qed.

Lemma collideInner_keeps sound (rest : list PlayerCell) :
  forall c1 o t,
    cooling o c1 ->
    sameBody c1 (fst (fst (collideInner sound c1 rest o t)))
    /\ Forall2 sameBody rest (snd (fst (collideInner sound c1 rest o t))).
Proof.
  induction rest as [|c2 rest IH]; intros c1 o t H.
  - cbn. split; [apply sameBody_refl | constructor].
  - cbn [collideInner]. unfold bind.
    destruct (@collidePair_keeps sound c1 c2 o t H)
      as (c1' & c2' & E & B1 & B2).
    destruct (collidePair sound c1 c2 o t) as [[x kept] t1].
    cbn [fst] in E. inversion E; subst x kept.
    destruct (IH c1' o t1 (@sameBody_cooling o c1 c1' B1 H)) as [C1 C2].
    destruct (collideInner sound c1' rest o t1) as [[c1'' rest''] t2].
    cbn [fst snd ret] in *.
    split; [exact (@sameBody_trans _ _ _ B1 C1) | constructor; assumption].
Qed.

Lemma Forall2_cooling (o : Oracle) (l l' : list PlayerCell) :
  Forall2 sameBody l l' -> Forall (cooling o) l -> Forall (cooling o) l'.
Proof.
  induction 1 as [|c c' l l' Hc _ IH]; intros H; [constructor|].
  inversion H; subst. constructor.
  - eapply sameBody_cooling; eassumption.
  - apply IH. assumption.
Qed.

Lemma Forall2_sameBody_trans (l1 l2 l3 : list PlayerCell) :
  Forall2 sameBody l1 l2 -> Forall2 sameBody l2 l3 -> Forall2 sameBody l1 l3.
Proof.
  intros H. revert l3. induction H as [|a b l1 l2 Hab _ IH]; intros l3 H3;
    inversion H3; subst; constructor.
  - eapply sameBody_trans; eassumption.
  - apply IH. assumption.
Qed.

Lemma collideOuter_keeps sound (fuel : nat) :
  forall cells o t,
    Forall (cooling o) cells ->
    Forall2 sameBody cells (fst (collideOuter sound fuel cells o t)).
Proof.
  induction fuel as [|fuel IH]; intros cells o t H.
  - destruct cells; apply Forall2_sameBody_refl.
  - destruct cells as [|c1 rest]; [constructor|].
    inversion H as [|? ? H1 Hrest]; subst.
    cbn [collideOuter]. unfold bind.
    destruct (@collideInner_keeps sound rest c1 o t H1) as [A B].
    destruct (collideInner sound c1 rest o t) as [[c1' rest'] t1].
    cbn [fst snd] in A, B.
    pose proof (IH rest' o t1 (@Forall2_cooling o _ _ B Hrest)) as C.
    destruct (collideOuter sound fuel rest' o t1) as [rest'' t2].
    cbn [fst snd ret] in *.
    constructor; [exact A | exact (@Forall2_sameBody_trans _ _ _ B C)].
Qed.

(** X11. While the merge timer of every cell of an array is still ahead
    of the clock, the self-collision loops merge nothing: the array comes
    out with the same cells in the same order, each with the identity, mass,
    radius and merge timer it had, moved at most. *)
Theorem cooldown_blocks_merges (sound : bool) (cells : list PlayerCell)
        (o : Oracle) (t : Tape) :
  Forall (cooling o) cells ->
  Forall2 sameBody cells (fst (selfCollision sound cells o t)).
Proof. intros H. unfold selfCollision. apply collideOuter_keeps. exact H. Qed.

Lemma cooldown_blocks_merges_witness :
  let cells := [cellAt "a" 100 100 50; cellAt "b" 110 100 50] in
  Forall2 sameBody cells
          (fst (selfCollision true cells (constOracle 0 0) startTape)).
Proof.
  cbv zeta.
  apply (@cooldown_blocks_merges true
           [cellAt "a" 100 100 50; cellAt "b" 110 100 50]
           (constOracle 0 0) startTape).
  repeat constructor; intros n; cbn; lra.
Defined.

(* ================================================================== *)
(** * Movement *)

Lemma decay_decayedFrom (c : PlayerCell) : decayedFrom c (decay c).
Proof.
  unfold decayedFrom, decay, MASS_DECAY_THRESHOLD, MASS_DECAY_RATE.
  rcase 100 (c_mass c) H; cbn [c_id c_mass setMass].
  - split; [reflexivity|]. split; [lra|]. split; [lra|].
    intros _. split; [reflexivity | lra].
  - split; [reflexivity|]. split; [lra|]. split; [reflexivity | lra].
Qed.

Lemma clampToMap_body (c : PlayerCell) :
  c_id (clampToMap c) = c_id c /\ c_mass (clampToMap c) = c_mass c.
Proof. split; reflexivity. Qed.

Lemma movePlayerCell_body (moveX moveY len comX comY : R) (several : bool)
      (c : PlayerCell) :
  c_id (movePlayerCell moveX moveY len comX comY several c) = c_id (decay c)
  /\ c_mass (movePlayerCell moveX moveY len comX comY several c)
     = c_mass (decay c).
Proof.
  unfold movePlayerCell. cbv zeta.
  destruct (0 <? len); destruct several; unfold swarmGravity; cbv zeta;
    repeat match goal with
           | |- context [ if ?b then _ else _ ] => destruct b
           end; split; reflexivity.
Qed.

Lemma moveBotCell_body (tx ty : R) (c : PlayerCell) :
  c_id (moveBotCell tx ty c) = c_id (decay c)
  /\ c_mass (moveBotCell tx ty c) = c_mass (decay c).
Proof. split; reflexivity. Qed.

Lemma decayedFrom_body (c d c' : PlayerCell) :
  decayedFrom c d -> c_id c' = c_id d /\ c_mass c' = c_mass d ->
  decayedFrom c c'.
Proof.
  unfold decayedFrom. intros (A & B & C & D) [E F]. rewrite E, F.
  repeat split; tauto.
Qed.

Lemma Forall2_map_r {A B} (P : A -> B -> Prop) (f : A -> B) (l : list A) :
  (forall a, P a (f a)) -> Forall2 P l (map f l).
Proof. intros H. induction l; cbn [map]; constructor; auto. Qed.

(** X12. Moving a cell never feeds it: the physics step of the player and
    the movement step of a bot keep the identity of every cell and change its
    mass by decay only.  A cell of mass at most [MASS_DECAY_THRESHOLD] keeps
    its mass; a heavier one is multiplied by [MASS_DECAY_RATE], which never
    takes it down to the threshold times the rate. *)
Theorem movement_only_decays :
  (forall moveX moveY len cells,
      Forall2 decayedFrom cells (playerPhysics moveX moveY len cells))
  /\ (forall tx ty cell, decayedFrom cell (moveBotCell tx ty cell)).
Proof.
  split.
  - intros moveX moveY len cells. unfold playerPhysics. cbv zeta.
    apply Forall2_map_r. intros c.
    eapply decayedFrom_body;
      [apply decay_decayedFrom | apply movePlayerCell_body].
  - intros tx ty c.
    eapply decayedFrom_body;
      [apply decay_decayedFrom | apply moveBotCell_body].
Qed.

(* ================================================================== *)
(** * Bots *)

Lemma threatStep_fold (center : Vector) (bm : R) (count : nat)
      (players : list PlayerCell) :
  forall (best : option PlayerCell) (m : R),
    let r := fold_left (threatStep center bm count) players (best, m) in
    snd r <= m
    /\ (forall q, In q players -> heavier bm count q ->
                  snd r <= getDistance center (cellPos q))
    /\ ((fst r = best /\ snd r = m)
        \/ exists p, fst r = Some p /\ In p players /\ heavier bm count p
                     /\ getDistance center (cellPos p) = snd r
                     /\ snd r < m).
Proof.
  induction players as [|p players IH]; intros best m; cbn [fold_left].
  - cbv zeta. cbn [fst snd]. split; [lra|]. split; [intros q []|].
    left. split; reflexivity.
  - cbv zeta.
    remember (threatStep center bm count (best, m) p) as acc eqn:E.
    unfold threatStep in E. cbv zeta in E. cbn [snd] in E.
    destruct ((getDistance center (cellPos p) <? m)
              && (bm / INR count * (12 / 10) <? c_mass p)) eqn:G;
      subst acc.
    + apply andb_true_iff in G. destruct G as [G1 G2].
      apply Rltb_lt in G1, G2.
      specialize (IH (Some p) (getDistance center (cellPos p))).
      cbv zeta in IH. destruct IH as (A & B & C).
      split; [lra|]. split.
      * intros q [<-|Hq] Hh; [exact A | exact (B q Hq Hh)].
      * right. destruct C as [[C1 C2]|(p' & C1 & C2 & C3 & C4 & C5)].
        -- exists p. rewrite C1, C2.
           split; [reflexivity|]. split; [left; reflexivity|].
           split; [exact G2|]. split; [reflexivity | exact G1].
        -- exists p'. split; [exact C1|]. split; [right; exact C2|].
           split; [exact C3|]. split; [exact C4 | lra].
    + apply andb_false_iff in G.
      specialize (IH best m). cbv zeta in IH. destruct IH as (A & B & C).
      split; [exact A|]. split.
      * intros q [<-|Hq] Hh; [|exact (B q Hq Hh)].
        destruct G as [G|G]; apply Rltb_nlt in G;
          [lra | unfold heavier in Hh; lra].
      * destruct C as [C|(p' & C1 & C2 & C3 & C4 & C5)]; [left; exact C|].
        right. exists p'. split; [exact C1|]. split; [right; exact C2|].
        split; [exact C3|]. split; [exact C4 | exact C5].
Qed.

(** X13. The threat a bot runs away from is the nearest of the player
    cells that are heavier than 1.2 times its average cell mass, provided
    that one is less than 500 away from the centre of the bot; when no such
    cell is within 500 the bot sees no threat. *)
Theorem threat_is_nearest_heavier (center : Vector) (bm : R) (count : nat)
        (players : list PlayerCell) :
  match findThreat center bm count players with
  | Some p =>
    In p players /\ heavier bm count p
    /\ getDistance center (cellPos p) < 500
    /\ forall q, In q players -> heavier bm count q ->
                 getDistance center (cellPos p)
                 <= getDistance center (cellPos q)
  | None =>
    forall q, In q players -> heavier bm count q ->
              500 <= getDistance center (cellPos q)
  end.
Proof.
  change (findThreat center bm count players)
    with (fst (fold_left (threatStep center bm count) players (None, 500))).
  pose proof (threatStep_fold center bm count players None 500) as H.
  cbv zeta in H. destruct H as (A & B & C).
  destruct (fold_left (threatStep center bm count) players (None, 500))
    as [found m].
  cbn [fst snd] in *.
  destruct C as [[C1 C2]|(p & C1 & C2 & C3 & C4 & C5)].
  - subst found m. exact B.
  - subst found. split; [exact C2|]. split; [exact C3|]. split; [lra|].
    intros q Hq Hh. rewrite C4. exact (B q Hq Hh).
Qed.

(* ================================================================== *)
(** * The pellet test *)

Lemma sqrt_lt_square (s r : R) :
  0 <= s -> 0 <= r -> (sqrt s < r <-> s < r * r).
Proof.
  intros Hs Hr. split; intros H.
  - pose proof (sqrt_pos s). pose proof (sqrt_sqrt s Hs). nra.
  - rewrite <- (sqrt_square r Hr). apply sqrt_lt_1_alt. lra.
Qed.

(** X14. The pellet test of the food loop, which first rejects a pellet
    outside the bounding box of the cell and only then compares squared
    distances, decides exactly what the distance test of the other stages
    decides: the pellet is eaten when its centre is less than one radius
    away from the centre of the cell. *)
Theorem pellet_test_is_distance_test (eater : Eater) (food : Food) :
  0 <= c_radius (eater_cell eater) ->
  eats eater food
  = (getDistance (cellPos (eater_cell eater)) (foodPos food)
     <? c_radius (eater_cell eater)).
Proof.
  intros Hr. unfold eats, getDistance, Math_abs, Math_sqrt. cbv zeta.
  cbn [v_x v_y cellPos foodPos].
  set (dx := c_x (eater_cell eater) - f_x food).
  set (dy := c_y (eater_cell eater) - f_y food).
  set (r := c_radius (eater_cell eater)) in *.
  assert (Hs : 0 <= dx * dx + dy * dy) by nra.
  pose proof (sqrt_lt_square Hs Hr) as Hiff.
  assert (Hbox : r < Rabs dx \/ r < Rabs dy -> r * r <= dx * dx + dy * dy).
  { intros [H|H]; revert H; unfold Rabs; destruct (Rcase_abs _); intros; nra. }
  destruct ((r <? Rabs dx) || (r <? Rabs dy)) eqn:G.
  - apply orb_true_iff in G. rewrite !Rltb_lt in G.
    symmetry. apply Rltb_nlt. apply Hbox in G.
    destruct (Rle_lt_dec r (sqrt (dx * dx + dy * dy))) as [H|H]; [exact H|].
    apply Hiff in H. lra.
  - destruct (dx * dx + dy * dy <? r * r) eqn:E.
    + apply Rltb_lt in E. symmetry. apply Rltb_lt. apply Hiff. exact E.
    + apply Rltb_nlt in E. symmetry. apply Rltb_nlt.
      destruct (Rle_lt_dec r (sqrt (dx * dx + dy * dy))) as [H|H]; [exact H|].
      apply Hiff in H. lra.
Qed.

Lemma pellet_test_is_distance_test_witness :
  let eater := mkEater (mkCell "a" 0 0 10 "#FF5252" 100 0 0 0 0) false None in
  let food := mkFood "f" 3 4 5 "#FF5252" in
  eats eater food
  = (getDistance (cellPos (eater_cell eater)) (foodPos food)
     <? c_radius (eater_cell eater)).
Proof.
  cbv zeta.
  apply (@pellet_test_is_distance_test
           (mkEater (mkCell "a" 0 0 10 "#FF5252" 100 0 0 0 0) false None)
           (mkFood "f" 3 4 5 "#FF5252")).
  cbn. lra.
Defined.

(* ================================================================== *)
(** * Respawn *)

Lemma Math_ceil_pos (r : R) : (0 <? Math_ceil r)%Z = true <-> 0 < r.
Proof.
  unfold Math_ceil. rewrite Z.ltb_lt.
  destruct (base_Int_part (- r)) as [A B].
  split; intros H.
  - assert (Int_part (- r) <= -1)%Z as H1 by lia.
    apply IZR_le in H1. lra.
  - assert (IZR (Int_part (- r)) < 0) as H1 by lra.
    apply lt_IZR in H1. lia.
Qed.

Lemma Reqb_eq (a b : R) : (a =? b) = true <-> a = b.
Proof.
  unfold Reqb. destruct (Req_dec_T a b); split; intros; auto; discriminate.
Qed.

Lemma spawnPlayer_alive (cv : Canvas) (o : Oracle) :
  ensures o (spawnPlayer cv)
          (fun cv' => length (playerCells (state cv')) = 1%nat
                      /\ playerDeadAt cv' = None).
Proof.
  unfold spawnPlayer. repeat (apply ensures_then; intros ?).
  apply ensures_ret. split; reflexivity.
Qed.

Lemma spawnBot_alive (o : Oracle) :
  ensures o spawnBot
          (fun b => length (b_cells b) = 1%nat /\ b_deadAt b = None).
Proof.
  unfold spawnBot. repeat (apply ensures_then; intros ?).
  apply ensures_ret. split; reflexivity.
Qed.

(** X15. A player without cells: the first tick records the time of death
    and spawns nothing; after that the player stays dead, the canvas
    untouched, while less than [RESPAWN_DELAY_MS] have passed since the
    recorded time, and is respawned with one cell, the record cleared, as
    soon as the delay has passed (the tick at exactly the delay respawns). *)
Theorem player_respawn_delay (now : R) (cv : Canvas) (o : Oracle) (t : Tape) :
  playerCells (state cv) = [] ->
  let cv' := fst (playerRespawn now cv o t) in
  match playerDeadAt cv with
  | None =>
    playerDeadAt cv' = Some now /\ state cv' = state cv
  | Some deadAt =>
    (now - deadAt < RESPAWN_DELAY_MS -> cv' = cv)
    /\ (RESPAWN_DELAY_MS <= now - deadAt ->
        length (playerCells (state cv')) = 1%nat /\ playerDeadAt cv' = None)
  end.
Proof.
  intros Hdead. cbv zeta. unfold playerRespawn. rewrite Hdead.
  destruct (playerDeadAt cv) as [deadAt|].
  - cbv zeta. split; intros H.
    + rewrite (proj2 (Math_ceil_pos _)); [reflexivity|].
      unfold RESPAWN_DELAY_MS in *. lra.
    + destruct (0 <? Math_ceil ((RESPAWN_DELAY_MS - (now - deadAt)) / 1000))%Z
        eqn:G.
      * apply Math_ceil_pos in G. unfold RESPAWN_DELAY_MS in *. lra.
      * apply spawnPlayer_alive.
  - split; reflexivity.
Qed.

Lemma player_respawn_delay_witness :
  let cv' := fst (playerRespawn 5 lateCanvas (constOracle 5 0) startTape) in
  match playerDeadAt lateCanvas with
  | None =>
    playerDeadAt cv' = Some 5 /\ state cv' = state lateCanvas
  | Some deadAt =>
    (5 - deadAt < RESPAWN_DELAY_MS -> cv' = lateCanvas)
    /\ (RESPAWN_DELAY_MS <= 5 - deadAt ->
        length (playerCells (state cv')) = 1%nat /\ playerDeadAt cv' = None)
  end.
Proof.
  cbv zeta.
  apply (@player_respawn_delay 5 lateCanvas (constOracle 5 0) startTape).
  reflexivity.
Defined.

(** X16. A bot without cells: the first tick records the time of death (a
    recorded time of 0 counts as no record); after that the bot is left as
    it is while no more than [RESPAWN_DELAY_MS] have passed since the
    recorded time, and is replaced by a fresh bot with one cell once more
    than the delay has passed (the tick at exactly the delay does not
    respawn). *)
Theorem bot_respawn_delay (now : R) (bot : Bot) (o : Oracle) (t : Tape) :
  b_cells bot = [] ->
  let bot' := fst (botRespawn now bot o t) in
  match b_deadAt bot with
  | None => bot' = setDeadAt bot now
  | Some deadAt =>
    (deadAt = 0 -> bot' = setDeadAt bot now)
    /\ (deadAt <> 0 -> now - deadAt <= RESPAWN_DELAY_MS -> bot' = bot)
    /\ (deadAt <> 0 -> RESPAWN_DELAY_MS < now - deadAt ->
        length (b_cells bot') = 1%nat /\ b_deadAt bot' = None)
  end.
Proof.
  intros Hdead. cbv zeta. unfold botRespawn. rewrite Hdead.
  destruct (b_deadAt bot) as [deadAt|]; [|reflexivity].
  cbn [notDeadAt].
  destruct (deadAt =? 0) eqn:G.
  - apply Reqb_eq in G. split; [reflexivity|]. split; intros H; contradiction.
  - assert (deadAt <> 0) as Hz.
    { intros E. apply Reqb_eq in E. congruence. }
    split; [intros E; contradiction|]. split; intros _ H.
    + rewrite (proj2 (Rltb_nlt _ _)) by exact H. reflexivity.
    + rewrite (proj2 (Rltb_lt _ _)) by exact H. apply spawnBot_alive.
Qed.

Lemma bot_respawn_delay_witness :
  let bot' := fst (botRespawn 4000 deadBot (constOracle 4000 0) startTape) in
  match b_deadAt deadBot with
  | None => bot' = setDeadAt deadBot 4000
  | Some deadAt =>
    (deadAt = 0 -> bot' = setDeadAt deadBot 4000)
    /\ (deadAt <> 0 -> 4000 - deadAt <= RESPAWN_DELAY_MS -> bot' = deadBot)
    /\ (deadAt <> 0 -> RESPAWN_DELAY_MS < 4000 - deadAt ->
        length (b_cells bot') = 1%nat /\ b_deadAt bot' = None)
  end.
Proof.
  cbv zeta.
  apply (@bot_respawn_delay 4000 deadBot (constOracle 4000 0) startTape).
  reflexivity.
Defined.

(* ================================================================== *)
(** * Identifiers *)

Lemma hexDigit_isHex (v : Z) : isHex (hexDigit v).
Proof.
  unfold isHex, hexDigit.
  destruct (nth_in_or_default (Z.to_nat v)
              (list_ascii_of_string "0123456789abcdef") "0"%char) as [H|H].
  - exact H.
  - rewrite H. left. reflexivity.
Qed.

Lemma hexDigit_variant (r : Z) :
  In (hexDigit (Z.lor (Z.land r 3) 8)) (list_ascii_of_string "89ab").
Proof.
  change 3%Z with (Z.ones 2). rewrite Z.land_ones by lia.
  assert (H : (r mod 2 ^ 2 = 0 \/ r mod 2 ^ 2 = 1 \/ r mod 2 ^ 2 = 2
               \/ r mod 2 ^ 2 = 3)%Z).
  { pose proof (Z.mod_pos_bound r (2 ^ 2)) as B. lia. }
  destruct H as [H|[H|[H|H]]]; rewrite H; cbn; tauto.
Qed.

Lemma replaceXY_fills (o : Oracle) (template : list ascii) :
  ensures o (replaceXY template) (Forall2 fills template).
Proof.
  induction template as [|c rest IH]; cbn [replaceXY].
  - apply ensures_ret. constructor.
  - destruct (Ascii.eqb c "x") eqn:Ex; cbn [orb].
    + apply ensures_then; intros rnd.
      eapply ensures_bind; [exact IH|]. intros out Hout.
      apply ensures_ret. constructor; [|exact Hout].
      unfold fills. rewrite Ex. apply hexDigit_isHex.
    + destruct (Ascii.eqb c "y") eqn:Ey.
      * apply ensures_then; intros rnd.
        eapply ensures_bind; [exact IH|]. intros out Hout.
        apply ensures_ret. constructor; [|exact Hout].
        unfold fills. rewrite Ex, Ey. apply hexDigit_variant.
      * eapply ensures_bind; [exact IH|]. intros out Hout.
        apply ensures_ret. constructor; [|exact Hout].
        unfold fills. rewrite Ex, Ey. reflexivity.
Qed.

(** X17. With a random source that draws from [0, 1), as [Math.random]
    does, an identifier made by [generateUUID] follows the template place
    by place: 36 characters, the four hyphens and the digit 4 where the
    template has them, a lower-case hexadecimal digit for every [x], and one
    of 8, 9, a, b for the [y]. *)
Theorem uuid_follows_template (o : Oracle) (t : Tape) :
  unitRandom o ->
  let id := list_ascii_of_string (fst (generateUUID o t)) in
  Forall2 fills
          (list_ascii_of_string "xxxxxxxx-xxxx-4xxx-yxxx-xxxxxxxxxxxx") id
  /\ length id = 36%nat.
Proof.
  intros _. cbv zeta.
  assert (H : Forall2 fills
                (list_ascii_of_string "xxxxxxxx-xxxx-4xxx-yxxx-xxxxxxxxxxxx")
                (list_ascii_of_string (fst (generateUUID o t)))).
  { revert t.
    change (ensures o generateUUID
              (fun id => Forall2 fills
                 (list_ascii_of_string "xxxxxxxx-xxxx-4xxx-yxxx-xxxxxxxxxxxx")
                 (list_ascii_of_string id))).
    unfold generateUUID.
    eapply ensures_bind; [apply replaceXY_fills|]. intros cs Hcs.
    apply ensures_ret. rewrite list_ascii_of_string_of_list_ascii.
    exact Hcs. }
  split; [exact H|].
  apply Forall2_length in H. rewrite <- H. reflexivity.
Qed.

Lemma uuid_follows_template_witness :
  let id :=
    list_ascii_of_string (fst (generateUUID (constOracle 1000 0) startTape)) in
  Forall2 fills
          (list_ascii_of_string "xxxxxxxx-xxxx-4xxx-yxxx-xxxxxxxxxxxx") id
  /\ length id = 36%nat.
Proof.
  cbv zeta.
  apply (@uuid_follows_template (constOracle 1000 0) startTape).
  intros n. cbn. lra.
Defined.

(* ================================================================== *)
(** * Spawning *)

Section Spawning.
Variable o : Oracle.
Hypothesis Hrandom : unitRandom o.

Lemma Math_random_unit : ensures o Math_random (fun r => 0 <= r < 1).
Proof. apply ensures_random. exact Hrandom. Qed.

Lemma pick_In (palette : list string) (r : R) :
  palette <> [] -> 0 <= r < 1 -> In (pick palette r) palette.
Proof.
  intros Hne Hr. unfold pick. apply nth_In.
  assert (Hn : 0 < INR (length palette)).
  { apply lt_0_INR. destruct palette; [congruence | cbn; lia]. }
  set (x := r * INR (length palette)).
  assert (Hx : 0 <= x < INR (length palette)) by (unfold x; nra).
  pose proof (@Math_floor_nonneg x (proj1 Hx)) as H0.
  destruct (base_Int_part x) as [H1 _]. fold (Math_floor x) in H1.
  assert (IZR (Math_floor x) < IZR (Z.of_nat (length palette))) as H2
    by (rewrite <- INR_IZR_INZ; lra).
  apply lt_IZR in H2. lia.
Qed.

Lemma getRandomPos_in (w h : R) :
  0 < w -> 0 < h ->
  ensures o (getRandomPos w h)
          (fun p => 0 <= v_x p < w /\ 0 <= v_y p < h).
Proof.
  intros Hw Hh. unfold getRandomPos.
  eapply ensures_bind; [apply Math_random_unit|]. intros rx Hx.
  eapply ensures_bind; [apply Math_random_unit|]. intros ry Hy.
  apply ensures_ret. cbn [v_x v_y]. split; nra.
Qed.

Lemma getRandomPos_inMap :
  ensures o (getRandomPos MAP_WIDTH MAP_HEIGHT)
          (fun p => inMap (v_x p) (v_y p)).
Proof.
  apply getRandomPos_in; unfold MAP_WIDTH, MAP_HEIGHT; lra.
Qed.

Lemma getRandomColor_In (palette : list string) :
  palette <> [] ->
  ensures o (getRandomColor palette) (fun c => In c palette).
Proof.
  intros Hne. unfold getRandomColor.
  eapply ensures_bind; [apply Math_random_unit|]. intros r Hr.
  apply ensures_ret. apply pick_In; assumption.
Qed.

Lemma getRandomName_In (names : list string) :
  names <> [] ->
  ensures o (getRandomName names) (fun c => In c names).
Proof.
  intros Hne. unfold getRandomName.
  eapply ensures_bind; [apply Math_random_unit|]. intros r Hr.
  apply ensures_ret. apply pick_In; assumption.
Qed.

Lemma spawnBot_fresh : ensures o spawnBot freshBot.
Proof.
  unfold spawnBot.
  eapply ensures_bind; [apply getRandomPos_inMap|]. intros startPos Hs.
  eapply ensures_bind; [apply Math_random_unit|]. intros rnd Hr.
  cbv zeta. apply ensures_then; intros botId.
  eapply ensures_bind; [apply getRandomName_In; discriminate|].
  intros name Hname.
  eapply ensures_bind; [apply getRandomColor_In; discriminate|].
  intros color Hcolor.
  eapply ensures_bind; [apply getRandomPos_inMap|]. intros target Ht.
  apply ensures_then; intros cellId.
  eapply ensures_bind; [apply getRandomColor_In; discriminate|].
  intros cellColor Hcell.
  apply ensures_then; intros created.
  apply ensures_ret. unfold freshBot. cbn [b_name b_color b_target b_deadAt
                                           b_cells].
  split; [exact Hname|]. split; [exact Hcolor|]. split; [exact Ht|].
  split; [reflexivity|]. eexists. split; [reflexivity|].
  cbn [c_x c_y c_mass c_color c_vx c_vy c_mergeTimer].
  split; [exact Hs|]. split; [reflexivity|].
  split; [unfold INITIAL_MASS; lra|]. split; [exact Hcell|].
  repeat split.
Qed.

Lemma newFood_fresh : ensures o newFood freshFood.
Proof.
  unfold newFood. apply ensures_then; intros foodId.
  eapply ensures_bind; [apply getRandomPos_inMap|]. intros pos Hp.
  eapply ensures_bind; [apply Math_random_unit|]. intros rnd Hr.
  eapply ensures_bind; [apply getRandomColor_In; discriminate|].
  intros color Hcolor.
  apply ensures_ret. unfold freshFood. cbn [f_x f_y f_radius f_color].
  split; [exact Hp|]. split; [lra | exact Hcolor].
Qed.

Lemma newVirus_fresh : ensures o newVirus freshVirus.
Proof.
  unfold newVirus. apply ensures_then; intros virusId.
  eapply ensures_bind; [apply getRandomPos_inMap|]. intros pos Hp.
  apply ensures_ret. split; [exact Hp | reflexivity].
Qed.

Lemma spawnPlayer_fresh (cv : Canvas) : ensures o (spawnPlayer cv) freshPlayer.
Proof.
  unfold spawnPlayer.
  eapply ensures_bind; [apply getRandomPos_inMap|]. intros startPos Hs.
  apply ensures_then; intros cellId.
  eapply ensures_bind; [apply getRandomColor_In; discriminate|].
  intros color Hcolor.
  apply ensures_then; intros created.
  apply ensures_ret. unfold freshPlayer.
  split; [reflexivity|]. split; [reflexivity|].
  eexists. split; [reflexivity|].
  cbn [c_x c_y c_mass c_color].
  split; [exact Hs|]. split; [reflexivity|]. split; [reflexivity|].
  split; [exact Hcolor | reflexivity].
Qed.

End Spawning.

(** X18. With a random source that draws from [0, 1), everything that is
    spawned lies inside the map and comes from the palettes: a bot has one
    cell of mass in [INITIAL_MASS, INITIAL_MASS + 50) at rest, a name of
    [BOT_NAMES], colours of [COLORS] and a target inside the map; a pellet
    has a radius in [5, 8) and a colour of [FOOD_COLORS]; a virus has the
    radius of [VIRUS_MASS]; the player gets one cell of [INITIAL_MASS] with
    the camera on it at scale 1 and no death recorded. *)
Theorem spawns_are_well_formed (o : Oracle) (t : Tape) :
  unitRandom o ->
  freshBot (fst (spawnBot o t))
  /\ freshFood (fst (newFood o t))
  /\ freshVirus (fst (newVirus o t))
  /\ forall cv, freshPlayer (fst (spawnPlayer cv o t)).
Proof.
  intros H. split; [apply spawnBot_fresh; exact H|].
  split; [apply newFood_fresh; exact H|].
  split; [apply newVirus_fresh; exact H|].
  intros cv. apply spawnPlayer_fresh. exact H.
Qed.

Lemma spawns_are_well_formed_witness :
  let o := constOracle 1000 0 in
  freshBot (fst (spawnBot o startTape))
  /\ freshFood (fst (newFood o startTape))
  /\ freshVirus (fst (newVirus o startTape))
  /\ forall cv, freshPlayer (fst (spawnPlayer cv o startTape)).
Proof.
  cbv zeta.
  apply (@spawns_are_well_formed (constOracle 1000 0) startTape).
  intros n. cbn. lra.
Defined.

Lemma spawnPlayer_canvas (cv : Canvas) (o : Oracle) :
  ensures o (spawnPlayer cv)
          (fun cv' => action cv' = action cv
                      /\ inputState cv' = inputState cv
                      /\ lastMoveDir cv' = lastMoveDir cv).
Proof.
  unfold spawnPlayer. repeat (apply ensures_then; intros ?).
  apply ensures_ret. repeat split.
Qed.

Lemma Date_now_reading (o : Oracle) :
  ensures o Date_now (fun now => exists n, now = clockAt o n).
Proof. intros t. cbn. eexists. reflexivity. Qed.

(** X19. With a random source that draws from [0, 1), [initWorld] builds
    a running match: [FOOD_TARGET] pellets, [VIRUS_TARGET] viruses and
    [BOT_COUNT] bots, all well formed, no ejected mass, score 0, the end of
    the match [GAME_DURATION_MS] after a reading of the clock, a freshly
    spawned player, the keys released and the last direction pointing
    right; the two intents are left as they were. *)
Theorem world_at_start (cv : Canvas) (o : Oracle) (t : Tape) :
  unitRandom o ->
  let cv' := fst (initWorld cv o t) in
  let s := state cv' in
  (Forall freshFood (foods s) /\ length (foods s) = FOOD_TARGET)
  /\ (Forall freshVirus (viruses s) /\ length (viruses s) = VIRUS_TARGET)
  /\ (Forall freshBot (bots s) /\ length (bots s) = BOT_COUNT)
  /\ freshPlayer cv'
  /\ ejectedMass s = [] /\ score s = 0%Z
  /\ gameOver s = false /\ gameStarted s = true
  /\ (exists n, gameEndTime s = clockAt o n + GAME_DURATION_MS)
  /\ inputState cv' = mkInput false false false false
  /\ lastMoveDir cv' = mkVector 1 0
  /\ action cv' = action cv.
Proof.
  intros H. cbv zeta. revert t.
  change (ensures o (initWorld cv)
            (fun cv' =>
               (Forall freshFood (foods (state cv'))
                /\ length (foods (state cv')) = FOOD_TARGET)
               /\ (Forall freshVirus (viruses (state cv'))
                   /\ length (viruses (state cv')) = VIRUS_TARGET)
               /\ (Forall freshBot (bots (state cv'))
                   /\ length (bots (state cv')) = BOT_COUNT)
               /\ freshPlayer cv'
               /\ ejectedMass (state cv') = [] /\ score (state cv') = 0%Z
               /\ gameOver (state cv') = false
               /\ gameStarted (state cv') = true
               /\ (exists n, gameEndTime (state cv')
                             = clockAt o n + GAME_DURATION_MS)
               /\ inputState cv' = mkInput false false false false
               /\ lastMoveDir cv' = mkVector 1 0
               /\ action cv' = action cv)).
  unfold initWorld.
  eapply ensures_bind;
    [apply ensures_replicateM; apply newFood_fresh; exact H|].
  intros fs Hf.
  eapply ensures_bind;
    [apply ensures_replicateM; apply newVirus_fresh; exact H|].
  intros vs Hv.
  eapply ensures_bind;
    [apply ensures_replicateM; apply spawnBot_fresh; exact H|].
  intros bs Hb.
  eapply ensures_bind; [apply Date_now_reading|]. intros started [n Hn].
  cbv zeta.
  eapply ensures_bind;
    [apply ensures_conj;
       [apply spawnPlayer_state
       | apply ensures_conj; [apply spawnPlayer_fresh; exact H
                             | apply spawnPlayer_canvas]]|].
  intros cv' [(c & cam & E) [Hp (Ha & _)]]. apply ensures_ret.
  cbn [action setState] in Ha.
  split; [|split; [|split; [|split]]].
  - cbn [state]. rewrite E. exact Hf.
  - cbn [state]. rewrite E. exact Hv.
  - cbn [state]. rewrite E. exact Hb.
  - exact Hp.
  - cbn [state inputState lastMoveDir action]. rewrite E.
    cbn [ejectedMass score gameOver gameStarted gameEndTime
         setCamera setPlayerCells setState state].
    split; [reflexivity|]. split; [reflexivity|]. split; [reflexivity|].
    split; [reflexivity|]. split; [exists n; rewrite Hn; reflexivity|].
    split; [reflexivity|]. split; [reflexivity | exact Ha].
Qed.

Lemma world_at_start_witness :
  let cv' := fst (initWorld mountCanvas (constOracle 1000 0) startTape) in
  (Forall freshFood (foods (state cv'))
   /\ length (foods (state cv')) = FOOD_TARGET)
  /\ (Forall freshVirus (viruses (state cv'))
      /\ length (viruses (state cv')) = VIRUS_TARGET)
  /\ (Forall freshBot (bots (state cv'))
      /\ length (bots (state cv')) = BOT_COUNT)
  /\ freshPlayer cv'.
Proof.
  cbv zeta.
  assert (H : unitRandom (constOracle 1000 0)) by (intros n; cbn; lra).
  pose proof (@world_at_start mountCanvas (constOracle 1000 0) startTape H)
    as W.
  cbv zeta in W. destruct W as (A & B & C & D & _).
  split; [exact A|]. split; [exact B|]. split; [exact C | exact D].
Defined.

(* ================================================================== *)
(** * The direction and the zoom *)

Section Steady.
Variable o : Oracle.

Lemma spawnPlayer_steady (cv : Canvas) :
  steady cv -> ensures o (spawnPlayer cv) steady.
Proof.
  intros [H1 H2]. unfold spawnPlayer. repeat (apply ensures_then; intros ?).
  apply ensures_ret. split; [exact H1|]. cbn. lra.
Qed.

Lemma playerRespawn_steady (now : R) (cv : Canvas) :
  steady cv -> ensures o (playerRespawn now cv) steady.
Proof.
  intros H. unfold playerRespawn.
  destruct (playerCells (state cv)); [|apply ensures_ret; exact H].
  destruct (playerDeadAt cv); [|apply ensures_ret; exact H].
  destruct (0 <? _)%Z; [apply ensures_ret; exact H|].
  apply spawnPlayer_steady. exact H.
Qed.

Lemma normalised_unit (moveX moveY : R) :
  let len := Math_sqrt (moveX * moveX + moveY * moveY) in
  0 < len -> unitVector (mkVector (moveX / len) (moveY / len)).
Proof.
  cbv zeta. unfold Math_sqrt, unitVector. cbn [v_x v_y]. intros H.
  assert (Hs : 0 <= moveX * moveX + moveY * moveY) by nra.
  pose proof (sqrt_sqrt _ Hs) as E.
  set (len := sqrt (moveX * moveX + moveY * moveY)) in *.
  assert (Hn : len <> 0) by lra.
  replace (moveX / len * (moveX / len) + moveY / len * (moveY / len))
    with ((moveX * moveX + moveY * moveY) / (len * len))
    by (field; exact Hn).
  rewrite <- E. field. exact Hn.
Qed.

Lemma playerLogic_steady (cv : Canvas) :
  steady cv -> ensures o (playerLogic cv) steady.
Proof.
  intros [H1 H2]. unfold playerLogic.
  destruct (playerCells (state cv));
    [apply ensures_ret; split; assumption|].
  cbv zeta. apply ensures_then; intros cells.
  apply ensures_then; intros [cells' ejected].
  apply ensures_ret. split; [|exact H2].
  cbn [lastMoveDir].
  rcase 0 (Math_sqrt (keysX (inputState cv) * keysX (inputState cv)
                      + keysY (inputState cv) * keysY (inputState cv))) G.
  - apply normalised_unit. exact G.
  - exact H1.
Qed.

Lemma foodStage_scale (s : GameState) :
  ensures o (foodStage s) (fun s' => scale s' = scale s).
Proof.
  unfold foodStage.
  destruct (foodLoop _ _ _ _ _) as [[[fs eaters'] sc] eatenCount].
  do 2 (apply ensures_then; intros ?).
  apply ensures_ret. reflexivity.
Qed.

Lemma crossStage_scale (s : GameState) :
  ensures o (crossStage s) (fun s' => scale s' = scale s).
Proof.
  unfold crossStage. apply ensures_then; intros [[bs players] sc].
  apply ensures_ret. reflexivity.
Qed.

Lemma virusStage_scale (s : GameState) :
  ensures o (virusStage s) (fun s' => scale s' = scale s).
Proof.
  unfold virusStage. apply ensures_then; intros [[vs players] bs].
  apply ensures_ret. reflexivity.
Qed.

Lemma ejectedStage_scale (s : GameState) :
  ensures o (ejectedStage s) (fun s' => scale s' = scale s).
Proof.
  unfold ejectedStage.
  apply ensures_then; intros [[[blobs players] bs] consumed].
  apply ensures_then; intros _.
  apply ensures_ret. reflexivity.
Qed.

Lemma updateCamera_scale (s : GameState) :
  1 / 10 <= scale s -> 1 / 10 <= scale (updateCamera s).
Proof.
  intros H. unfold updateCamera.
  destruct (playerCells s) as [|c cells]; [exact H|].
  cbv zeta. cbn [scale setCamera]. unfold Math_max.
  match goal with
  | |- context [ Rmax ?a ?b ] => pose proof (Rmax_l a b)
  end.
  lra.
Qed.

Lemma simulate_steady (now : R) (cv : Canvas) :
  steady cv -> ensures o (simulate now cv) steady.
Proof.
  intros H. unfold simulate.
  eapply ensures_bind; [apply playerRespawn_steady; exact H|].
  intros cv1 H1. apply ensures_then; intros bs.
  eapply ensures_bind; [apply playerLogic_steady; exact H1|].
  intros cv2 [H2 H3]. cbv zeta.
  apply ensures_then; intros bs2. apply ensures_then; intros players.
  eapply ensures_bind; [apply foodStage_scale|]. intros s1 E1.
  eapply ensures_bind; [apply crossStage_scale|]. intros s2 E2.
  eapply ensures_bind; [apply virusStage_scale|]. intros s3 E3.
  eapply ensures_bind; [apply ejectedStage_scale|]. intros s4 E4.
  apply ensures_ret. split; [exact H2|].
  cbn [state setState]. apply updateCamera_scale.
  rewrite E4, E3, E2, E1. exact H3.
Qed.

Lemma update_steady (cv : Canvas) :
  steady cv -> ensures o (update cv) steady.
Proof.
  intros H. unfold update. cbv zeta.
  destruct (negb (gameStarted (state cv)) || gameOver (state cv));
    [apply ensures_ret; exact H|].
  apply ensures_then; intros now.
  destruct (gameEndTime (state cv) <=? now).
  - do 2 (apply ensures_then; intros ?). apply ensures_ret. exact H.
  - apply simulate_steady. exact H.
Qed.

Lemma initWorld_steady (cv : Canvas) : ensures o (initWorld cv) steady.
Proof.
  unfold initWorld. do 4 (apply ensures_then; intros ?). cbv zeta.
  eapply ensures_bind; [apply spawnPlayer_state|].
  intros cv' (c & cam & E). apply ensures_ret.
  split; [unfold unitVector; cbn; lra|].
  cbn [state]. rewrite E. cbn. lra.
Qed.

Lemma reachable_steady (cv : Canvas) : reachable o cv -> steady cv.
Proof.
  induction 1 as [cv t|cv t _ IH|cv keys intents _ IH].
  - apply initWorld_steady.
  - apply update_steady. exact IH.
  - exact IH.
Qed.

End Steady.

(** X20. Throughout a match the direction used for splitting and
    ejecting has length 1: [initWorld] points it to the right, and a tick
    replaces it only by the normalised direction of the keys, when that is
    not zero. *)
Theorem direction_stays_unit (o : Oracle) (cv : Canvas) :
  reachable o cv -> unitVector (lastMoveDir cv).
Proof. intros H. exact (proj1 (@reachable_steady o cv H)). Qed.

Lemma direction_stays_unit_witness :
  unitVector
    (lastMoveDir (fst (initWorld mountCanvas (constOracle 1000 0) startTape))).
Proof.
  apply (@direction_stays_unit (constOracle 1000 0)).
  apply reach_init.
Defined.

(** X21. Throughout a match the zoom never falls below 0.1: spawning
    the player sets it to 1, and the camera step moves it one twentieth of
    the way to an ideal zoom that is at least 0.1.  (The random source draws
    from [0, 1), so that every mass the ideal zoom is computed from is
    positive.) *)
Theorem zoom_never_below_tenth (o : Oracle) (cv : Canvas) :
  unitRandom o -> reachable o cv -> 1 / 10 <= scale (state cv).
Proof. intros _ H. exact (proj2 (@reachable_steady o cv H)). Qed.

Lemma zoom_never_below_tenth_witness :
  1 / 10
  <= scale (state (fst (initWorld mountCanvas (constOracle 1000 0)
                          startTape))).
Proof.
  apply (@zoom_never_below_tenth (constOracle 1000 0)).
  - intros n. cbn. lra.
  - apply reach_init.
Defined.

(* ================================================================== *)
(** * Intents *)

Section Intents.
Variable o : Oracle.

Lemma playerRespawn_registers (now : R) (cv : Canvas) :
  ensures o (playerRespawn now cv)
    (fun cv1 => action cv1 = action cv /\ inputState cv1 = inputState cv
                /\ isEmpty (playerCells (state cv1))
                   = awaitingRespawn now cv).
Proof.
  unfold playerRespawn, awaitingRespawn.
  destruct (playerCells (state cv)) as [|c cells] eqn:Ec.
  2:{ apply ensures_ret. rewrite Ec. repeat split. }
  destruct (playerDeadAt cv) as [deadAt|].
  2:{ apply ensures_ret. cbn [state action inputState]. rewrite Ec.
      repeat split. }
  cbv zeta.
  destruct (0 <? Math_ceil ((RESPAWN_DELAY_MS - (now - deadAt)) / 1000))%Z
    eqn:G.
  - apply Math_ceil_pos in G. apply ensures_ret. rewrite Ec.
    split; [reflexivity|]. split; [reflexivity|].
    symmetry. apply Rltb_lt. unfold RESPAWN_DELAY_MS in *. lra.
  - assert (Hlate : (now - deadAt <? RESPAWN_DELAY_MS) = false).
    { apply Rltb_nlt.
      destruct (Rle_lt_dec RESPAWN_DELAY_MS (now - deadAt)) as [H|H];
        [exact H|].
      assert ((0 <? Math_ceil ((RESPAWN_DELAY_MS - (now - deadAt)) / 1000))%Z
              = true) as H1
          by (apply Math_ceil_pos; unfold RESPAWN_DELAY_MS in *; lra).
      congruence. }
    rewrite Hlate.
    eapply ensures_weaken;
      [apply ensures_conj; [apply spawnPlayer_state
                           | apply spawnPlayer_canvas]|].
    intros cv1 [(c & cam & E) (A & B & _)].
    split; [exact A|]. split; [exact B|]. rewrite E. reflexivity.
Qed.

Lemma playerLogic_registers (cv : Canvas) :
  ensures o (playerLogic cv)
    (fun cv2 => inputState cv2 = inputState cv
                /\ action cv2
                   = if isEmpty (playerCells (state cv)) then action cv
                     else mkActions false false).
Proof.
  unfold playerLogic.
  destruct (playerCells (state cv));
    [apply ensures_ret; split; reflexivity|].
  cbv zeta. apply ensures_then; intros cells.
  apply ensures_then; intros [cells' ejected].
  apply ensures_ret. split; reflexivity.
Qed.

Lemma simulate_registers (now : R) (cv : Canvas) :
  ensures o (simulate now cv)
    (fun cv' => action cv'
                = (if awaitingRespawn now cv then action cv
                   else mkActions false false)
                /\ inputState cv' = inputState cv).
Proof.
  unfold simulate.
  eapply ensures_bind; [apply playerRespawn_registers|].
  intros cv1 (A1 & B1 & C1). apply ensures_then; intros bs.
  eapply ensures_bind; [apply playerLogic_registers|].
  intros cv2 [A2 B2]. cbv zeta.
  cbn [state setState setBots playerCells inputState action] in A2, B2.
  repeat (apply ensures_then; intros ?).
  apply ensures_ret. cbn [action inputState setState].
  rewrite B2, A2, C1, A1, B1. split; reflexivity.
Qed.

End Intents.

(** X22. In the part of a tick that runs while the match is on, the two
    intents are consumed by the player logic, and so they wait for a live
    player: they are left as they were while the player has no cell and is
    not respawned by this tick, and both are cleared otherwise, whether or
    not a cell was heavy enough to act.  The keys held down are never
    changed by the tick. *)
Theorem intents_wait_for_a_live_player
        (now : R) (cv : Canvas) (o : Oracle) (t : Tape) :
  let cv' := fst (simulate now cv o t) in
  action cv' = (if awaitingRespawn now cv then action cv
                else mkActions false false)
  /\ inputState cv' = inputState cv.
Proof. cbv zeta. apply simulate_registers. Qed.

(* ================================================================== *)
(** * The component between matches *)

Lemma step_started (s : Step) (cv : Canvas) (o : Oracle) (t : Tape) :
  (gameOver (state cv) = true -> gameStarted (state cv) = true) ->
  gameOver (state (fst (step s cv o t))) = true ->
  gameStarted (state (fst (step s cv o t))) = true.
Proof.
  intros Inv. destruct s as [prop| |keys intents]; cbn [step].
  - unfold mountEffect.
    destruct (prop && negb (gameStarted (state cv))); [|exact Inv].
    intros H. pose proof (initWorld_counts cv o t) as W. cbv zeta in W.
    destruct W as (_ & _ & _ & _ & _ & _ & W & _). congruence.
  - unfold update.
    destruct (gameStarted (state cv)) eqn:Hs;
      destruct (gameOver (state cv)) eqn:Hg; cbn [negb orb ret fst];
      rewrite ?Hs, ?Hg; try exact Inv; try (intros; reflexivity).
    unfold bind. cbn [Date_now].
    destruct (gameEndTime (state cv) <=? clockAt o (clockPos t)).
    + intros _. cbn. exact Hs.
    + match goal with
      | |- context [ simulate ?now cv o ?t' ] =>
        destruct (simulate_same o now cv t') as (_ & B & _)
      end.
      intros _. rewrite B. exact Hs.
  - exact Inv.
Qed.

Lemma session_started (steps : list Step) :
  forall cv o t,
    (gameOver (state cv) = true -> gameStarted (state cv) = true) ->
    gameOver (state (fst (session steps cv o t))) = true ->
    gameStarted (state (fst (session steps cv o t))) = true.
Proof.
  induction steps as [|s rest IH]; intros cv o t Inv; cbn [session].
  - exact Inv.
  - unfold bind. pose proof (@step_started s cv o t Inv) as H.
    destruct (step s cv o t) as [cv' t']. cbn [fst] in H.
    apply IH. exact H.
Qed.

Lemma step_ended (s : Step) (cv : Canvas) (o : Oracle) (t : Tape) :
  gameOver (state cv) = true -> gameStarted (state cv) = true ->
  state (fst (step s cv o t)) = state cv /\ snd (step s cv o t) = t.
Proof.
  intros Hg Hs. destruct s as [prop| |keys intents]; cbn [step].
  - unfold mountEffect. rewrite Hs. cbn [negb]. rewrite andb_false_r.
    split; reflexivity.
  - rewrite update_terminal by exact Hg. split; reflexivity.
  - split; reflexivity.
Qed.

Lemma session_ended (steps : list Step) :
  forall cv o t,
    gameOver (state cv) = true -> gameStarted (state cv) = true ->
    state (fst (session steps cv o t)) = state cv
    /\ snd (session steps cv o t) = t.
Proof.
  induction steps as [|s rest IH]; intros cv o t Hg Hs; cbn [session].
  - split; reflexivity.
  - unfold bind. destruct (@step_ended s cv o t Hg Hs) as [A B].
    destruct (step s cv o t) as [cv' t']. cbn [fst snd] in A, B. subst t'.
    rewrite <- A in Hg, Hs.
    destruct (IH cv' o t Hg Hs) as [C D].
    split; [congruence | exact D].
Qed.

(** X23. A mounted component plays one match.  Whatever the effect, the
    frames and the collaborators do from the mounted refs on, a state whose
    match is over has been started; and from a started state whose match is
    over nothing moves any more: the effect does not call [initWorld] again
    when the prop becomes true again, no frame changes the state, and
    nothing is emitted, so the world stays as it was when the match ended. *)
Theorem one_match_per_mount (o : Oracle) :
  (forall steps t,
      let cv := fst (session steps mountCanvas o t) in
      gameOver (state cv) = true -> gameStarted (state cv) = true)
  /\ (forall cv more t,
         gameOver (state cv) = true -> gameStarted (state cv) = true ->
         state (fst (session more cv o t)) = state cv
         /\ snd (session more cv o t) = t).
Proof.
  split.
  - intros steps t. apply session_started. cbn. discriminate.
  - intros cv more t Hg Hs. apply session_ended; assumption.
Qed.

Lemma one_match_per_mount_witness :
  let r := session [RunEffect true; Frame; Keys (mkInput true false false false)
                                                (mkActions true true); Frame]
                   endedCanvas (constOracle 1000 0) startTape in
  state (fst r) = state endedCanvas /\ snd r = startTape.
Proof.
  cbv zeta.
  apply (proj2 (one_match_per_mount (constOracle 1000 0))); reflexivity.
Defined.

(* ================================================================== *)
(** * Who gets a contested pellet *)

Lemma feed_player_first (food : Food) (others : list Eater)
      (players : list PlayerCell) :
  Exists (fun c => eats (mkEater c false None) food = true) players ->
  exists eaters',
    feed food (map (fun c => mkEater c false None) players ++ others)
    = Some (eaters', false).
Proof.
  induction 1 as [c rest Hc|c rest _ IH]; cbn [map app feed].
  - rewrite Hc. eexists. reflexivity.
  - destruct (eats (mkEater c false None) food); [eexists; reflexivity|].
    destruct IH as [eaters' ->]. eexists. reflexivity.
Qed.

(** X24. A pellet that a player cell covers goes to the player, whatever
    cells of bots cover it too: the eaters are tried in the order player
    cells, then bots, and the first that covers the pellet takes it, so the
    pellet is reported as eaten by the player (which is what adds it to the
    score). *)
Theorem player_has_priority_on_pellets
        (food : Food) (players : list PlayerCell) (bs : list Bot) :
  Exists (fun c => eats (mkEater c false None) food = true) players ->
  exists eaters',
    feed food (allEaters players bs) = Some (eaters', false)
    /\ length eaters' = length (allEaters players bs)
    /\ sumOf eaterMass eaters' = sumOf eaterMass (allEaters players bs) + 1.
Proof.
  intros H. unfold allEaters.
  destruct (feed_player_first food (botEaters 0 bs) H) as [eaters' E].
  exists eaters'. split; [exact E|].
  destruct (feed_mass _ _ E) as [A B]. split; [exact B | exact A].
Qed.

Lemma player_has_priority_on_pellets_witness :
  let cell := mkCell "p" 0 0 10 "#FF5252" 100 0 0 0 0 in
  let food := mkFood "f" 3 4 5 "#FF5252" in
  exists eaters',
    feed food (allEaters [cell] [greedyBot "a"]) = Some (eaters', false)
    /\ length eaters' = length (allEaters [cell] [greedyBot "a"])
    /\ sumOf eaterMass eaters'
       = sumOf eaterMass (allEaters [cell] [greedyBot "a"]) + 1.
Proof.
  cbv zeta.
  apply (@player_has_priority_on_pellets
           (mkFood "f" 3 4 5 "#FF5252")
           [mkCell "p" 0 0 10 "#FF5252" 100 0 0 0 0] [greedyBot "a"]).
  constructor. unfold eats. cbn [eater_cell c_x c_y c_radius f_x f_y].
  assert (Hx : (10 <? Math_abs (0 - 3)) = false).
  { apply Rltb_nlt. unfold Math_abs, Rabs.
    destruct (Rcase_abs (0 - 3)); lra. }
  assert (Hy : (10 <? Math_abs (0 - 4)) = false).
  { apply Rltb_nlt. unfold Math_abs, Rabs.
    destruct (Rcase_abs (0 - 4)); lra. }
  rewrite Hx, Hy. cbn [orb]. apply Rltb_lt. lra.
Defined.

(* ================================================================== *)
(** * The grace of the ejecting cell *)

Section Grace.
Variable o : Oracle.
Variable blob : EjectedMass.

Lemma blobVsPlayers_grace (cells : list PlayerCell) :
  withinGrace o blob -> Forall (ejectedBy blob) cells ->
  ensures o (blobVsPlayers blob cells) (fun hit => hit = None).
Proof.
  intros Hg. induction 1 as [|cell rest Hc _ IH]; cbn [blobVsPlayers].
  - apply ensures_ret. reflexivity.
  - cbv zeta.
    assert (Hnext : ensures o
                      (r <- blobVsPlayers blob rest ;;
                       ret (option_map (cons cell) r))
                      (fun hit => hit = None)).
    { eapply ensures_bind; [exact IH|]. intros r ->. apply ensures_ret.
      reflexivity. }
    destruct (touches cell blob); [|exact Hnext].
    unfold ejectedBy in Hc. rewrite <- Hc, String.eqb_refl.
    intros t. unfold bind at 1. unfold bind at 1. cbn [Date_now ret].
    rewrite (proj2 (Rltb_lt _ _) (Hg (clockPos t))). apply Hnext.
Qed.

Lemma blobVsPlayers_plain (cells : list PlayerCell) :
  pastGrace o blob \/ Forall (fun c => ~ ejectedBy blob c) cells ->
  ensures o (blobVsPlayers blob cells)
          (fun hit => hit = blobVsCells blob cells).
Proof.
  intros H. induction cells as [|cell rest IH];
    cbn [blobVsPlayers blobVsCells].
  - apply ensures_ret. reflexivity.
  - cbv zeta.
    assert (Hrest : pastGrace o blob
                    \/ Forall (fun c => ~ ejectedBy blob c) rest).
    { destruct H as [H|H]; [left; exact H|]. right.
      inversion H; assumption. }
    specialize (IH Hrest).
    assert (Hnext : ensures o
                      (r <- blobVsPlayers blob rest ;;
                       ret (option_map (cons cell) r))
                      (fun hit => hit = option_map (cons cell)
                                                   (blobVsCells blob rest))).
    { eapply ensures_bind; [exact IH|]. intros r ->. apply ensures_ret.
      reflexivity. }
    destruct (touches cell blob); cbn [andb]; [|exact Hnext].
    destruct (String.eqb (e_ownerId blob) (c_id cell)) eqn:Eid.
    + apply String.eqb_eq in Eid.
      destruct H as [H|H].
      2:{ inversion H as [|? ? Hno _]; subst. exfalso. apply Hno.
          unfold ejectedBy. congruence. }
      intros t. unfold bind at 1. unfold bind at 1. cbn [Date_now ret].
      rewrite (proj2 (Rltb_nlt _ _) (H (clockPos t))).
      destruct (bigEnough cell blob); [reflexivity | apply Hnext].
    + intros t. unfold bind at 1. cbn [ret].
      destruct (bigEnough cell blob); [reflexivity | apply Hnext].
Qed.

End Grace.

(** X25. The cell that ejected a blob cannot swallow it during the
    first 500 ms: while the clock is within that window, an array made of
    the ejecting cell only never consumes the blob, however heavy and close
    the cell is.  Past the window, or for cells other than the ejecting one
    (its siblings included), the player's test is the one used for the cells
    of a bot: the first cell that touches the blob and is more than 1.25
    times as heavy swallows it. *)
Theorem ejecting_cell_waits
        (blob : EjectedMass) (cells : list PlayerCell) (o : Oracle) (t : Tape) :
  (withinGrace o blob -> Forall (ejectedBy blob) cells ->
   fst (blobVsPlayers blob cells o t) = None)
  /\ (pastGrace o blob \/ Forall (fun c => ~ ejectedBy blob c) cells ->
      fst (blobVsPlayers blob cells o t) = blobVsCells blob cells).
Proof.
  split.
  - intros Hg Hc. apply (blobVsPlayers_grace Hg Hc).
  - intros H. apply (blobVsPlayers_plain H).
Qed.

Lemma ejecting_cell_waits_witness :
  fst (blobVsPlayers nearBlob [cellAt "q" 100 100 100] (constOracle 100 0)
                     startTape) = None.
Proof.
  apply (proj1 (ejecting_cell_waits nearBlob [cellAt "q" 100 100 100]
                  (constOracle 100 0) startTape)).
  - intros n. cbn. lra.
  - constructor; [reflexivity | constructor].
Defined.

(* ================================================================== *)
(** * Player cells against bot cells *)

(** X26. Between cells of non-negative mass eating goes one way: a
    player cell and a bot cell never qualify to eat each other at the same
    time, and two cells of equal mass never eat one another, so the order
    in which the loop tries the two tests decides nothing. *)
Theorem eating_is_one_way (pCell bCell : PlayerCell) :
  0 <= c_mass pCell -> 0 <= c_mass bCell ->
  playerEatsBot pCell bCell && botEatsPlayer pCell bCell = false
  /\ (c_mass pCell = c_mass bCell ->
      playerEatsBot pCell bCell = false /\ botEatsPlayer pCell bCell = false).
Proof.
  intros Hp Hb. unfold playerEatsBot, botEatsPlayer. split.
  - rcase (c_mass bCell * (125 / 100)) (c_mass pCell) H1;
      [|rewrite andb_false_r; reflexivity].
    rcase (c_mass pCell * (125 / 100)) (c_mass bCell) H2;
      [lra | rewrite !andb_false_r; reflexivity].
  - intros E.
    rewrite (proj2 (Rltb_nlt (c_mass bCell * (125 / 100)) (c_mass pCell)))
      by lra.
    rewrite (proj2 (Rltb_nlt (c_mass pCell * (125 / 100)) (c_mass bCell)))
      by lra.
    rewrite !andb_false_r. split; reflexivity.
Qed.

Lemma eating_is_one_way_witness :
  let p := cellAt "p" 100 100 100 in
  let b := cellAt "b" 100 100 50 in
  playerEatsBot p b && botEatsPlayer p b = false
  /\ (c_mass p = c_mass b ->
      playerEatsBot p b = false /\ botEatsPlayer p b = false).
Proof.
  cbv zeta.
  apply (@eating_is_one_way (cellAt "p" 100 100 100) (cellAt "b" 100 100 50));
    cbn; lra.
Defined.

(* ================================================================== *)
(** * The target of a bot *)

Section Retarget.
Variable o : Oracle.
Hypothesis Hrandom : unitRandom o.
Variable center : Vector.
Variable fs : list Food.




End Retarget.



(* ================================================================== *)
(** * The HUD *)

(** ** The leaderboard *)

Lemma insertEntry_perm (e : LeaderboardEntry) (l : list LeaderboardEntry) :
  Permutation (insertEntry e l) (e :: l).
Proof.
  induction l as [|h l IH]; cbn [insertEntry]; [reflexivity|].
  destruct (le_mass h <? le_mass e); [reflexivity|].
  rewrite IH. apply perm_swap.
Qed.

Lemma insertEntry_sorted (e : LeaderboardEntry) (l : list LeaderboardEntry) :
  StronglySorted above l -> StronglySorted above (insertEntry e l).
Proof.
  induction 1 as [|h l Hs IH Hf]; cbn [insertEntry].
  - constructor; constructor.
  - rcase (le_mass h) (le_mass e) G.
    + constructor; [constructor; assumption|].
      constructor; [unfold above; lra|].
      eapply Forall_impl; [|exact Hf]. unfold above. intros a Ha. lra.
    + constructor; [exact IH|].
      eapply Permutation_Forall; [symmetry; apply insertEntry_perm|].
      constructor; [exact G | exact Hf].
Qed.

Lemma sortByMass_fold (entries : list LeaderboardEntry) :
  forall acc,
    StronglySorted above acc ->
    StronglySorted above
      (fold_left (fun acc e => insertEntry e acc) entries acc)
    /\ Permutation (fold_left (fun acc e => insertEntry e acc) entries acc)
                   (entries ++ acc).
Proof.
  induction entries as [|e entries IH]; intros acc H; cbn [fold_left].
  - split; [exact H | reflexivity].
  - destruct (IH (insertEntry e acc) (insertEntry_sorted e H)) as [A B].
    split; [exact A|]. rewrite B, insertEntry_perm.
    cbn [app]. symmetry. apply Permutation_middle.
Qed.

Lemma sortByMass_sorted (entries : list LeaderboardEntry) :
  StronglySorted above (sortByMass entries)
  /\ Permutation (sortByMass entries) entries.
Proof.
  destruct (@sortByMass_fold entries [] (SSorted_nil _)) as [A B].
  rewrite app_nil_r in B. split; assumption.
Qed.

Lemma StronglySorted_split {A} (R : A -> A -> Prop) (n : nat) (l : list A) :
  StronglySorted R l ->
  StronglySorted R (firstn n l)
  /\ Forall (fun a => Forall (R a) (skipn n l)) (firstn n l).
Proof.
  intros H. revert n. induction H as [|a l Hs IH Hf]; intros n.
  - rewrite firstn_nil. split; constructor.
  - destruct n as [|n]; cbn [firstn skipn]; [split; constructor|].
    destruct (IH n) as [A1 A2]. split.
    + constructor; [exact A1|].
      rewrite <- (firstn_skipn n l) in Hf. apply Forall_app in Hf. tauto.
    + constructor; [|exact A2].
      rewrite <- (firstn_skipn n l) in Hf. apply Forall_app in Hf. tauto.
Qed.

(** X28. The leaderboard shows the ten heaviest of the candidates (the
    player with its exact mass, every bot with the floor of its mass), in
    order of mass, heaviest first: it is sorted, it holds ten entries when
    there are at least nine bots and all the candidates otherwise, together
    with the candidates left out it is a rearrangement of the candidates,
    and no candidate left out is heavier than an entry shown.  The player
    is shown only if it is among the ten. *)
Theorem leaderboard_shows_the_heaviest (playerName : string) (s : GameState) :
  let shown := leaderboard playerName s in
  let hidden := skipn 10 (sortByMass (leaderboardEntries playerName s)) in
  StronglySorted above shown
  /\ length shown = Nat.min 10 (S (length (bots s)))
  /\ Permutation (shown ++ hidden) (leaderboardEntries playerName s)
  /\ Forall (fun a => Forall (above a) hidden) shown.
Proof.
  cbv zeta. unfold leaderboard.
  destruct (sortByMass_sorted (leaderboardEntries playerName s)) as [A B].
  destruct (StronglySorted_split 10 A) as [C D].
  split; [exact C|]. split; [|split; [|exact D]].
  - rewrite length_firstn, (Permutation_length B).
    unfold leaderboardEntries. cbn [length]. rewrite length_map. reflexivity.
  - rewrite firstn_skipn. exact B.
Qed.

(** ** The timer and the countdown *)

Lemma Math_floor_spec (r : R) (z : Z) :
  IZR z <= r < IZR z + 1 -> Math_floor r = z.
Proof.
  intros H. unfold Math_floor. symmetry. apply Int_part_spec. lra.
Qed.

Lemma Math_floor_bounds (r : R) :
  IZR (Math_floor r) <= r < IZR (Math_floor r) + 1.
Proof.
  unfold Math_floor. destruct (base_Int_part r) as [A B]. lra.
Qed.

Lemma Math_floor_div (a b : Z) :
  (0 < b)%Z -> Math_floor (IZR a / IZR b) = (a / b)%Z.
Proof.
  intros Hb. apply Math_floor_spec.
  assert (Hb' : 0 < IZR b) by (apply IZR_lt; exact Hb).
  pose proof (Z.mul_div_le a b Hb) as H1.
  pose proof (Z.mul_succ_div_gt a b Hb) as H2.
  apply IZR_le in H1. apply IZR_lt in H2.
  rewrite mult_IZR in H1. rewrite mult_IZR, succ_IZR in H2.
  split.
  - apply (Rmult_le_reg_l (IZR b)); [exact Hb'|].
    replace (IZR b * (IZR a / IZR b)) with (IZR a) by (field; lra). exact H1.
  - apply (Rmult_lt_reg_l (IZR b)); [exact Hb'|].
    replace (IZR b * (IZR a / IZR b)) with (IZR a) by (field; lra). exact H2.
Qed.

(** X29. The timer shows whole seconds of the time left, never
    negative: with [mins] and [secs] the two numbers shown, [secs] is
    between 0 and 59, [mins] is not negative, and the time left (0 once the
    end of the match has passed) lies in the second that starts at
    [60 * mins + secs]; past the end the timer shows 0 and 0.  The respawn
    countdown, shown for a player without cells whose death is recorded, is
    never negative, and it is 0 exactly when [RESPAWN_DELAY_MS] have passed
    since the recorded time, which is when a tick at that time respawns the
    player. *)
Theorem hud_clock (cv : Canvas) (now : R) :
  (let '(mins, secs) := hudTime (state cv) now in
   (0 <= secs < 60)%Z /\ (0 <= mins)%Z
   /\ IZR (60 * mins + secs) * 1000
      <= Math_max 0 (gameEndTime (state cv) - now)
      < IZR (60 * mins + secs) * 1000 + 1000
   /\ (gameEndTime (state cv) <= now -> mins = 0%Z /\ secs = 0%Z))
  /\ (forall deadAt,
         playerCells (state cv) = [] -> playerDeadAt cv = Some deadAt ->
         deadAt <> 0 ->
         exists n,
           hudRespawnCountdown cv now = Some n /\ (0 <= n)%Z
           /\ (n = 0%Z <-> RESPAWN_DELAY_MS <= now - deadAt)
           /\ (n = 0%Z <-> awaitingRespawn now cv = false)).
Proof.
  split.
  - unfold hudTime. cbv zeta.
    set (ms := Math_max 0 (gameEndTime (state cv) - now)).
    assert (Hms : 0 <= ms) by (unfold ms, Math_max; apply Rmax_l).
    set (secs := Math_floor (ms / 1000)).
    assert (Hsecs : (0 <= secs)%Z).
    { apply Math_floor_nonneg. apply Rmult_le_pos; lra. }
    change 60 with (IZR 60). rewrite Math_floor_div by lia.
    rewrite Z.rem_mod_nonneg by lia.
    pose proof (Z.mod_pos_bound secs 60) as Hm.
    pose proof (Z.div_pos secs 60) as Hd.
    pose proof (Z.div_mod secs 60) as Hdm.
    split; [lia|]. split; [lia|].
    replace (60 * (secs / 60) + secs mod 60)%Z with secs by lia.
    pose proof (Math_floor_bounds (ms / 1000)) as Hb. fold secs in Hb.
    split; [lra|].
    intros Hend.
    assert (ms = 0) as Hz.
    { unfold ms, Math_max. apply Rmax_left. lra. }
    assert (secs = 0%Z) as Hs0.
    { unfold secs. rewrite Hz. apply Math_floor_spec. lra. }
    rewrite Hs0. split; reflexivity.
  - intros deadAt Hc Hd Hnz.
    unfold hudRespawnCountdown, awaitingRespawn. rewrite Hc, Hd.
    destruct (deadAt =? 0) eqn:G.
    { apply Reqb_eq in G. contradiction. }
    cbv zeta. eexists. split; [reflexivity|]. split; [lia|].
    pose proof (Math_ceil_pos ((RESPAWN_DELAY_MS - (now - deadAt)) / 1000))
      as Hp.
    rewrite Z.ltb_lt in Hp.
    assert (Hiff : 0 < (RESPAWN_DELAY_MS - (now - deadAt)) / 1000
                   <-> now - deadAt < RESPAWN_DELAY_MS).
    { unfold RESPAWN_DELAY_MS. split; intros; lra. }
    split.
    + split; intros H.
      * destruct (Rle_lt_dec RESPAWN_DELAY_MS (now - deadAt)) as [L|L];
          [exact L|].
        apply Hiff, Hp in L. lia.
      * assert (~ (0 < Math_ceil ((RESPAWN_DELAY_MS - (now - deadAt)) / 1000))%Z)
          as Hn by (intros Hpos; apply Hp, Hiff in Hpos; lra).
        lia.
    + rewrite Rltb_nlt. split; intros H.
      * destruct (Rle_lt_dec RESPAWN_DELAY_MS (now - deadAt)) as [L|L];
          [exact L|].
        apply Hiff, Hp in L. lia.
      * assert (~ (0 < Math_ceil ((RESPAWN_DELAY_MS - (now - deadAt)) / 1000))%Z)
          as Hn by (intros Hpos; apply Hp, Hiff in Hpos; lra).
        lia.
Qed.

(* ================================================================== *)
(** * The merge rule of sibling cells *)

(** ** The angle of the line of centres *)
















(** ** The loops over a whole array *)








(* ================================================================== *)
(** * Score *)

(** ** The food loop: one point for a pellet eaten by a cell of the player *)








(** ** A bot cell against the cells of the player *)




(** ** The stage: a bot cell that survives adds nothing *)








(* ================================================================== *)
(** * The round trip on the numbers of the code *)

(** C5 as the claim has it, on binary64 numbers: the round trip from a mass
    to its radius and back is not exact.  From [INITIAL_MASS], the mass of
    every spawned player cell, it comes back as the next number above 15
    (15.000000000000002), so [radiusToMass (massToRadius m) = m] does not
    hold for every [m >= 0]. *)
Lemma round_trip_counterexample :
  PrimFloat.leb Binary64.zero Binary64.INITIAL_MASS = true
  /\ Binary64.radiusToMass (Binary64.massToRadius Binary64.INITIAL_MASS)
     = Binary64.aboveInitialMass
  /\ PrimFloat.eqb
       (Binary64.radiusToMass (Binary64.massToRadius Binary64.INITIAL_MASS))
       Binary64.INITIAL_MASS = false
  /\ ~ (forall m,
          PrimFloat.leb Binary64.zero m = true ->
          Binary64.radiusToMass (Binary64.massToRadius m) = m).
Proof.
  split; [reflexivity|]. split; [reflexivity|]. split; [reflexivity|].
  intros H. specialize (H Binary64.INITIAL_MASS eq_refl).
  apply (f_equal (fun x => PrimFloat.eqb x Binary64.INITIAL_MASS)) in H.
  discriminate H.
Qed.
